(** * The load-balancer BPF reconciler of pkg/loadbalancer/experimental

    A shallow embedding of [bpf_reconciler.go]: the identifier allocator,
    the reference-counted backend registry, the per-frontend reconciliation
    ([updateFrontend], [deleteFrontend]), the NodePort expansion of [Update]
    and [Delete], and the pruning sweeps.

    Go maps are finite maps ([gmap]), [sets.Set] is [gset]; machine integers
    are [Z] with their wrap-around written out.  The table driver is a
    parameter: every driver call is recorded in a trace together with its
    outcome. *)

From Stdlib Require Import ZArith Lia Sorting.Sorted Sorting.Permutation.
From Stdlib Require Structures.OrderedTypeEx.
From stdpp Require Import base gmap sets list sorting strings pretty.

Open Scope Z_scope.

#[local] Set Warnings "-clear-no-such-hyp".

(** ** Machine integers *)

(** [loadbalancer.ID] values are unsigned 32-bit; [x++] wraps. *)
Definition wrap32 (x : Z) : Z := x mod 2 ^ 32.
(** [uint16(x)] conversions. *)
Definition uint16 (x : Z) : Z := x mod 2 ^ 16.
(** Go's [int] is 64-bit two's complement; [x++] and [x--] wrap. *)
Definition wrap_int (x : Z) : Z := (x + 2 ^ 63) mod 2 ^ 64 - 2 ^ 63.

(** ** Addresses *)

(** Go's [net/netip.Addr]: the zero value, an IPv4 address, or an IPv6
    address with its zone. *)
Module netip.

Inductive Addr : Type :=
| Zero
| V4 (a : N)
| V6 (a : N) (zone : string).

Definition BitLen (ip : Addr) : Z :=
  match ip with Zero => 0 | V4 _ => 32 | V6 _ _ => 128 end.

Definition Is6 (ip : Addr) : bool :=
  match ip with V6 _ _ => true | _ => false end.

Definition bits (ip : Addr) : N :=
  match ip with Zero => 0%N | V4 a => a | V6 a _ => a end.

Definition Zone (ip : Addr) : string :=
  match ip with V6 _ z => z | _ => EmptyString end.

Definition IsUnspecified (ip : Addr) : bool :=
  match ip with
  | V4 a => N.eqb a 0
  | V6 a z => N.eqb a 0 && bool_decide (z = EmptyString)
  | Zero => false
  end.

(** [Compare] orders by bit length, then by the address bits, then (for
    IPv6) by zone; the result is -1, 0 or +1. *)
Definition Compare (ip ip2 : Addr) : Z :=
  if BitLen ip <? BitLen ip2 then -1
  else if BitLen ip2 <? BitLen ip then 1
  else match N.compare (bits ip) (bits ip2) with
       | Lt => -1
       | Gt => 1
       | Eq =>
           if Is6 ip then
             match String.compare (Zone ip) (Zone ip2) with
             | Lt => -1
             | Gt => 1
             | Eq => 0
             end
           else 0
       end.

#[global] Instance Addr_eq_dec : EqDecision Addr.
Proof. solve_decision. Defined.

Definition to_sum (ip : Addr) : unit + (N + N * string) :=
  match ip with
  | Zero => inl tt
  | V4 a => inr (inl a)
  | V6 a z => inr (inr (a, z))
  end.

Definition of_sum (s : unit + (N + N * string)) : Addr :=
  match s with
  | inl _ => Zero
  | inr (inl a) => V4 a
  | inr (inr (a, z)) => V6 a z
  end.

#[global] Instance Addr_countable : Countable Addr.
Proof. apply (inj_countable' to_sum of_sum). by intros []. Defined.

End netip.

(** [cmtypes.AddrCluster]: an IP address with a cluster identifier. *)
Record AddrCluster : Type := mkAddrCluster {
  ac_addr : netip.Addr;
  ac_clusterID : Z
}.

Definition AddrClusterFrom (addr : netip.Addr) (clusterID : Z) : AddrCluster :=
  mkAddrCluster addr clusterID.

(** [loadbalancer.L3n4Addr]: address, protocol, port and scope. *)
Record L3n4Addr : Type := mkL3n4Addr {
  AddrCluster_ : AddrCluster;
  Protocol : string;
  Port : Z;
  Scope : Z
}.

Definition IsIPv6 (a : L3n4Addr) : bool := netip.Is6 (ac_addr (AddrCluster_ a)).

Definition set_AddrCluster (a : L3n4Addr) (ac : AddrCluster) : L3n4Addr :=
  mkL3n4Addr ac (Protocol a) (Port a) (Scope a).

#[global] Instance AddrCluster_eq_dec : EqDecision AddrCluster.
Proof. solve_decision. Defined.
#[global] Instance AddrCluster_countable : Countable AddrCluster.
Proof.
  apply (inj_countable' (λ a, (ac_addr a, ac_clusterID a))
                        (λ p, mkAddrCluster p.1 p.2)).
  by intros [].
Defined.

#[global] Instance L3n4Addr_eq_dec : EqDecision L3n4Addr.
Proof. solve_decision. Defined.
#[global] Instance L3n4Addr_countable : Countable L3n4Addr.
Proof.
  apply (inj_countable' (λ a, (AddrCluster_ a, Protocol a, Port a, Scope a))
                        (λ p, mkL3n4Addr p.1.1.1 p.1.1.2 p.1.2 p.2)).
  by intros [].
Defined.

(** The zero value of [L3n4Addr]. *)
Definition zeroAddr : L3n4Addr :=
  mkL3n4Addr (mkAddrCluster netip.Zero 0) EmptyString 0 0.

Definition AddrCluster_Is6 (ac : AddrCluster) : bool := netip.Is6 (ac_addr ac).
Definition AddrCluster_IsUnspecified (ac : AddrCluster) : bool :=
  netip.IsUnspecified (ac_addr ac).

(** ** Errors *)

(** Go [error] values: driver errors are opaque codes, [fmt.Errorf] builds
    messages and wraps ([%w]), [errors.Join] collects. *)
#[local] Unset Elimination Schemes.
Inductive error : Type :=
| Errno (code : Z)
| Errorf (msg : string) (args : list Z)
| Wrap (msg : string) (cause : error)
| Joined (errs : list error).
#[local] Set Elimination Schemes.

(** The outcome of a call that may return an error. *)
Inductive outcome (A : Type) : Type :=
| Ok (a : A)
| Fail (e : error).
Arguments Ok {A} a.
Arguments Fail {A} e.

(** ** The identifier allocator *)

Abbreviation ID := Z.

(** [loadbalancer.L3n4AddrID]. *)
Record L3n4AddrID : Type := mkL3n4AddrID {
  id_addr : L3n4Addr;
  id_ID : ID
}.

Record idAllocator : Type := mkIdAllocator {
  entitiesID : gmap Z L3n4AddrID;
  entities : gmap string ID;
  nextID : ID;
  maxID : ID;
  initNextID : ID;
  initMaxID : ID
}.

Definition set_nextID (alloc : idAllocator) (n : ID) : idAllocator :=
  mkIdAllocator (entitiesID alloc) (entities alloc) n
                (maxID alloc) (initNextID alloc) (initMaxID alloc).

Definition newIDAllocator (nextID maxID : ID) : idAllocator :=
  mkIdAllocator ∅ ∅ nextID maxID nextID maxID.

Definition newID (svc : L3n4Addr) (id : ID) : L3n4AddrID := mkL3n4AddrID svc id.

Section Allocator.

(** [L3n4Addr.StringID], the canonical string key of an address. *)
Variable StringID : L3n4Addr → string.

Definition addID (alloc : idAllocator) (svc : L3n4Addr) (id : ID)
  : idAllocator * ID :=
  let svcID := newID svc id in
  (mkIdAllocator (<[id := svcID]> (entitiesID alloc))
                 (<[StringID svc := id]> (entities alloc))
                 (nextID alloc) (maxID alloc)
                 (initNextID alloc) (initMaxID alloc),
   id).

(** The scan loop of [acquireLocalID].  Each unfolding is one iteration;
    [None] means the iterations allowed by [fuel] were used up. *)
Fixpoint acquire_scan (fuel : nat) (svc : L3n4Addr) (startingID : ID)
    (rollover : bool) (alloc : idAllocator)
  : option (idAllocator * outcome ID) :=
  match fuel with
  | O => None
  | S fuel' =>
      if bool_decide (nextID alloc = startingID) && rollover then
        Some (alloc, Fail (Errorf "no service ID available" []))
      else
        let '(alloc, rollover) :=
          if bool_decide (nextID alloc = maxID alloc)
          then (set_nextID alloc (initNextID alloc), true)
          else (alloc, rollover) in
        match entitiesID alloc !! nextID alloc with
        | None =>
            let '(alloc, svcID) := addID alloc svc (nextID alloc) in
            Some (set_nextID alloc (wrap32 (nextID alloc + 1)), Ok svcID)
        | Some _ =>
            acquire_scan fuel' svc startingID rollover
                         (set_nextID alloc (wrap32 (nextID alloc + 1)))
        end
  end.

Definition lookup_registered (alloc : idAllocator) (svc : L3n4Addr)
  : option L3n4AddrID :=
  match entities alloc !! StringID svc with
  | Some svcID => entitiesID alloc !! svcID
  | None => None
  end.

Definition acquireLocalID (fuel : nat) (alloc : idAllocator)
    (svc : L3n4Addr) (desiredID : ID)
  : option (idAllocator * outcome ID) :=
  match lookup_registered alloc svc with
  | Some svc' => Some (alloc, Ok (id_ID svc'))
  | None =>
      if bool_decide (desiredID ≠ 0) then
        match entitiesID alloc !! desiredID with
        | None =>
            let alloc :=
              if bool_decide (nextID alloc <= desiredID)
              then set_nextID alloc desiredID else alloc in
            let '(alloc, id) := addID alloc svc desiredID in
            Some (alloc, Ok id)
        | Some foundSVC =>
            Some (alloc,
                  Fail (Errorf "Service ID %d is already registered to %q"
                               [desiredID; id_ID foundSVC]))
        end
      else acquire_scan fuel svc (nextID alloc) false alloc
  end.

Definition deleteLocalID (alloc : idAllocator) (id : ID) : idAllocator :=
  match entitiesID alloc !! id with
  | Some svc =>
      mkIdAllocator (delete id (entitiesID alloc))
                    (delete (StringID (id_addr svc)) (entities alloc))
                    (nextID alloc) (maxID alloc)
                    (initNextID alloc) (initMaxID alloc)
  | None => alloc
  end.

Definition lookupLocalID (alloc : idAllocator) (svc : L3n4Addr)
  : outcome ID :=
  match entities alloc !! StringID svc with
  | Some svcID => Ok svcID
  | None => Fail (Errorf "ID not found" [])
  end.

End Allocator.

(** ** Frontends and backends *)

(** [loadbalancer.BackendState] is an unsigned byte; the active state sorts
    first. *)
Definition BackendStateActive : N := 0%N.

Record Backend : Type := mkBackend {
  be_L3n4Addr : L3n4Addr;
  be_State : N;
  be_ZoneID : Z
}.

(** [BackendWithRevision] embeds a backend and carries the revision of the
    desired-state table (an unsigned 64-bit counter). *)
Record BackendWithRevision : Type := mkBackendWithRevision {
  bwr_Backend : Backend;
  Revision : Z
}.

Definition bwr_addr (b : BackendWithRevision) : L3n4Addr :=
  be_L3n4Addr (bwr_Backend b).
Definition bwr_State (b : BackendWithRevision) : N := be_State (bwr_Backend b).

Inductive SVCType : Type :=
| SVCTypeNone | SVCTypeHostPort | SVCTypeClusterIP | SVCTypeNodePort
| SVCTypeExternalIPs | SVCTypeLoadBalancer | SVCTypeLocalRedirect.

#[global] Instance SVCType_eq_dec : EqDecision SVCType.
Proof. solve_decision. Defined.

Inductive SVCTrafficPolicy : Type :=
| SVCTrafficPolicyNone | SVCTrafficPolicyCluster | SVCTrafficPolicyLocal.

#[global] Instance SVCTrafficPolicy_eq_dec : EqDecision SVCTrafficPolicy.
Proof. solve_decision. Defined.

Record Service : Type := mkService {
  ExtTrafficPolicy : SVCTrafficPolicy;
  IntTrafficPolicy : SVCTrafficPolicy;
  NatPolicy : string;
  SessionAffinity : bool;
  SessionAffinityTimeout : Z; (* whole seconds *)
  L7ProxyPort : Z;
  LoopbackHostPort : bool
}.

Record Frontend : Type := mkFrontend {
  Address : L3n4Addr;
  Type_ : SVCType;
  Backends : list BackendWithRevision;
  fe_nodePortAddrs : list netip.Addr;
  fe_Service : Service
}.

(** [fe = fe.Clone(); fe.Address.AddrCluster = ac]. *)
Definition with_AddrCluster (fe : Frontend) (ac : AddrCluster) : Frontend :=
  mkFrontend (set_AddrCluster (Address fe) ac) (Type_ fe) (Backends fe)
             (fe_nodePortAddrs fe) (fe_Service fe).

(** ** Keys and values of the datapath tables *)

(** The parameters of [loadbalancer.NewSvcFlag]; a service value carries
    them in place of the packed flag word. *)
Record SvcFlagParam : Type := mkSvcFlagParam {
  SvcType : SVCType;
  SvcExtLocal : bool;
  SvcIntLocal : bool;
  SvcNatPolicy : string;
  flag_SessionAffinity : bool;
  IsRoutable : bool;
  L7LoadBalancer : bool;
  LoopbackHostport : bool
}.

Record ServiceKey : Type := mkServiceKey {
  sk_v6 : bool;
  sk_ip : netip.Addr;
  sk_port : Z;
  sk_proto : Z;
  sk_scope : Z;
  sk_slot : Z
}.

Definition SetBackendSlot (k : ServiceKey) (slot : Z) : ServiceKey :=
  mkServiceKey (sk_v6 k) (sk_ip k) (sk_port k) (sk_proto k) (sk_scope k) slot.

Record ServiceValue : Type := mkServiceValue {
  sv_v6 : bool;
  sv_BackendID : Z;
  sv_Count : Z;
  sv_RevNat : Z;
  sv_Flags : option SvcFlagParam
}.

Definition zeroServiceValue (v6 : bool) : ServiceValue :=
  mkServiceValue v6 0 0 0 None.
Definition SetFlags (v : ServiceValue) (f : SvcFlagParam) : ServiceValue :=
  mkServiceValue (sv_v6 v) (sv_BackendID v) (sv_Count v) (sv_RevNat v) (Some f).
(** The reverse NAT index of a service value is 16 bits wide. *)
Definition SetRevNat (v : ServiceValue) (id : Z) : ServiceValue :=
  mkServiceValue (sv_v6 v) (sv_BackendID v) (sv_Count v) (uint16 id) (sv_Flags v).
Definition SetBackendID (v : ServiceValue) (id : Z) : ServiceValue :=
  mkServiceValue (sv_v6 v) id (sv_Count v) (sv_RevNat v) (sv_Flags v).
Definition SetCount (v : ServiceValue) (n : Z) : ServiceValue :=
  mkServiceValue (sv_v6 v) (sv_BackendID v) n (sv_RevNat v) (sv_Flags v).
(** The affinity timeout and the L7 proxy port re-use the backend ID field
    of the master entry. *)
Definition SetSessionAffinityTimeoutSec (v : ServiceValue) (t : Z) : ServiceValue :=
  SetBackendID v t.
Definition SetL7LBProxyPort (v : ServiceValue) (p : Z) : ServiceValue :=
  SetBackendID v p.

Record RevNatKey : Type := mkRevNatKey { rk_v6 : bool; rk_key : Z }.
Record RevNatValue : Type := mkRevNatValue {
  rv_ip : netip.Addr;
  rv_port : Z
}.

Definition NewRevNatKey (v6 : bool) (id : Z) : RevNatKey := mkRevNatKey v6 id.
Definition RevNatKey_of (v : ServiceValue) : RevNatKey :=
  mkRevNatKey (sv_v6 v) (sv_RevNat v).
Definition RevNatValue_of (k : ServiceKey) : RevNatValue :=
  mkRevNatValue (sk_ip k) (sk_port k).

Record BackendKey : Type := mkBackendKey { bk_v6 : bool; bk_id : Z }.
Record BackendValue : Type := mkBackendValue {
  bv_ip : netip.Addr;
  bv_port : Z;
  bv_state : N;
  bv_zone : Z
}.

Record AffinityMatchKey : Type := mkAffinityMatchKey {
  am_BackendID : Z;
  am_RevNATID : Z
}.

(** [u8proto.ANY]. *)
Definition u8proto_ANY : Z := 0.

(** ** The table driver *)

(** Every call that reaches the kernel tables, whether through the [lbmaps]
    interface or through the package-level maps of [lbmap]. *)
Inductive dpop : Type :=
| UpdateService (k : ServiceKey) (v : ServiceValue)
| DeleteService (k : ServiceKey)
| SilentDeleteService (k : ServiceKey)
| MapDeleteService (k : ServiceKey)
| UpdateBackend (k : BackendKey) (v : BackendValue)
| SilentDeleteBackend (k : BackendKey)
| MapDeleteBackend (k : BackendKey)
| UpdateRevNat (k : RevNatKey) (v : RevNatValue)
| DeleteRevNat (k : RevNatKey)
| UpdateAffinityMatch (k : AffinityMatchKey)
| SilentDeleteAffinityMatch (k : AffinityMatchKey)
| DumpService
| DumpBackend
| DumpRevNat
| DumpWithCallbackService (v6 : bool)
| DumpWithCallbackBackend (v6 : bool).


(** [option.Config]. *)
Record Config : Type := mkConfig {
  EnableSessionAffinity : bool;
  ExternalClusterIP : bool
}.

(** ** Reconciler state *)

Record backendState : Type := mkBackendState {
  addr : L3n4Addr;
  revision : Z;
  refCount : Z;
  id : Z
}.

Definition zeroBackendState : backendState := mkBackendState zeroAddr 0 0 0.

(** [unix.E2BIG], and [errors.Is(err, unix.E2BIG)]. *)
Definition E2BIG : error := Errno 7.

Fixpoint is_E2BIG (e : error) : bool :=
  match e with
  | Errno c => bool_decide (c = 7)
  | Errorf _ _ => false
  | Wrap _ cause => is_E2BIG cause
  | Joined errs => existsb is_E2BIG errs
  end.

(** [errors.Join]: nil when every argument is nil, otherwise the non-nil
    arguments in order. *)
Definition errors_Join (errs : list (option error)) : option error :=
  match omap (λ e, e) errs with
  | [] => None
  | es => Some (Joined es)
  end.

(** ** The environment of the reconciler

    What the reconciler takes from outside this file: the canonical key of
    an address, the surrogate test of service keys, the agent configuration,
    the constructor of backend rows, the table driver with its state, the
    order in which a [range] over a set visits its members, and
    [sort.Slice]. *)
Class Env : Type := {
  StringID : L3n4Addr → string;
  IsSurrogate : ServiceKey → bool;
  config : Config;
  NewBackendV3 : bool → Z → Backend → outcome (BackendKey * BackendValue);
  lbmaps : Type;
  exec : dpop → lbmaps → lbmaps * option error;
  rowsService : lbmaps → list (ServiceKey * ServiceValue);
  rowsBackend : lbmaps → list (BackendKey * BackendValue);
  rowsRevNat : lbmaps → list (RevNatKey * RevNatValue);
  rowsServiceMap : bool → lbmaps → list (ServiceKey * ServiceValue);
  rowsBackendMap : bool → lbmaps → list (BackendKey * BackendValue);
  rangeSet : ∀ (K : Type) `{Countable K}, gset K → list K;
  sort_Slice : ∀ (A : Type), (A → A → bool) → list A → list A
}.
Arguments rangeSet {_ _ _ _} _.
Arguments sort_Slice {_ _} _ _.

(** A comparison function that [sort.Slice] accepts: a strict weak
    ordering. *)
Record StrictWeakOrder {A : Type} (less : A → A → bool) : Prop := {
  swo_irrefl : ∀ a, less a a = false;
  swo_trans : ∀ a b c, less a b = true → less b c = true → less a c = true;
  swo_incomp : ∀ a b c,
    less a b = false → less b a = false →
    less b c = false → less c b = false →
    less a c = false ∧ less c a = false
}.

(** What the language and its library promise about the last two fields:
    a [range] visits every member once, and [sort.Slice] returns the same
    elements with no later one less than an earlier one. *)
Class EnvOK (E : Env) : Prop := {
  rangeSet_perm : ∀ (K : Type) `{Countable K} (s : gset K),
    rangeSet s ≡ₚ elements s;
  sort_Slice_perm : ∀ (A : Type) (less : A → A → bool) (l : list A),
    sort_Slice less l ≡ₚ l;
  sort_Slice_sorted : ∀ (A : Type) (less : A → A → bool) (l : list A),
    StrictWeakOrder less →
    StronglySorted (λ a b, less b a = false) (sort_Slice less l)
}.

(** [insertionSortLessFunc], which [sort.Slice] runs on slices of at most
    twelve elements: each element in turn moves left while it is less than
    its left neighbour. *)
Fixpoint insert_left {A : Type} (less : A → A → bool) (x : A) (rev_prefix : list A)
  : list A :=
  match rev_prefix with
  | [] => [x]
  | y :: rest => if less x y then y :: insert_left less x rest else x :: y :: rest
  end.

Definition insertionSort {A : Type} (less : A → A → bool) (l : list A) : list A :=
  reverse (fold_left (λ acc x, insert_left less x acc) l []).

(** ** The reconciler *)

Section Reconciler.

Context {E : Env}.

(** [bpfOps], with the driver state in [dp] and the log of driver calls
    in [trace] (newest last). *)
Record bpfOps : Type := mkBpfOps {
  dp : lbmaps;
  trace : list (dpop * option error);
  serviceIDAlloc : idAllocator;
  restoredServiceIDs : gset Z;
  backendIDAlloc : idAllocator;
  restoredBackendIDs : gset Z;
  backendStates : gmap L3n4Addr backendState;
  backendReferences : gmap L3n4Addr (gset L3n4Addr);
  nodePortAddrs : gmap Z (list netip.Addr)
}.

Definition set_dp (s : bpfOps) (d : lbmaps) (t : list (dpop * option error)) :=
  mkBpfOps d t (serviceIDAlloc s) (restoredServiceIDs s) (backendIDAlloc s)
    (restoredBackendIDs s) (backendStates s) (backendReferences s)
    (nodePortAddrs s).
Definition set_serviceIDAlloc (s : bpfOps) (a : idAllocator) :=
  mkBpfOps (dp s) (trace s) a (restoredServiceIDs s) (backendIDAlloc s)
    (restoredBackendIDs s) (backendStates s) (backendReferences s)
    (nodePortAddrs s).
Definition set_backendIDAlloc (s : bpfOps) (a : idAllocator) :=
  mkBpfOps (dp s) (trace s) (serviceIDAlloc s) (restoredServiceIDs s) a
    (restoredBackendIDs s) (backendStates s) (backendReferences s)
    (nodePortAddrs s).
Definition set_restored (s : bpfOps) (rs rb : gset Z) :=
  mkBpfOps (dp s) (trace s) (serviceIDAlloc s) rs (backendIDAlloc s)
    rb (backendStates s) (backendReferences s) (nodePortAddrs s).
Definition set_backendStates (s : bpfOps) (m : gmap L3n4Addr backendState) :=
  mkBpfOps (dp s) (trace s) (serviceIDAlloc s) (restoredServiceIDs s)
    (backendIDAlloc s) (restoredBackendIDs s) m (backendReferences s)
    (nodePortAddrs s).
Definition set_backendReferences (s : bpfOps)
    (m : gmap L3n4Addr (gset L3n4Addr)) :=
  mkBpfOps (dp s) (trace s) (serviceIDAlloc s) (restoredServiceIDs s)
    (backendIDAlloc s) (restoredBackendIDs s) (backendStates s) m
    (nodePortAddrs s).
Definition set_nodePortAddrs (s : bpfOps) (m : gmap Z (list netip.Addr)) :=
  mkBpfOps (dp s) (trace s) (serviceIDAlloc s) (restoredServiceIDs s)
    (backendIDAlloc s) (restoredBackendIDs s) (backendStates s)
    (backendReferences s) m.

(** [newBPFOps]. *)
Definition firstFreeServiceID : Z := 1.
Definition maxSetOfServiceID : Z := 0xFFFF.
Definition firstFreeBackendID : Z := 1.
Definition maxSetOfBackendID : Z := 0xFFFFFFFF.

Definition newBPFOps (d : lbmaps) : bpfOps :=
  mkBpfOps d []
    (newIDAllocator firstFreeServiceID maxSetOfServiceID) ∅
    (newIDAllocator firstFreeBackendID maxSetOfBackendID) ∅
    ∅ ∅ ∅.

(** *** A state and error monad

    A method of [bpfOps] takes the state and returns the state it leaves
    behind together with its result or its error; [None] is a scan loop
    that did not finish within the fuel. *)
Definition M (A : Type) : Type := bpfOps → option (bpfOps * outcome A).

Definition ret {A} (a : A) : M A := λ s, Some (s, Ok a).
Definition fail {A} (e : error) : M A := λ s, Some (s, Fail e).
Definition bind {A B} (m : M A) (k : A → M B) : M B :=
  λ s, match m s with
       | None => None
       | Some (s', Fail e) => Some (s', Fail e)
       | Some (s', Ok a) => k a s'
       end.
Definition gets {A} (f : bpfOps → A) : M A := λ s, Some (s, Ok (f s)).
Definition modify (f : bpfOps → bpfOps) : M unit := λ s, Some (f s, Ok tt).

Notation "'run' x <- m 'in' k" := (bind m (λ x, k))
  (at level 10, x name, m at level 100, k at level 200, only parsing).

(** A driver call: the driver moves to its next state, the call and its
    result are logged. *)
Definition call (op : dpop) : M (option error) :=
  λ s, let '(d, r) := exec op (dp s) in
       Some (set_dp s d (trace s ++ [(op, r)]), Ok r).

(** [if err := f(); err != nil { return wrap(err) }]. *)
Definition check (wrap : error → error) (r : option error) : M unit :=
  match r with
  | None => ret tt
  | Some e => fail (wrap e)
  end.

(** Replaces the error of a computation, as [fmt.Errorf] with [%w] at a call site does. *)
Definition wrapping {A} (wrap : error → error) (m : M A) : M A :=
  λ s, match m s with
       | Some (s', Fail e) => Some (s', Fail (wrap e))
       | r => r
       end.

Fixpoint forM {A} (l : list A) (body : A → M unit) : M unit :=
  match l with
  | [] => ret tt
  | x :: l' => run _ <- body x in forM l' body
  end.

Fixpoint foldM {A B} (body : B → A → M B) (l : list A) (b : B) : M B :=
  match l with
  | [] => ret b
  | x :: l' => run b' <- body b x in foldM body l' b'
  end.

(** *** The backend registry *)

Definition membership (s : bpfOps) (frontend : L3n4Addr) : gset L3n4Addr :=
  default ∅ (backendReferences s !! frontend).

Definition stateOf (m : gmap L3n4Addr backendState) (a : L3n4Addr) : backendState :=
  default zeroBackendState (m !! a).

Definition set_refCount (st : backendState) (n : Z) : backendState :=
  mkBackendState (addr st) (revision st) n (id st).

(** One iteration of the first loop of [updateBackendRefCounts]. *)
Definition refcount_leave (acc : gset L3n4Addr * gmap L3n4Addr backendState)
    (a : L3n4Addr) : gset L3n4Addr * gmap L3n4Addr backendState :=
  let '(newRefs, states) := acc in
  if bool_decide (a ∈ newRefs) then (newRefs ∖ {[a]}, states)
  else match states !! a with
       | Some st =>
           if bool_decide (1 < refCount st)
           then (newRefs, <[a := set_refCount st (wrap_int (refCount st - 1))]> states)
           else (newRefs, states)
       | None => (newRefs, states)
       end.

(** One iteration of its second loop. *)
Definition refcount_enter (states : gmap L3n4Addr backendState) (a : L3n4Addr)
  : gmap L3n4Addr backendState :=
  let st := stateOf states a in
  <[a := mkBackendState a (revision st) (wrap_int (refCount st + 1)) (id st)]> states.

Definition updateBackendRefCounts (frontend : L3n4Addr)
    (backends : gset L3n4Addr) (s : bpfOps) : bpfOps :=
  let newRefs := backends in
  let '(newRefs, states) :=
    match backendReferences s !! frontend with
    | Some oldRefs =>
        fold_left refcount_leave (rangeSet oldRefs) (newRefs, backendStates s)
    | None => (newRefs, backendStates s)
    end in
  set_backendStates s (fold_left refcount_enter (rangeSet newRefs) states).

Definition updateReferences (frontend : L3n4Addr) (backends : gset L3n4Addr)
    (s : bpfOps) : bpfOps :=
  let s := updateBackendRefCounts frontend backends s in
  set_backendReferences s (<[frontend := backends]> (backendReferences s)).

Definition orphanBackends (frontend : L3n4Addr) (backends : gset L3n4Addr)
    (s : bpfOps) : list backendState :=
  match backendReferences s !! frontend with
  | Some oldRefs =>
      fold_left
        (λ orphans a,
           if bool_decide (a ∈ backends) then orphans
           else match backendStates s !! a with
                | Some state =>
                    if bool_decide (refCount state <= 1)
                    then orphans ++ [state] else orphans
                | None => orphans
                end)
        (rangeSet oldRefs) []
  | None => []
  end.

Definition needsUpdate (a : L3n4Addr) (rev : Z) (s : bpfOps) : bool :=
  bool_decide (revision (stateOf (backendStates s) a) < rev).

Definition updateBackendRevision (id : Z) (a : L3n4Addr) (rev : Z)
    (s : bpfOps) : bpfOps :=
  let st := stateOf (backendStates s) a in
  set_backendStates s
    (<[a := mkBackendState (addr st) rev (refCount st) id]> (backendStates s)).

Definition releaseBackend (id : Z) (a : L3n4Addr) (s : bpfOps) : bpfOps :=
  let s := set_backendStates s (delete a (backendStates s)) in
  set_backendIDAlloc s (deleteLocalID StringID (backendIDAlloc s) id).

(** *** Sorting the backends *)

(** The comparison function of [sortedBackends]: state, then IP address,
    then port. *)
Definition backendLess (a b : BackendWithRevision) : bool :=
  if (bwr_State a <? bwr_State b)%N then true
  else if (bwr_State b <? bwr_State a)%N then false
  else
    let c := netip.Compare (ac_addr (AddrCluster_ (bwr_addr a)))
                           (ac_addr (AddrCluster_ (bwr_addr b))) in
    if c =? -1 then true
    else if c =? 0 then Port (bwr_addr a) <? Port (bwr_addr b)
    else false.

Definition sortedBackends (bes : list BackendWithRevision)
  : list BackendWithRevision :=
  sort_Slice backendLess bes.

Fixpoint numActive_from (i : Z) (bes : list BackendWithRevision) : Z :=
  match bes with
  | [] => i
  | be :: rest =>
      if bool_decide (bwr_State be ≠ BackendStateActive) then i
      else numActive_from (i + 1) rest
  end.

Definition numActive (bes : list BackendWithRevision) : Z :=
  numActive_from 0 bes.

(** *** Table writes *)

Definition NewServiceKey (a : L3n4Addr) : ServiceKey :=
  mkServiceKey (IsIPv6 a) (ac_addr (AddrCluster_ a)) (Port a) u8proto_ANY
               (Scope a) 0.

Definition upsertService (svcKey : ServiceKey) (svcVal : ServiceValue) : M unit :=
  run err <- call (UpdateService svcKey svcVal) in
  match err with
  | Some e =>
      if is_E2BIG e
      then fail (Errorf "Unable to update service entry: Unable to update element for LB bpf map" [])
      else fail e
  | None => ret tt
  end.

Definition upsertMaster (svcKey : ServiceKey) (svcVal : ServiceValue)
    (fe : Frontend) (activeBackends : Z) : M unit :=
  let svcKey := SetBackendSlot svcKey 0 in
  let svcVal := SetBackendID (SetCount svcVal activeBackends) 0 in
  let svc := fe_Service fe in
  let svcVal :=
    if SessionAffinity svc
    then SetSessionAffinityTimeoutSec svcVal (wrap32 (SessionAffinityTimeout svc))
    else svcVal in
  let svcVal :=
    if bool_decide (L7ProxyPort svc ≠ 0)
    then SetL7LBProxyPort svcVal (L7ProxyPort svc)
    else svcVal in
  upsertService svcKey svcVal.

Definition cleanupSlots (svcKey : ServiceKey) (oldCount newCount : Z) : M unit :=
  forM (seqZ newCount (oldCount - newCount))
    (λ i, run err <- call (SilentDeleteService (SetBackendSlot svcKey (i + 1))) in
          check (Wrap "cleanup service slot") err).

Definition upsertBackend (id : Z) (be : Backend) : M unit :=
  match NewBackendV3 (AddrCluster_Is6 (AddrCluster_ (be_L3n4Addr be))) id be with
  | Fail e => fail e
  | Ok (k, v) =>
      run err <- call (UpdateBackend k v) in
      check (λ e, e) err
  end.

Definition deleteBackend (ipv6 : bool) (id : Z) : M unit :=
  run err <- call (SilentDeleteBackend (mkBackendKey ipv6 id)) in
  check (Wrap "delete backend %d") err.

Definition upsertAffinityMatch (id beID : Z) : M unit :=
  if negb (EnableSessionAffinity config) then ret tt
  else
    run err <- call (UpdateAffinityMatch (mkAffinityMatchKey beID (uint16 id))) in
    check (λ e, e) err.

Definition deleteAffinityMatch (id beID : Z) : M unit :=
  if negb (EnableSessionAffinity config) then ret tt
  else
    run err <- call (SilentDeleteAffinityMatch (mkAffinityMatchKey beID (uint16 id))) in
    check (λ e, e) err.

Definition upsertRevNat (id : Z) (svcKey : ServiceKey) (svcVal : ServiceValue)
  : M unit :=
  let zeroValue := SetRevNat (zeroServiceValue (sv_v6 svcVal)) id in
  let revNATKey := RevNatKey_of zeroValue in
  let revNATValue := RevNatValue_of svcKey in
  if bool_decide (rk_key revNATKey = 0)
  then fail (Errorf "invalid RevNat ID (0)" [])
  else
    run err <- call (UpdateRevNat revNATKey revNATValue) in
    check (Wrap "Unable to update reverse NAT") err.

(** *** Identifier allocation on the two allocators of [bpfOps] *)

Definition acquireServiceID (fuel : nat) (a : L3n4Addr) : M Z :=
  λ s, match acquireLocalID StringID fuel (serviceIDAlloc s) a 0 with
       | None => None
       | Some (alloc, r) => Some (set_serviceIDAlloc s alloc, r)
       end.

Definition acquireBackendID (fuel : nat) (a : L3n4Addr) : M Z :=
  λ s, match acquireLocalID StringID fuel (backendIDAlloc s) a 0 with
       | None => None
       | Some (alloc, r) => Some (set_backendIDAlloc s alloc, r)
       end.

(** *** [updateFrontend] *)

(** The body of the orphan loop. *)
Definition deleteOrphan (feID : Z) (orphanState : backendState) : M unit :=
  run _ <- wrapping (Wrap "delete backend")
             (deleteBackend (IsIPv6 (addr orphanState)) (id orphanState)) in
  run _ <- wrapping (Wrap "delete affinity match")
             (deleteAffinityMatch feID (id orphanState)) in
  modify (releaseBackend (id orphanState) (addr orphanState)).

(** The body of the loop over the ordered backends; [i] is the index of
    [be].  The service key and value are those set up before the loop:
    every use in the body first sets the slot, the backend ID and the
    reverse NAT index. *)
Definition updateBackend (fuel : nat) (feID : Z) (svcKey : ServiceKey)
    (svcVal : ServiceValue) (svc : Service) (i : Z) (be : BackendWithRevision)
  : M unit :=
  run known <- gets (λ s, backendStates s !! bwr_addr be) in
  run beID <-
    match known with
    | Some st =>
        if bool_decide (id st ≠ 0) then ret (id st)
        else acquireBackendID fuel (bwr_addr be)
    | None => acquireBackendID fuel (bwr_addr be)
    end in
  run stale <- gets (needsUpdate (bwr_addr be) (Revision be)) in
  run _ <-
    (if stale : bool then
       run _ <- wrapping (Wrap "upsert backend") (upsertBackend beID (bwr_Backend be)) in
       modify (updateBackendRevision beID (bwr_addr be) (Revision be))
     else ret tt) in
  run _ <-
    (if bool_decide (bwr_State be = BackendStateActive) then
       wrapping (Wrap "upsert service")
         (upsertService (SetBackendSlot svcKey (i + 1))
                        (SetRevNat (SetBackendID svcVal beID) feID))
     else ret tt) in
  if SessionAffinity svc && bool_decide (bwr_State be = BackendStateActive)
  then wrapping (Wrap "upsert affinity match") (upsertAffinityMatch feID beID)
  else wrapping (Wrap "delete affinity match") (deleteAffinityMatch feID beID).

Fixpoint updateBackends (fuel : nat) (feID : Z) (svcKey : ServiceKey)
    (svcVal : ServiceValue) (svc : Service) (i : Z)
    (bes : list BackendWithRevision) : M unit :=
  match bes with
  | [] => ret tt
  | be :: rest =>
      run _ <- updateBackend fuel feID svcKey svcVal svc i be in
      updateBackends fuel feID svcKey svcVal svc (i + 1) rest
  end.

Definition serviceFlags (fe : Frontend) (svcKey : ServiceKey) : SvcFlagParam :=
  let isRoutable :=
    negb (IsSurrogate svcKey) &&
    (bool_decide (Type_ fe ≠ SVCTypeClusterIP) || ExternalClusterIP config) in
  let svc := fe_Service fe in
  mkSvcFlagParam (Type_ fe)
    (bool_decide (ExtTrafficPolicy svc = SVCTrafficPolicyLocal))
    (bool_decide (IntTrafficPolicy svc = SVCTrafficPolicyLocal))
    (NatPolicy svc) (SessionAffinity svc) isRoutable
    (bool_decide (L7ProxyPort svc ≠ 0)) (LoopbackHostPort svc).

Definition backendAddrsOf (bes : list BackendWithRevision) : gset L3n4Addr :=
  list_to_set (bwr_addr <$> bes).

(** Everything [updateFrontend] does before it commits the references. *)
Definition reconcileFrontend (fuel : nat) (fe : Frontend) : M unit :=
  run feID <- wrapping (Wrap "failed to allocate id")
                (acquireServiceID fuel (Address fe)) in
  let svcKey := NewServiceKey (Address fe) in
  let svcVal := zeroServiceValue (IsIPv6 (Address fe)) in
  let svc := fe_Service fe in
  let svcVal := SetRevNat (SetFlags svcVal (serviceFlags fe svcKey)) feID in
  let orderedBackends := sortedBackends (Backends fe) in
  let backendAddrs := backendAddrsOf orderedBackends in
  run orphans <- gets (orphanBackends (Address fe) backendAddrs) in
  run _ <- forM orphans (deleteOrphan feID) in
  run _ <- updateBackends fuel feID svcKey svcVal svc 0 orderedBackends in
  run numPreviousBackends <-
    gets (λ s, Z.of_nat (size (membership s (Address fe)))) in
  run _ <- wrapping (Wrap "upsert reverse nat") (upsertRevNat feID svcKey svcVal) in
  let numActiveBackends := numActive orderedBackends in
  run _ <- wrapping (Wrap "upsert service master")
             (upsertMaster svcKey svcVal fe numActiveBackends) in
  wrapping (Wrap "cleanup service slots")
    (cleanupSlots svcKey numPreviousBackends numActiveBackends).

Definition updateFrontend (fuel : nat) (fe : Frontend) : M unit :=
  run _ <- reconcileFrontend fuel fe in
  modify (updateReferences (Address fe)
            (backendAddrsOf (sortedBackends (Backends fe)))).

(** *** [deleteFrontend] *)

Definition deleteFrontend (fe : Frontend) : M unit :=
  run found <- gets (λ s, lookupLocalID StringID (serviceIDAlloc s) (Address fe)) in
  match found with
  | Fail _ => ret tt
  | Ok feID =>
      run refs <- gets (λ s, rangeSet (membership s (Address fe))) in
      run _ <- forM refs
        (λ a, run beID <- gets (λ s, id (stateOf (backendStates s) a)) in
              wrapping (Wrap "delete affinity match %d")
                (deleteAffinityMatch feID beID)) in
      run orphans <- gets (orphanBackends (Address fe) ∅) in
      run _ <- forM orphans
        (λ orphanState,
           run _ <- wrapping (Wrap "delete backend %d")
                      (deleteBackend (IsIPv6 (addr orphanState)) (id orphanState)) in
           modify (releaseBackend (id orphanState) (addr orphanState))) in
      let svcKey := NewServiceKey (Address fe) in
      let revNatKey := NewRevNatKey (IsIPv6 (Address fe)) (uint16 feID) in
      run numBackends <-
        gets (λ s, Z.of_nat (size (membership s (Address fe)))) in
      run _ <- forM (seqZ 0 (numBackends + 1))
        (λ i, run err <- call (DeleteService (SetBackendSlot svcKey i)) in
              check (Wrap "delete from services map") err) in
      run err <- call (DeleteRevNat revNatKey) in
      run _ <- check (Wrap "delete reverse nat %d") err in
      modify (λ s,
        let s := updateBackendRefCounts (Address fe) ∅ s in
        let s := set_backendReferences s (delete (Address fe) (backendReferences s)) in
        set_serviceIDAlloc s (deleteLocalID StringID (serviceIDAlloc s) feID))
  end.

(** *** [Update] and [Delete] with the per-node expansion *)

(** NodePort frontends, and HostPort frontends without a host IP, get an
    entry per node address. *)
Definition expandsPerNode (fe : Frontend) : bool :=
  bool_decide (Type_ fe = SVCTypeNodePort) ||
  (bool_decide (Type_ fe = SVCTypeHostPort) &&
   AddrCluster_IsUnspecified (AddrCluster_ (Address fe))).

(** The first loop of the expansion: [acc] is the frontend variable, which
    each iteration replaces by its clone, and the set [old]. *)
Definition updateNodeAddr (fuel : nat) (acc : Frontend * gset netip.Addr)
    (a : netip.Addr) : M (Frontend * gset netip.Addr) :=
  let '(fe, old) := acc in
  if bool_decide (IsIPv6 (Address fe) ≠ netip.Is6 a) then ret (fe, old)
  else
    let fe := with_AddrCluster fe (AddrClusterFrom a 0) in
    run _ <- updateFrontend fuel fe in
    ret (fe, old ∖ {[a]}).

(** The second loop: frontends of node addresses no longer in use. *)
Definition deleteNodeAddr (fe : Frontend) (a : netip.Addr) : M Frontend :=
  if bool_decide (IsIPv6 (Address fe) ≠ netip.Is6 a) then ret fe
  else
    let fe := with_AddrCluster fe (AddrClusterFrom a 0) in
    run _ <- deleteFrontend fe in
    ret fe.

Definition Update (fuel : nat) (fe : Frontend) : M unit :=
  run _ <- updateFrontend fuel fe in
  if expandsPerNode fe then
    run recorded <- gets (λ s, default [] (nodePortAddrs s !! Port (Address fe))) in
    let old : gset netip.Addr := list_to_set recorded in
    run acc <- foldM (updateNodeAddr fuel) (fe_nodePortAddrs fe) (fe, old) in
    let '(fe1, old) := acc in
    run fe2 <- foldM deleteNodeAddr (rangeSet old) fe1 in
    modify (λ s, set_nodePortAddrs s
              (<[Port (Address fe2) := fe_nodePortAddrs fe2]> (nodePortAddrs s)))
  else ret tt.

(** The loop of [Delete] over the recorded node addresses. *)
Definition deleteRecordedAddr (fe : Frontend) (a : netip.Addr) : M Frontend :=
  let fe := with_AddrCluster fe (AddrClusterFrom a 0) in
  run _ <- deleteFrontend fe in
  ret fe.

Definition Delete (fe : Frontend) : M unit :=
  run _ <- deleteFrontend fe in
  if expandsPerNode fe then
    run recorded <- gets (λ s, nodePortAddrs s !! Port (Address fe)) in
    match recorded with
    | Some addrs =>
        run fe' <- foldM deleteRecordedAddr addrs fe in
        modify (λ s, set_nodePortAddrs s
                  (delete (Port (Address fe')) (nodePortAddrs s)))
    | None => ret tt
    end
  else ret tt.

(** *** Startup adoption and pruning *)

Definition svcKeyToAddr (svcKey : ServiceKey) : L3n4Addr :=
  mkL3n4Addr (mkAddrCluster (sk_ip svcKey) 0) "TCP" (sk_port svcKey)
             (sk_scope svcKey).

Definition beValueToAddr (beValue : BackendValue) : L3n4Addr :=
  mkL3n4Addr (mkAddrCluster (bv_ip beValue) 0) "TCP" (bv_port beValue) 0.

Definition start : M unit :=
  run rows <- gets (λ s, rowsService (dp s)) in
  run _ <- modify (λ s,
    fold_left (λ s '(key, value),
                 let id := sv_RevNat value in
                 let s := set_serviceIDAlloc s
                            (addID StringID (serviceIDAlloc s) (svcKeyToAddr key) id).1 in
                 set_restored s ({[id]} ∪ restoredServiceIDs s) (restoredBackendIDs s))
              rows s) in
  run err <- call DumpService in
  run _ <- check (Wrap "restore service ids") err in
  run rows <- gets (λ s, rowsBackend (dp s)) in
  run _ <- modify (λ s,
    fold_left (λ s '(key, value),
                 let s := set_backendIDAlloc s
                            (addID StringID (backendIDAlloc s) (beValueToAddr value)
                                   (bk_id key)).1 in
                 set_restored s (restoredServiceIDs s) ({[bk_id key]} ∪ restoredBackendIDs s))
              rows s) in
  run err <- call DumpBackend in
  check (Wrap "restore backend ids") err.

(** [cmtypes.AddrClusterFromIP]: fails on an invalid IP. *)
Definition AddrClusterFromIP (ip : netip.Addr) : option AddrCluster :=
  match ip with
  | netip.Zero => None
  | _ => Some (mkAddrCluster ip 0)
  end.

Definition pruneServiceMaps : M unit :=
  let wanted (s : bpfOps) (row : ServiceKey * ServiceValue) : option ServiceKey :=
    match AddrClusterFromIP (sk_ip row.1) with
    | None => None
    | Some ac =>
        let a := mkL3n4Addr ac "TCP" (sk_port row.1) (sk_scope row.1) in
        match backendReferences s !! a with
        | None => Some row.1
        | Some _ => None
        end
    end in
  run rows4 <- gets (λ s, rowsServiceMap false (dp s)) in
  run _ <- call (DumpWithCallbackService false) in
  run rows6 <- gets (λ s, rowsServiceMap true (dp s)) in
  run _ <- call (DumpWithCallbackService true) in
  run toDelete <- gets (λ s, omap (wanted s) (rows4 ++ rows6)) in
  forM toDelete (λ key, run _ <- call (MapDeleteService key) in ret tt).

Definition pruneBackendMaps : M unit :=
  let wanted (s : bpfOps) (row : BackendKey * BackendValue) : option BackendKey :=
    match backendStates s !! beValueToAddr row.2 with
    | None => Some row.1
    | Some _ => None
    end in
  run rows4 <- gets (λ s, rowsBackendMap false (dp s)) in
  run _ <- call (DumpWithCallbackBackend false) in
  run rows6 <- gets (λ s, rowsBackendMap true (dp s)) in
  run _ <- call (DumpWithCallbackBackend true) in
  run toDelete <- gets (λ s, omap (wanted s) (rows4 ++ rows6)) in
  forM toDelete (λ key, run _ <- call (MapDeleteBackend key) in ret tt).

Definition pruneRestoredIDs : M unit :=
  modify (λ s,
    let s :=
      fold_left
        (λ s id,
           match entitiesID (serviceIDAlloc s) !! id with
           | Some a =>
               match backendReferences s !! id_addr a with
               | None => set_serviceIDAlloc s
                           (deleteLocalID StringID (serviceIDAlloc s) id)
               | Some _ => s
               end
           | None => s
           end)
        (rangeSet (restoredServiceIDs s)) s in
    let s :=
      fold_left
        (λ s id,
           match entitiesID (backendIDAlloc s) !! id with
           | Some a =>
               match backendStates s !! id_addr a with
               | None => set_backendIDAlloc s
                           (deleteLocalID StringID (backendIDAlloc s) id)
               | Some _ => s
               end
           | None => s
           end)
        (rangeSet (restoredBackendIDs s)) s in
    set_restored s ∅ ∅).

Definition pruneRevNat : M unit :=
  run rows <- gets (λ s, rowsRevNat (dp s)) in
  run toDelete <- gets (λ s,
    filter (λ key, entitiesID (serviceIDAlloc s) !! rk_key key = None) (rows.*1)) in
  run err <- call DumpRevNat in
  run _ <- check (λ e, e) err in
  forM toDelete (λ key, run _ <- call (DeleteRevNat key) in ret tt).

(** Runs a sweep as an argument of [errors.Join]: its error becomes a
    value, the next argument is evaluated on the state it leaves. *)
Definition sweep (m : M unit) : M (option error) :=
  λ s, match m s with
       | None => None
       | Some (s', Ok _) => Some (s', Ok None)
       | Some (s', Fail e) => Some (s', Ok (Some e))
       end.

Definition Prune : M unit :=
  run e1 <- sweep pruneRestoredIDs in
  run e2 <- sweep pruneServiceMaps in
  run e3 <- sweep pruneBackendMaps in
  run e4 <- sweep pruneRevNat in
  match errors_Join [e1; e2; e3; e4] with
  | None => ret tt
  | Some e => fail e
  end.

End Reconciler.

(** ** Predicates used in the statements *)

Section AllocatorInvariant.

Variable key : L3n4Addr → string.

(** The two maps of an allocator agree, and ID 0 is not stored. *)
Record alloc_inv (al : idAllocator) : Prop := {
  inv_by_id : ∀ i rec, entitiesID al !! i = Some rec →
    id_ID rec = i ∧ entities al !! key (id_addr rec) = Some i;
  inv_by_key : ∀ k i, entities al !! k = Some i →
    ∃ rec, entitiesID al !! i = Some rec ∧ key (id_addr rec) = k;
  inv_unique : ∀ k1 k2 i,
    entities al !! k1 = Some i → entities al !! k2 = Some i → k1 = k2;
  inv_nonzero : entitiesID al !! 0 = None ∧ ∀ k, entities al !! k ≠ Some 0
}.

(** The cursor stays within the bounds given at construction. *)
Definition cursor_ok (al : idAllocator) : Prop :=
  0 < initNextID al ∧ initNextID al < maxID al ∧ maxID al < 2 ^ 32 ∧
  initNextID al <= nextID al <= maxID al.

Definition alloc_ok (al : idAllocator) : Prop := alloc_inv al ∧ cursor_ok al.

(** An adoption that does not disturb an existing registration: the ID is
    not zero, and ID and address are free or already registered to each
    other. *)
Definition adoptable (al : idAllocator) (a : L3n4Addr) (i : Z) : Prop :=
  i ≠ 0 ∧
  (entitiesID al !! i = None ∨
   ∃ rec, entitiesID al !! i = Some rec ∧ key (id_addr rec) = key a) ∧
  (entities al !! key a = None ∨ entities al !! key a = Some i).

End AllocatorInvariant.

(** The bounds of an allocator fit the 32 bits of an ID. *)
Definition bounds_ok (al : idAllocator) : Prop :=
  0 < initNextID al ∧ initNextID al < maxID al ∧ maxID al < 2 ^ 32.

(** Every ID the scan can hand out, from [initNextID] up to [maxID - 1],
    is taken. *)
Definition alloc_full (al : idAllocator) : Prop :=
  ∀ i, initNextID al <= i < maxID al → is_Some (entitiesID al !! i).

(** What [updateBackendRefCounts] does to the record of an address that
    leaves a membership set, and to the record of one that enters. *)
Definition leave_one (o : option backendState) : option backendState :=
  match o with
  | Some st =>
      Some (if bool_decide (1 < refCount st)
            then mkBackendState (addr st) (revision st)
                                (wrap_int (refCount st - 1)) (id st)
            else st)
  | None => None
  end.

Definition enter_one (a : L3n4Addr) (o : option backendState) : backendState :=
  let st := default zeroBackendState o in
  mkBackendState a (revision st) (wrap_int (refCount st + 1)) (id st).

(** ** The sort order as a three-way comparison

    [backendLess] compares the key (state, IP address, port) of two
    backends lexicographically; [netip.Addr.Compare] itself is
    lexicographic in bit length, address bits and zone. *)
Definition lex (c1 c2 : comparison) : comparison :=
  match c1 with Eq => c2 | _ => c1 end.

Record GoodCmp {A : Type} (c : A → A → comparison) : Prop := {
  gc_eq : ∀ a b, c a b = Eq ↔ a = b;
  gc_antisym : ∀ a b, c b a = CompOpp (c a b);
  gc_trans : ∀ a b d, c a b = Lt → c b d = Lt → c a d = Lt
}.

Definition addrKey (ip : netip.Addr) : Z * (N * string) :=
  (netip.BitLen ip, (netip.bits ip, netip.Zone ip)).

Definition lexPair {A B : Type} (ca : A → A → comparison)
    (cb : B → B → comparison) (x y : A * B) : comparison :=
  lex (ca x.1 y.1) (cb x.2 y.2).

Definition addrCmp (a b : netip.Addr) : comparison :=
  lexPair Z.compare (lexPair N.compare String.compare) (addrKey a) (addrKey b).

Definition sortKey (b : BackendWithRevision) : N * (netip.Addr * Z) :=
  (bwr_State b, (ac_addr (AddrCluster_ (bwr_addr b)), Port (bwr_addr b))).

Definition keyCmp : N * (netip.Addr * Z) → N * (netip.Addr * Z) → comparison :=
  lexPair N.compare (lexPair addrCmp Z.compare).

(** The backends in state Active. *)
Definition activeBackends (bes : list BackendWithRevision)
  : list BackendWithRevision :=
  filter (λ be, bwr_State be = BackendStateActive) bes.

(** ** Assertions about runs of the reconciler *)

Section Assertions.

Context {E : Env}.

(** Everything in [bpfOps] but the driver and the log of its calls. *)
Definition bookkeeping (s : bpfOps) :=
  (serviceIDAlloc s, restoredServiceIDs s, backendIDAlloc s,
   restoredBackendIDs s, backendStates s, backendReferences s,
   nodePortAddrs s).

(** Partial correctness: whenever [m] returns from [s], [Q] holds of the
    state it leaves and of its result. *)
Definition wlp {A} (m : M A) (Q : bpfOps → outcome A → Prop) (s : bpfOps) : Prop :=
  ∀ s' r, m s = Some (s', r) → Q s' r.

(** [m] relates every state to the state it leaves behind by [P],
    whether it succeeds or fails. *)
Definition keeps {A} (P : relation bpfOps) (m : M A) : Prop :=
  ∀ s, wlp m (λ s' _, P s s') s.

(** Relations that driver calls cannot break. *)
Class Stable (P : relation bpfOps) : Prop := {
  stable_refl : ∀ s, P s s;
  stable_trans : ∀ s1 s2 s3, P s1 s2 → P s2 s3 → P s1 s3;
  stable_dp : ∀ s d t, P s (set_dp s d t)
}.

(** [m] returns from every state: no scan loop is left unfinished. *)
Definition returns {A} (m : M A) : Prop :=
  ∀ s, ∃ s' r, m s = Some (s', r).

(** The errors among the results of the sweeps, in order. *)
Definition errors_of (rs : list (outcome unit)) : list error :=
  omap (λ r, match r with Fail e => Some e | Ok _ => None end) rs.

(** The membership map is the same in both states. *)
Definition same_refs : relation bpfOps :=
  λ s s', backendReferences s' = backendReferences s.

(** The address holds an ID in the allocator. *)
Definition registered (al : idAllocator) (a : L3n4Addr) : Prop :=
  is_Some (lookup_registered StringID al a).

(** The backend needs nothing more from [updateFrontend]: its recorded
    revision is not older than the desired one, and its ID is recorded or
    at least registered. *)
Definition backend_settled (s : bpfOps) (be : BackendWithRevision) : Prop :=
  Revision be <= revision (stateOf (backendStates s) (bwr_addr be)) ∧
  ((∃ st, backendStates s !! bwr_addr be = Some st ∧ id st ≠ 0) ∨
   registered (backendIDAlloc s) (bwr_addr be)).

(** The ID that [updateFrontend] uses for a backend: the recorded one if
    it is not 0, otherwise one registered in the allocator. *)
Definition id_known (s : bpfOps) (a : L3n4Addr) (beID : Z) : Prop :=
  (∃ st, backendStates s !! a = Some st ∧ id st ≠ 0 ∧ beID = id st) ∨
  ((∀ st, backendStates s !! a = Some st → id st = 0) ∧
   registered (backendIDAlloc s) a).

(** Only the driver and its log differ. *)
Definition same_book : relation bpfOps :=
  λ s s', bookkeeping s' = bookkeeping s.

(** The service allocator is untouched. *)
Definition svc_kept : relation bpfOps :=
  λ s s', serviceIDAlloc s' = serviceIDAlloc s.

(** The service allocator is untouched and settled backends stay
    settled. *)
Definition grows : relation bpfOps :=
  λ s s', serviceIDAlloc s' = serviceIDAlloc s ∧
          ∀ be, backend_settled s be → backend_settled s' be.

(** What a successful [updateFrontend] leaves behind for its frontend. *)
Definition settled (fe : Frontend) (s : bpfOps) : Prop :=
  (∃ rec, lookup_registered StringID (serviceIDAlloc s) (Address fe) = Some rec ∧
          uint16 (id_ID rec) ≠ 0) ∧
  backendReferences s !! Address fe = Some (backendAddrsOf (Backends fe)) ∧
  Forall (backend_settled s) (Backends fe).

(** *** The driver calls of a repeated [Update]

    What [Update] issues for a frontend it has already settled, call by
    call. *)








Definition sameFamily (fe : Frontend) (a : netip.Addr) : bool :=
  bool_decide (netip.Is6 a = IsIPv6 (Address fe)).


(** The recorded node addresses whose frontends the second loop of
    [Update] deletes: those of the family of [fe] that are no longer among
    its node addresses. *)
Definition staleNodeAddrs (fe : Frontend) (s : bpfOps) : list netip.Addr :=
  if expandsPerNode fe
  then filter (λ a, sameFamily fe a = true ∧ a ∉ fe_nodePortAddrs fe)
              (default [] (nodePortAddrs s !! Port (Address fe)))
  else [].

(** The log [t] and the result [r] of issuing the calls [W] in order up to
    the first one that fails: either all of them succeeded and the result
    is a success, or the log ends with the first failed call and the
    result is an error. *)
Definition succeeded (op : dpop) : dpop * option error := (op, None).

Definition replayed {A} (W : list dpop) (t : list (dpop * option error))
    (r : outcome A) : Prop :=
  ((∃ a, r = Ok a) ∧ t = succeeded <$> W) ∨
  (∃ W1 op e W2 e',
     W = W1 ++ op :: W2 ∧
     t = (succeeded <$> W1) ++ [(op, Some e)] ∧
     r = Fail e').

(** [m] returns from [s], changes nothing but the driver, and issues
    exactly the calls [W] up to the first that fails. *)
Definition replays {A} (W : list dpop) (m : M A) (s : bpfOps) : Prop :=
  ∃ s' r t, m s = Some (s', r) ∧ bookkeeping s' = bookkeeping s ∧
            trace s' = trace s ++ t ∧ replayed W t r.

(** The recorded node addresses are untouched and every registered
    service keeps its ID. *)
Definition carried : relation bpfOps :=
  λ s s', nodePortAddrs s' = nodePortAddrs s ∧
          ∀ a rec, lookup_registered StringID (serviceIDAlloc s) a = Some rec →
                   lookup_registered StringID (serviceIDAlloc s') a = Some rec.



(** The recorded node addresses are untouched. *)
Definition np_kept : relation bpfOps :=
  λ s s', nodePortAddrs s' = nodePortAddrs s.

(** The frontend variable of [Update] keeps its port and its node
    addresses. *)
Definition same_port (fe0 cur : Frontend) : Prop :=
  Port (Address cur) = Port (Address fe0) ∧
  fe_nodePortAddrs cur = fe_nodePortAddrs fe0.

(** The membership map and the service allocator are untouched. *)
Definition fe_kept : relation bpfOps :=
  λ s s', backendReferences s' = backendReferences s ∧
          serviceIDAlloc s' = serviceIDAlloc s.

(** Every run of [m] that ends in an error relates the states by [R]. *)
Definition fails_keeping {A} (R : relation bpfOps) (m : M A) : Prop :=
  ∀ s s' e, m s = Some (s', Fail e) → R s s'.

End Assertions.

(** ** A concrete environment

    A driver that refuses the calls selected by [refuse] and accepts all
    others; its state is the list of calls it accepted.  Sets are ranged
    over in the order of [elements], short slices are sorted by insertion. *)

Definition demoStringID (a : L3n4Addr) : string :=
  match ac_addr (AddrCluster_ a) with
  | netip.Zero => "-"
  | netip.V4 n => "4/" +:+ pretty n
  | netip.V6 n z => "6/" +:+ pretty n +:+ "%" +:+ z
  end +:+ "@" +:+ pretty (ac_clusterID (AddrCluster_ a))
  +:+ ":" +:+ pretty (Port a) +:+ "/" +:+ Protocol a +:+ "/" +:+ pretty (Scope a).

Definition demoNewBackendV3 (v6 : bool) (id : Z) (be : Backend)
  : outcome (BackendKey * BackendValue) :=
  Ok (mkBackendKey v6 id,
      mkBackendValue (ac_addr (AddrCluster_ (be_L3n4Addr be)))
                     (Port (be_L3n4Addr be)) (be_State be) (be_ZoneID be)).

Definition demoEnv (affinity : bool) (refuse : dpop → bool) : Env := {|
  StringID := demoStringID;
  IsSurrogate := λ k, netip.IsUnspecified (sk_ip k);
  config := mkConfig affinity false;
  NewBackendV3 := demoNewBackendV3;
  lbmaps := list dpop;
  exec := λ op d, if refuse op then (d, Some (Errno 1)) else (d ++ [op], None);
  rowsService := λ _, [];
  rowsBackend := λ _, [];
  rowsRevNat := λ _, [];
  rowsServiceMap := λ _ _, [];
  rowsBackendMap := λ _ _, [];
  rangeSet := λ K _ _ s, elements s;
  sort_Slice := λ A less l, insertionSort less l
|}.

Definition acceptAll (op : dpop) : bool := false.

Definition v4 (n : N) (port : Z) (proto : string) : L3n4Addr :=
  mkL3n4Addr (mkAddrCluster (netip.V4 n) 0) proto port 0.
Definition v6 (n : N) (port : Z) (proto : string) : L3n4Addr :=
  mkL3n4Addr (mkAddrCluster (netip.V6 n "") 0) proto port 0.

Definition activeBackend (a : L3n4Addr) (rev : Z) : BackendWithRevision :=
  mkBackendWithRevision (mkBackend a BackendStateActive 0) rev.

Definition plainService : Service :=
  mkService SVCTrafficPolicyCluster SVCTrafficPolicyCluster "" false 0 0 false.

(** The state a run leaves behind ([d] if it did not finish) and its
    result. *)
Definition state_of {S A : Type} (d : S) (r : option (S * A)) : S :=
  match r with
  | Some (s, _) => s
  | None => d
  end.

Definition result_of {S A : Type} (r : option (S * A)) : option A :=
  match r with
  | Some (_, a) => Some a
  | None => None
  end.

(** The names of the driver calls logged after the first [n]. *)
Definition op_name (op : dpop) : string :=
  match op with
  | UpdateService _ _ => "UpdateService"
  | DeleteService _ => "DeleteService"
  | SilentDeleteService _ => "SilentDeleteService"
  | MapDeleteService _ => "MapDeleteService"
  | UpdateBackend _ _ => "UpdateBackend"
  | SilentDeleteBackend _ => "SilentDeleteBackend"
  | MapDeleteBackend _ => "MapDeleteBackend"
  | UpdateRevNat _ _ => "UpdateRevNat"
  | DeleteRevNat _ => "DeleteRevNat"
  | UpdateAffinityMatch _ => "UpdateAffinityMatch"
  | SilentDeleteAffinityMatch _ => "SilentDeleteAffinityMatch"
  | DumpService => "DumpService"
  | DumpBackend => "DumpBackend"
  | DumpRevNat => "DumpRevNat"
  | DumpWithCallbackService _ => "DumpWithCallbackService"
  | DumpWithCallbackBackend _ => "DumpWithCallbackBackend"
  end.

(** The driver calls logged in [s'] after those of [s]. *)
Definition calls_since {E : Env} (s s' : @bpfOps E) : list dpop :=
  (drop (length (trace s)) (trace s')).*1.

(** The IP family of the service or reverse NAT entry a driver call
    addresses. *)
Definition entry_family (op : dpop) : option bool :=
  match op with
  | UpdateService k _ | DeleteService k | SilentDeleteService k
  | MapDeleteService k => Some (sk_v6 k)
  | UpdateRevNat k _ | DeleteRevNat k => Some (rk_v6 k)
  | _ => None
  end.

(** [op] deletes the service entry of address [a] in slot [slot]. *)
Definition deletes_service (a : L3n4Addr) (slot : Z) (op : dpop) : bool :=
  match op with
  | DeleteService k =>
      bool_decide (sk_v6 k = IsIPv6 a) &&
      bool_decide (sk_ip k = ac_addr (AddrCluster_ a)) &&
      bool_decide (sk_port k = Port a) &&
      bool_decide (sk_scope k = Scope a) &&
      bool_decide (sk_slot k = slot)
  | _ => false
  end.

(** The allocator with bounds 1 and 3 after one and after two
    acquisitions. *)
Abbreviation alloc13_one :=
  (state_of (newIDAllocator 1 3)
     (acquireLocalID demoStringID 4 (newIDAllocator 1 3) (v4 1 80 "TCP") 0)).

Abbreviation alloc13_two :=
  (state_of alloc13_one
     (acquireLocalID demoStringID 4 alloc13_one (v4 2 80 "TCP") 0)).

(** The environment in which every driver call succeeds, a ClusterIP
    frontend with an active and a terminating backend, and the states after
    its first and its second [Update]. *)
Definition demoE : Env := demoEnv false acceptAll.

Definition demoBackend1 : L3n4Addr := v4 1 8080 "TCP".
Definition demoBackend2 : L3n4Addr := v4 2 8080 "TCP".

Definition demoFrontend : Frontend :=
  mkFrontend (v4 100 80 "TCP") SVCTypeClusterIP
    [activeBackend demoBackend1 1;
     mkBackendWithRevision (mkBackend demoBackend2 1%N 0) 1]
    [] plainService.

Definition demoState0 : @bpfOps demoE := @newBPFOps demoE [].

Abbreviation demoState1 :=
  (state_of demoState0 (@Update demoE 4 demoFrontend demoState0)).

Abbreviation demoState2 :=
  (state_of demoState1 (@Update demoE 4 demoFrontend demoState1)).

(** An environment whose driver refuses to write the backend with ID 2: a
    frontend reconciled with one backend, then again with a second one. *)
Definition refuseSecondBackend (op : dpop) : bool :=
  match op with
  | UpdateBackend k _ => bool_decide (bk_id k = 2)
  | _ => false
  end.

Definition failE : Env := demoEnv false refuseSecondBackend.

Definition oneBackend : Frontend :=
  mkFrontend (v4 100 80 "TCP") SVCTypeClusterIP
    [activeBackend demoBackend1 1] [] plainService.

Definition twoBackends : Frontend :=
  mkFrontend (v4 100 80 "TCP") SVCTypeClusterIP
    [activeBackend demoBackend1 1; activeBackend demoBackend2 1] [] plainService.

Definition failState0 : @bpfOps failE := @newBPFOps failE [].

Abbreviation failState1 :=
  (state_of failState0 (@Update failE 4 oneBackend failState0)).

Abbreviation failState2 :=
  (state_of failState1 (@updateFrontend failE 4 twoBackends failState1)).

(** The error of that second run: the refusal of the driver, wrapped. *)
Definition failError : error := Wrap "upsert backend" (Errno 1).

(** A dual-stack NodePort service on a node with an IPv4 and an IPv6
    address: one frontend per family, both for port 30000. *)
Definition nodeAddrs : list netip.Addr := [netip.V4 10; netip.V6 11 ""].

Definition nodePort6 : Frontend :=
  mkFrontend (v6 0 30000 "TCP") SVCTypeNodePort
    [activeBackend (v6 7 8080 "TCP") 1] nodeAddrs plainService.

Definition nodePort4 : Frontend :=
  mkFrontend (v4 0 30000 "TCP") SVCTypeNodePort
    [activeBackend (v4 1 8080 "TCP") 1] nodeAddrs plainService.

Abbreviation dualStackState :=
  (state_of demoState0
     (@Update demoE 4 nodePort4
        (state_of demoState0 (@Update demoE 4 nodePort6 demoState0)))).

Abbreviation afterDelete4 :=
  (state_of dualStackState (@Delete demoE nodePort4 dualStackState)).

(** A NodePort frontend whose own address is a node address, first with
    that node address and then without it, and the states after each
    [Update]. *)
Definition ownNodeAddr : Frontend :=
  mkFrontend (v4 10 30000 "TCP") SVCTypeNodePort
    [activeBackend (v4 1 8080 "TCP") 1] [netip.V4 10] plainService.

Definition ownNodeAddrGone : Frontend :=
  mkFrontend (v4 10 30000 "TCP") SVCTypeNodePort
    [activeBackend (v4 1 8080 "TCP") 1] [] plainService.

Abbreviation staleState0 :=
  (state_of demoState0 (@Update demoE 4 ownNodeAddr demoState0)).

Abbreviation staleState1 :=
  (state_of staleState0 (@Update demoE 4 ownNodeAddrGone staleState0)).

Abbreviation staleState2 :=
  (state_of staleState1 (@Update demoE 4 ownNodeAddrGone staleState1)).

(** The allocator with bounds 1 and 3 whose IDs 1 and 2 were adopted with
    [addID], as [start] adopts the IDs found in the tables, and the one in
    which ID 1 was released after two acquisitions. *)
Definition alloc13_adopted : idAllocator :=
  (addID demoStringID
     (addID demoStringID (newIDAllocator 1 3) (v4 1 80 "TCP") 1).1
     (v4 2 80 "TCP") 2).1.

Abbreviation alloc13_released :=
  (deleteLocalID demoStringID alloc13_two 1).

(** An environment whose driver refuses to delete reverse NAT entries, and
    the states after an [Update] and after the [deleteFrontend] that then
    fails. *)
Definition refuseDeleteRevNat (op : dpop) : bool :=
  match op with
  | DeleteRevNat _ => true
  | _ => false
  end.

Definition delFailE : Env := demoEnv false refuseDeleteRevNat.

Definition delFailState0 : @bpfOps delFailE := @newBPFOps delFailE [].

Abbreviation delFailState1 :=
  (state_of delFailState0 (@Update delFailE 4 oneBackend delFailState0)).

Abbreviation delFailState2 :=
  (state_of delFailState1 (@deleteFrontend delFailE oneBackend delFailState1)).

(** The state in which only the service ID of the demo frontend is
    registered, and the state after that frontend is deleted. *)
Abbreviation registeredState :=
  (state_of demoState0
     (@acquireServiceID demoE 4 (Address demoFrontend) demoState0)).

Abbreviation unregisteredState :=
  (state_of registeredState (@deleteFrontend demoE demoFrontend registeredState)).

(** * Properties *)

(** ** Machine arithmetic *)

Lemma wrap_int_small x : - 2 ^ 63 <= x < 2 ^ 63 → wrap_int x = x.
Proof.
  intros Hx. unfold wrap_int.
  rewrite Z.mod_small by lia. lia.
Qed.

Lemma wrap32_small x : 0 <= x < 2 ^ 32 → wrap32 x = x.
Proof. intros Hx. unfold wrap32. by rewrite Z.mod_small. Qed.

(** ** Runs on concrete inputs *)

Lemma run_eq {S A : Type} (d : S) (r : option (S * A)) (a : A) :
  result_of r = Some a → r = Some (state_of d r, a).
Proof. destruct r as [[s a']|]; simpl; [by intros [= ->] | done]. Qed.

(** ** The identifier allocator *)

Section AllocatorFacts.

Variable key : L3n4Addr → string.

Lemma lookup_registered_addID al a i :
  lookup_registered key (addID key al a i).1 a = Some (newID a i).
Proof.
  unfold lookup_registered, addID. simpl.
  rewrite lookup_insert_eq. by rewrite lookup_insert_eq.
Qed.

(** C6: an ID adopted with [addID] is the one a later
    [acquireLocalID] of the same address returns, whatever else the
    allocator holds and however much fuel the scan is given; the allocator
    is left as it was. *)
Theorem acquire_after_addID (fuel : nat) (al : idAllocator) (a : L3n4Addr) (i : Z) :
  acquireLocalID key fuel (addID key al a i).1 a 0
  = Some ((addID key al a i).1, Ok i).
Proof.
  unfold acquireLocalID. by rewrite lookup_registered_addID.
Qed.

(** More fuel does not change the result of a scan that finished. *)
Lemma acquire_scan_mono n k svc start roll al r :
  acquire_scan key n svc start roll al = Some r →
  acquire_scan key (n + k) svc start roll al = Some r.
Proof.
  revert roll al. induction n as [|n IH]; intros roll al; [done|].
  simpl. destruct (bool_decide (nextID al = start) && roll); [done|].
  destruct (bool_decide (nextID al = maxID al));
    (destruct (entitiesID _ !! _); [apply IH | done]).
Qed.

Lemma acquireLocalID_mono n k al svc d r :
  acquireLocalID key n al svc d = Some r →
  acquireLocalID key (n + k) al svc d = Some r.
Proof.
  unfold acquireLocalID.
  destruct (lookup_registered key al svc); [done|].
  destruct (bool_decide (d ≠ 0)); [done|].
  apply acquire_scan_mono.
Qed.

(** The scan never hands out [maxID]: when the cursor reaches it, the
    cursor is reset before the slot is looked at. *)
Lemma acquire_scan_not_max n svc start roll al al' i :
  initNextID al ≠ maxID al →
  acquire_scan key n svc start roll al = Some (al', Ok i) →
  i ≠ maxID al.
Proof.
  revert roll al. induction n as [|n IH]; intros roll al Hne; [done|].
  simpl. destruct (bool_decide (nextID al = start) && roll); [done|].
  case_bool_decide as Hmax.
  - simpl. destruct (entitiesID al !! initNextID al) eqn:Hl.
    + intros H. by apply IH in H.
    + intros [= <- <-]. done.
  - destruct (entitiesID al !! nextID al) eqn:Hl.
    + intros H. by apply IH in H.
    + simpl. intros [= <- <-]. done.
Qed.

(** X4: an ID that [acquireLocalID] allocates for an address that was not
    registered, with no desired ID, is never [maxID], whatever the
    allocator holds: the scan resets the cursor when it reaches [maxID]
    and looks at no slot before that. *)
Lemma acquireLocalID_fresh_not_max n al svc al' i :
  lookup_registered key al svc = None →
  initNextID al ≠ maxID al →
  acquireLocalID key n al svc 0 = Some (al', Ok i) →
  i ≠ maxID al.
Proof.
  intros Hreg Hne. unfold acquireLocalID. rewrite Hreg.
  rewrite bool_decide_false by (intros H; by apply H).
  by apply acquire_scan_not_max.
Qed.

(** *** The allocator invariant *)

Lemma alloc_inv_not_registered al a :
  alloc_inv key al → lookup_registered key al a = None →
  entities al !! key a = None.
Proof.
  intros Hinv. unfold lookup_registered.
  destruct (entities al !! key a) as [i|] eqn:Hk; [|done].
  destruct (inv_by_key _ _ Hinv _ _ Hk) as (rec & -> & _). done.
Qed.

Lemma alloc_inv_set_nextID al n :
  alloc_inv key al → alloc_inv key (set_nextID al n).
Proof. intros [? ? ? ?]. by split. Qed.

Lemma alloc_inv_addID al a i :
  alloc_inv key al → adoptable key al a i →
  alloc_inv key (addID key al a i).1.
Proof.
  intros Hinv (Hnz & Hid & Hkey).
  assert (Hcases :
    (entitiesID al !! i = None ∧ entities al !! key a = None) ∨
    (∃ rec, entitiesID al !! i = Some rec ∧ key (id_addr rec) = key a
            ∧ entities al !! key a = Some i)).
  { destruct Hid as [Hid | (rec & Hid & Hk)].
    - left. split; [done|].
      destruct Hkey as [|Hkey]; [done|].
      destruct (inv_by_key _ _ Hinv _ _ Hkey) as (rec & Hrec & _). congruence.
    - right. exists rec. split_and!; [done..|].
      destruct (inv_by_id _ _ Hinv _ _ Hid) as [_ H]. congruence. }
  assert (Hother : ∀ k j, k ≠ key a → entities al !! k = Some j → j ≠ i).
  { intros k j Hk Hj ->.
    destruct Hcases as [[Hnone _] | (rec & Hrec & Hka & Hki)].
    - destruct (inv_by_key _ _ Hinv _ _ Hj) as (rec & Hrec & _). congruence.
    - apply Hk. by eapply (inv_unique _ _ Hinv). }
  split; simpl.
  - intros j rec. rewrite lookup_insert. case_decide as Hj.
    + intros [= <-]. subst j. simpl. by rewrite lookup_insert_eq.
    + intros Hrec. destruct (inv_by_id _ _ Hinv _ _ Hrec) as [Hid' Hent].
      split; [done|]. rewrite lookup_insert_ne; [done|].
      intros Heq. rewrite <- Heq in Hent.
      destruct Hcases as [[_ Hnone] | (rec' & _ & _ & Hki)]; congruence.
  - intros k j. rewrite lookup_insert. case_decide as Hk.
    + intros [= <-]. subst k. exists (newID a i). by rewrite lookup_insert_eq.
    + intros Hj. pose proof (Hother _ _ (not_eq_sym Hk) Hj) as Hji.
      rewrite lookup_insert_ne by done. by eapply (inv_by_key _ _ Hinv).
  - intros k1 k2 j. rewrite !lookup_insert.
    repeat case_decide; subst; try done.
    + intros [= <-] Hj. exfalso. by eapply (Hother k2 i).
    + intros Hj [= <-]. exfalso. by eapply (Hother k1 i).
    + by apply (inv_unique _ _ Hinv).
  - destruct (inv_nonzero _ _ Hinv) as [Hz1 Hz2]. split.
    + by rewrite lookup_insert_ne.
    + intros k. rewrite lookup_insert. case_decide; [congruence | apply Hz2].
Qed.

Lemma alloc_inv_deleteLocalID al i :
  alloc_inv key al → alloc_inv key (deleteLocalID key al i).
Proof.
  intros Hinv. unfold deleteLocalID.
  destruct (entitiesID al !! i) as [rec|] eqn:Hrec; [|done].
  destruct (inv_by_id _ _ Hinv _ _ Hrec) as [_ Hent].
  split; simpl.
  - intros j rec'. rewrite lookup_delete. case_decide; [done|].
    intros Hrec'. destruct (inv_by_id _ _ Hinv _ _ Hrec') as [? Hent'].
    split; [done|]. rewrite lookup_delete_ne; [done|].
    intros Heq. rewrite Heq in Hent. congruence.
  - intros k j. rewrite lookup_delete. case_decide as Hk; [done|].
    intros Hj. destruct (inv_by_key _ _ Hinv _ _ Hj) as (rec' & Hrec' & Hk').
    exists rec'. split; [|done]. rewrite lookup_delete_ne; [done|].
    intros <-. apply Hk. by eapply (inv_unique _ _ Hinv).
  - intros k1 k2 j. rewrite !lookup_delete.
    repeat case_decide; try done. by apply (inv_unique _ _ Hinv).
  - destruct (inv_nonzero _ _ Hinv) as [Hz1 Hz2]. split.
    + rewrite lookup_delete. by case_decide.
    + intros k. rewrite lookup_delete. case_decide; [done | apply Hz2].
Qed.

Lemma alloc_ok_acquire_scan n svc start roll al al' r :
  alloc_ok key al → entities al !! key svc = None →
  acquire_scan key n svc start roll al = Some (al', r) →
  alloc_ok key al'.
Proof.
  revert roll al. induction n as [|n IH]; intros roll al [Hinv Hcur] Hfree; [done|].
  simpl. destruct (bool_decide (nextID al = start) && roll).
  { intros [= <- <-]. by split. }
  destruct Hcur as (Hi & Him & Hm & Hn).
  set (al1 := if bool_decide (nextID al = maxID al)
              then (set_nextID al (initNextID al), true) else (al, roll)).
  assert (H1 : alloc_inv key al1.1 ∧ entities al1.1 = entities al ∧
               entitiesID al1.1 = entitiesID al ∧
               maxID al1.1 = maxID al ∧ initNextID al1.1 = initNextID al ∧
               initNextID al <= nextID al1.1 < maxID al).
  { unfold al1. case_bool_decide; simpl; split_and!; try done; try lia.
    by apply alloc_inv_set_nextID. }
  destruct al1 as [al1 roll1]. simpl in H1.
  destruct H1 as (Hinv1 & He & Hd & Hmx & Hin & Hrange).
  destruct (entitiesID al1 !! nextID al1) eqn:Hl.
  - apply IH.
    + split; [by apply alloc_inv_set_nextID|].
      unfold cursor_ok. simpl. rewrite Hmx, Hin.
      rewrite wrap32_small by lia. lia.
    + simpl. by rewrite He.
  - simpl. intros [= <- <-]. split.
    + apply alloc_inv_set_nextID.
      apply (alloc_inv_addID al1 svc (nextID al1)); [done|].
      split; [lia|]. split; [by left|]. left. by rewrite He.
    + unfold cursor_ok. simpl. rewrite Hmx, Hin.
      rewrite wrap32_small by lia. lia.
Qed.

Lemma alloc_ok_acquireLocalID n al svc d al' r :
  alloc_ok key al → d <= maxID al →
  acquireLocalID key n al svc d = Some (al', r) →
  alloc_ok key al'.
Proof.
  intros [Hinv Hcur] Hd. unfold acquireLocalID.
  destruct (lookup_registered key al svc) eqn:Hreg.
  { intros [= <- <-]. by split. }
  pose proof (alloc_inv_not_registered _ _ Hinv Hreg) as Hfree.
  case_bool_decide as Hnz.
  - destruct (entitiesID al !! d) eqn:Hl.
    { intros [= <- <-]. by split. }
    simpl. intros [= <- <-].
    destruct Hcur as (Hi & Him & Hm & Hn).
    case_bool_decide; (split; [|unfold cursor_ok; simpl; lia]).
    + apply (alloc_inv_addID (set_nextID al d) svc d).
      * by apply alloc_inv_set_nextID.
      * split; [done|]. split; by left.
    + apply alloc_inv_addID; [done|]. split; [done|]. split; by left.
  - by apply alloc_ok_acquire_scan.
Qed.

Lemma alloc_ok_new (first last : Z) :
  0 < first → first < last → last < 2 ^ 32 →
  alloc_ok key (newIDAllocator first last).
Proof.
  intros. split; [|unfold cursor_ok; simpl; lia].
  split; simpl; done.
Qed.

(** C9 (amended): from an allocator whose maps agree, hold no ID 0 and
    whose cursor lies within its bounds, [acquireLocalID] with a desired
    ID up to [maxID] (0 in every call of the reconciler) and [deleteLocalID]
    lead to such an allocator again; [addID] does so when the adopted ID is
    not 0 and ID and address are free or already registered to each
    other. *)
Theorem allocator_invariant_preserved (al : idAllocator) :
  alloc_ok key al →
  (∀ fuel svc d al' r,
      d <= maxID al →
      acquireLocalID key fuel al svc d = Some (al', r) → alloc_ok key al') ∧
  (∀ i, alloc_ok key (deleteLocalID key al i)) ∧
  (∀ a i, adoptable key al a i → alloc_ok key (addID key al a i).1).
Proof.
  intros Hok. split_and!.
  - intros fuel svc d al' r Hd Hacq. by eapply alloc_ok_acquireLocalID.
  - intros i. destruct Hok as [Hinv Hcur]. split.
    + by apply alloc_inv_deleteLocalID.
    + unfold deleteLocalID. by destruct (entitiesID al !! i).
  - intros a i Had. destruct Hok as [Hinv Hcur]. split.
    + by apply alloc_inv_addID.
    + done.
Qed.

End AllocatorFacts.

(** *** The allocator on concrete inputs *)

Lemma allocator_invariant_preserved_witness :
  let al := newIDAllocator 1 0xFFFF in
  alloc_ok demoStringID (addID demoStringID al (v4 1 80 "TCP") 7).1 ∧
  alloc_ok demoStringID (deleteLocalID demoStringID al 7) ∧
  alloc_ok demoStringID
    (addID demoStringID (set_nextID al 2) (v4 1 80 "TCP") 1).1.
Proof.
  intros al.
  assert (Hok : alloc_ok demoStringID al) by (apply alloc_ok_new; lia).
  destruct (allocator_invariant_preserved demoStringID al Hok)
    as (Hacq & Hdel & Hadd).
  split_and!.
  - apply Hadd. split; [lia|]. split; left; reflexivity.
  - apply Hdel.
  - apply (Hacq 1%nat (v4 1 80 "TCP") 0 _ (Ok 1)); [simpl; lia | reflexivity].
Defined.

(** C9, as stated, fails for [addID]: adopting an ID that another address
    holds leaves two addresses with the same ID. *)
Lemma addID_breaks_invariant :
  let al := (addID demoStringID (newIDAllocator 1 0xFFFF) (v4 1 80 "TCP") 1).1 in
  alloc_inv demoStringID al ∧
  ¬ alloc_inv demoStringID (addID demoStringID al (v4 2 80 "TCP") 1).1.
Proof.
  split.
  - apply alloc_inv_addID.
    + apply alloc_ok_new; lia.
    + split; [lia|]. split; left; reflexivity.
  - intros Hinv.
    pose proof (inv_unique _ _ Hinv (demoStringID (v4 1 80 "TCP"))
                  (demoStringID (v4 2 80 "TCP")) 1) as Hu.
    assert (Hne : demoStringID (v4 1 80 "TCP") ≠ demoStringID (v4 2 80 "TCP"))
      by (vm_compute; discriminate).
    apply Hne, Hu; vm_compute; reflexivity.
Qed.

(** C2 on the allocator with bounds 1 and 3, which should hold three IDs:
    the first two addresses get 1 and 2, the third is refused although ID 3
    was never handed out. *)
Theorem acquire_third_of_three_fails (n : nat) :
  acquireLocalID demoStringID (4 + n) (newIDAllocator 1 3) (v4 1 80 "TCP") 0
  = Some (alloc13_one, Ok 1) ∧
  acquireLocalID demoStringID (4 + n) alloc13_one (v4 2 80 "TCP") 0
  = Some (alloc13_two, Ok 2) ∧
  entitiesID alloc13_two !! 3 = None ∧
  ∃ al, acquireLocalID demoStringID (4 + n) alloc13_two (v4 3 80 "TCP") 0
        = Some (al, Fail (Errorf "no service ID available" [])).
Proof.
  split_and!.
  - apply acquireLocalID_mono, run_eq. vm_compute. reflexivity.
  - apply acquireLocalID_mono, run_eq. vm_compute. reflexivity.
  - vm_compute. reflexivity.
  - eexists. apply acquireLocalID_mono, (run_eq alloc13_two).
    vm_compute. reflexivity.
Qed.

(** Once the allocator is full, a released ID is handed out again. *)
Lemma acquire_after_release_reuses (n : nat) :
  ∃ al3,
    acquireLocalID demoStringID (4 + n)
      (deleteLocalID demoStringID alloc13_two 1) (v4 3 80 "TCP") 0
    = Some (al3, Ok 1).
Proof.
  eexists. apply acquireLocalID_mono, (run_eq alloc13_two).
  vm_compute. reflexivity.
Qed.

(** ** The backend registry *)

Section RegistryFacts.

Context {E : Env} {HE : EnvOK E}.

Lemma elem_of_rangeSet `{Countable K} (s : gset K) (x : K) :
  x ∈ rangeSet s ↔ x ∈ s.
Proof. rewrite (rangeSet_perm K s). apply elem_of_elements. Qed.

Lemma NoDup_rangeSet `{Countable K} (s : gset K) : NoDup (rangeSet s).
Proof. rewrite (rangeSet_perm K s). apply NoDup_elements. Qed.

Lemma rangeSet_empty `{Countable K} : rangeSet (∅ : gset K) = [].
Proof.
  apply Permutation_nil_r. rewrite (rangeSet_perm K ∅).
  by rewrite elements_empty.
Qed.

Lemma membership_lookup s f refs :
  backendReferences s !! f = Some refs → membership s f = refs.
Proof. unfold membership. by intros ->. Qed.

(** *** Orphans *)

Lemma orphan_fold_spec (states : gmap L3n4Addr backendState)
    (backends : gset L3n4Addr) (l : list L3n4Addr) (acc : list backendState)
    (st : backendState) :
  (st ∈ fold_left
          (λ orphans a,
             if bool_decide (a ∈ backends) then orphans
             else match states !! a with
                  | Some state =>
                      if bool_decide (refCount state <= 1)
                      then orphans ++ [state] else orphans
                  | None => orphans
                  end) l acc)
  ↔ (st ∈ acc ∨
     (∃ a, a ∈ l ∧ (a ∉ backends) ∧ states !! a = Some st ∧ refCount st <= 1)).
Proof.
  revert acc. induction l as [|a l IH]; intros acc; simpl.
  { split; [by left|]. intros [?|(a & Ha & _)]; [done|]. by apply elem_of_nil in Ha. }
  rewrite IH. clear IH. split.
  - intros [Hacc | (b & Hb & Hrest)].
    + case_bool_decide as Hin; [by left|].
      destruct (states !! a) as [state|] eqn:Hst; [|by left].
      case_bool_decide as Hrc; [|by left].
      apply elem_of_app in Hacc as [?|Hs]; [by left|].
      apply list_elem_of_singleton in Hs as ->.
      right. exists a. split_and!; [left|..]; done.
    + right. exists b. split; [by right | done].
  - intros [Hacc | (b & Hb & Hnin & Hst & Hrc)].
    + left. case_bool_decide; [done|].
      destruct (states !! a); [|done].
      case_bool_decide; [|done]. apply elem_of_app. by left.
    + apply elem_of_cons in Hb as [->|Hb].
      * left. rewrite bool_decide_false by done. rewrite Hst.
        rewrite bool_decide_true by done.
        apply elem_of_app. right. by apply list_elem_of_singleton.
      * right. exists b. done.
Qed.


(** *** Reference counts *)

Lemma fold_leave_spec (l : list L3n4Addr) :
  NoDup l →
  ∀ (newRefs : gset L3n4Addr) (states : gmap L3n4Addr backendState),
    (fold_left refcount_leave l (newRefs, states)).1
      = newRefs ∖ list_to_set l ∧
    ∀ a, (fold_left refcount_leave l (newRefs, states)).2 !! a
         = if bool_decide (a ∈ l ∧ (a ∉ newRefs))
           then leave_one (states !! a) else states !! a.
Proof.
  induction 1 as [|x l Hx Hnd IH]; intros newRefs states.
  { cbn [fold_left fst snd]. split; [set_solver|]. intros a.
    rewrite bool_decide_false; [done|]. intros [Ha _]. by apply elem_of_nil in Ha. }
  cbn [fold_left].
  set (acc := refcount_leave (newRefs, states) x).
  destruct (IH acc.1 acc.2) as [IH1 IH2].
  rewrite <- surjective_pairing in IH1, IH2.
  assert (Hacc1 : acc.1 = newRefs ∖ {[x]}).
  { unfold acc, refcount_leave. case_bool_decide; simpl; [done|].
    destruct (states !! x); [case_bool_decide|]; simpl; set_solver. }
  assert (Hacc2 : ∀ a, acc.2 !! a =
            if bool_decide (a = x ∧ (a ∉ newRefs))
            then leave_one (states !! a) else states !! a).
  { intros a. unfold acc, refcount_leave. case_bool_decide as Hin; simpl.
    - rewrite bool_decide_false; [done|]. by intros [-> ?].
    - destruct (states !! x) as [st|] eqn:Hst.
      + case_bool_decide as Hrc; simpl.
        * rewrite lookup_insert. case_decide as Hax.
          -- subst a. rewrite bool_decide_true by done. rewrite Hst. simpl.
             by rewrite bool_decide_true.
          -- rewrite bool_decide_false; [done|]. by intros [-> _].
        * case_bool_decide as Hax; [|done]. destruct Hax as [-> _].
          rewrite Hst. simpl. by rewrite bool_decide_false.
      + simpl. case_bool_decide as Hax; [|done]. destruct Hax as [-> _].
        by rewrite Hst. }
  split.
  - rewrite IH1, Hacc1. set_solver.
  - intros a. rewrite IH2, Hacc2, Hacc1.
    destruct (decide (a = x)) as [->|Hne].
    + rewrite (bool_decide_false (x ∈ l ∧ (x ∉ newRefs ∖ {[x]})))
        by (by intros [? _]).
      by rewrite (bool_decide_ext (x = x ∧ (x ∉ newRefs))
                    (x ∈ x :: l ∧ (x ∉ newRefs))) by set_solver.
    + rewrite (bool_decide_false (a = x ∧ (a ∉ newRefs)))
        by (by intros [? _]).
      by rewrite (bool_decide_ext (a ∈ l ∧ (a ∉ newRefs ∖ {[x]}))
                    (a ∈ x :: l ∧ (a ∉ newRefs))) by set_solver.
Qed.

Lemma fold_enter_spec (l : list L3n4Addr) :
  NoDup l →
  ∀ (states : gmap L3n4Addr backendState) a,
    fold_left refcount_enter l states !! a
    = if bool_decide (a ∈ l) then Some (enter_one a (states !! a))
      else states !! a.
Proof.
  induction 1 as [|x l Hx Hnd IH]; intros states a.
  { cbn [fold_left]. rewrite bool_decide_false; [done|]. apply not_elem_of_nil. }
  cbn [fold_left]. rewrite IH. unfold refcount_enter at 1 2. unfold stateOf.
  destruct (decide (a = x)) as [->|Hne].
  - rewrite (bool_decide_false (x ∈ l)) by done.
    rewrite bool_decide_true by (by left). by rewrite lookup_insert_eq.
  - rewrite lookup_insert_ne by done.
    by rewrite (bool_decide_ext (a ∈ l) (a ∈ x :: l)) by set_solver.
Qed.

Lemma updateBackendRefCounts_lookup s f (newSet : gset L3n4Addr) a :
  backendStates (updateBackendRefCounts f newSet s) !! a
  = if bool_decide (a ∈ newSet ∧ (a ∉ membership s f))
    then Some (enter_one a (backendStates s !! a))
    else if bool_decide (a ∈ membership s f ∧ (a ∉ newSet))
         then leave_one (backendStates s !! a)
         else backendStates s !! a.
Proof.
  unfold updateBackendRefCounts, membership.
  destruct (backendReferences s !! f) as [oldRefs|]; simpl.
  - destruct (fold_left refcount_leave (rangeSet oldRefs)
                (newSet, backendStates s)) as [nr st1] eqn:Hf.
    destruct (fold_leave_spec (rangeSet oldRefs) (NoDup_rangeSet _)
                newSet (backendStates s)) as [H1 H2].
    rewrite Hf in H1, H2. simpl in H1, H2. simpl.
    rewrite (fold_enter_spec _ (NoDup_rangeSet _)), H2, H1.
    assert (Hnr : a ∈ rangeSet (newSet ∖ list_to_set (rangeSet oldRefs))
                  ↔ a ∈ newSet ∧ (a ∉ oldRefs)).
    { rewrite elem_of_rangeSet, elem_of_difference, elem_of_list_to_set.
      by rewrite elem_of_rangeSet. }
    rewrite (bool_decide_ext _ _ Hnr).
    rewrite (bool_decide_ext (a ∈ rangeSet oldRefs ∧ (a ∉ newSet))
               (a ∈ oldRefs ∧ (a ∉ newSet)))
      by (by rewrite elem_of_rangeSet).
    repeat case_bool_decide; try done; naive_solver.
  - rewrite (fold_enter_spec _ (NoDup_rangeSet _)).
    rewrite (bool_decide_ext (a ∈ rangeSet newSet) (a ∈ newSet ∧ (a ∉ (∅ : gset L3n4Addr))))
      by (rewrite elem_of_rangeSet; set_solver).
    repeat case_bool_decide; try done; set_solver.
Qed.

(** C5 (amended): [updateReferences] replaces the membership set of the
    frontend by the new set; the record of an address that leaves the set
    has its count decremented only when the count exceeds 1 (so a count of
    1 stays 1), and is neither deleted nor created; the record of an
    address that enters has its count incremented and its address field
    set, and is created if absent; all other records are left alone.  The
    counts are Go [int]s. *)
Theorem updateReferences_delta (s : bpfOps) (f : L3n4Addr)
    (newSet : gset L3n4Addr) :
  let s' := updateReferences f newSet s in
  let old := membership s f in
  backendReferences s' = <[f := newSet]> (backendReferences s) ∧
  (∀ a, a ∈ old → a ∉ newSet →
        backendStates s' !! a = leave_one (backendStates s !! a)) ∧
  (∀ a, a ∈ newSet → a ∉ old →
        backendStates s' !! a = Some (enter_one a (backendStates s !! a))) ∧
  (∀ a, (a ∈ old ↔ a ∈ newSet) →
        backendStates s' !! a = backendStates s !! a).
Proof.
  intros s' old. unfold s', updateReferences. simpl. split_and!.
  - unfold updateBackendRefCounts.
    by destruct (match backendReferences s !! f with
                 | Some oldRefs => _ | None => _ end).
  - intros a Hold Hnew. rewrite updateBackendRefCounts_lookup.
    rewrite bool_decide_false by (by intros [? _]).
    by rewrite bool_decide_true.
  - intros a Hnew Hold. rewrite updateBackendRefCounts_lookup.
    by rewrite bool_decide_true.
  - intros a Hiff. rewrite updateBackendRefCounts_lookup.
    rewrite bool_decide_false by (intros [? ?]; naive_solver).
    rewrite bool_decide_false by (intros [? ?]; naive_solver). done.
Qed.

End RegistryFacts.

(** ** Sorting *)

Section StrictWeakOrders.

Context {A : Type} (less : A → A → bool) (Hless : StrictWeakOrder less).

Lemma swo_asym a b : less a b = true → less b a = false.
Proof.
  intros Hab. destruct (less b a) eqn:Hba; [|done].
  pose proof (swo_trans _ Hless _ _ _ Hab Hba) as Haa.
  by rewrite (swo_irrefl _ Hless) in Haa.
Qed.

(** "Not less" is transitive. *)
Lemma swo_negtrans a b c :
  less a b = false → less b c = false → less a c = false.
Proof.
  intros Hab Hbc. destruct (less a c) eqn:Hac; [|done]. exfalso.
  destruct (less b a) eqn:Hba.
  { pose proof (swo_trans _ Hless _ _ _ Hba Hac). congruence. }
  destruct (less c b) eqn:Hcb.
  { pose proof (swo_trans _ Hless _ _ _ Hac Hcb). congruence. }
  destruct (swo_incomp _ Hless a b c Hab Hba Hbc Hcb). congruence.
Qed.

Lemma insert_left_perm x acc : insert_left less x acc ≡ₚ x :: acc.
Proof.
  induction acc as [|y acc IH]; simpl; [done|].
  destruct (less x y); [|done]. rewrite IH. apply Permutation_swap.
Qed.

Lemma insert_left_sorted x acc :
  StronglySorted (λ a b, less a b = false) acc →
  StronglySorted (λ a b, less a b = false) (insert_left less x acc).
Proof.
  induction 1 as [|y acc Hs IH Hy]; simpl.
  { repeat constructor. }
  destruct (less x y) eqn:Hxy.
  - constructor; [done|].
    rewrite Forall_forall in Hy |- *. intros z Hz.
    rewrite insert_left_perm in Hz. apply elem_of_cons in Hz as [->|Hz].
    + by apply swo_asym.
    + by apply Hy.
  - constructor; [by constructor|].
    constructor; [done|].
    rewrite Forall_forall in Hy |- *. intros z Hz.
    eapply swo_negtrans; [done|]. by apply Hy.
Qed.

Lemma insertion_fold_perm l acc :
  fold_left (λ acc x, insert_left less x acc) l acc ≡ₚ l ++ acc.
Proof.
  revert acc. induction l as [|x l IH]; intros acc; simpl; [done|].
  rewrite IH, insert_left_perm. by rewrite <- Permutation_middle.
Qed.

Lemma insertion_fold_sorted l acc :
  StronglySorted (λ a b, less a b = false) acc →
  StronglySorted (λ a b, less a b = false)
    (fold_left (λ acc x, insert_left less x acc) l acc).
Proof.
  revert acc. induction l as [|x l IH]; intros acc Hacc; simpl; [done|].
  by apply IH, insert_left_sorted.
Qed.

Lemma StronglySorted_reverse_flip (R : relation A) l :
  StronglySorted R l → StronglySorted (flip R) (reverse l).
Proof.
  induction 1 as [|x l Hs IH Hx]; [constructor|].
  rewrite reverse_cons. apply StronglySorted_app_2.
  - intros a b Ha Hb. apply list_elem_of_singleton in Hb as ->.
    rewrite elem_of_reverse in Ha. rewrite Forall_forall in Hx. by apply Hx.
  - done.
  - repeat constructor.
Qed.

Lemma insertionSort_perm l : insertionSort less l ≡ₚ l.
Proof.
  unfold insertionSort. rewrite reverse_Permutation, insertion_fold_perm.
  by rewrite app_nil_r.
Qed.

Lemma insertionSort_sorted l :
  StronglySorted (λ a b, less b a = false) (insertionSort less l).
Proof.
  unfold insertionSort.
  apply (StronglySorted_reverse_flip (λ a b, less a b = false)).
  apply insertion_fold_sorted. constructor.
Qed.

End StrictWeakOrders.

(** The concrete environment keeps the promises of [EnvOK]. *)
Lemma demoEnv_ok (affinity : bool) (refuse : dpop → bool) :
  EnvOK (demoEnv affinity refuse).
Proof.
  split.
  - intros K ? ? s. done.
  - intros A less l. apply insertionSort_perm.
  - intros A less l Hless. by apply insertionSort_sorted.
Qed.

(** *** The registry on concrete inputs *)


Lemma updateReferences_delta_witness :
  let s' := @updateReferences demoE (Address demoFrontend) {[demoBackend2]} demoState1 in
  let old := membership demoState1 (Address demoFrontend) in
  backendReferences s'
  = <[Address demoFrontend := {[demoBackend2]}]> (backendReferences demoState1) ∧
  (∀ a, a ∈ old → a ∉ ({[demoBackend2]} : gset L3n4Addr) →
        backendStates s' !! a = leave_one (backendStates demoState1 !! a)) ∧
  (∀ a, a ∈ ({[demoBackend2]} : gset L3n4Addr) → a ∉ old →
        backendStates s' !! a
        = Some (enter_one a (backendStates demoState1 !! a))) ∧
  (∀ a, (a ∈ old ↔ a ∈ ({[demoBackend2]} : gset L3n4Addr)) →
        backendStates s' !! a = backendStates demoState1 !! a).
Proof.
  apply (@updateReferences_delta demoE (demoEnv_ok false acceptAll)).
Defined.

(** C5, as stated, fails for a count of 1: the address leaves the set and
    its count stays 1 where a decrement with floor 0 gives 0. *)
Lemma updateReferences_keeps_count_one :
  let s' := @updateReferences demoE (Address demoFrontend) ∅ demoState1 in
  demoBackend1 ∈ membership demoState1 (Address demoFrontend) ∧
  refCount <$> backendStates demoState1 !! demoBackend1 = Some 1 ∧
  refCount <$> backendStates s' !! demoBackend1 = Some 1 ∧
  refCount <$> backendStates s' !! demoBackend1 ≠ Some (Z.max 0 (1 - 1)).
Proof.
  split_and!.
  - apply (bool_decide_eq_true_1 _). vm_compute. reflexivity.
  - vm_compute. reflexivity.
  - vm_compute. reflexivity.
  - vm_compute. discriminate.
Qed.

(** *** The order of [sortedBackends] *)

Lemma GoodCmp_N : GoodCmp N.compare.
Proof.
  split.
  - apply N.compare_eq_iff.
  - intros a b. apply N.compare_antisym.
  - intros a b d. rewrite !N.compare_lt_iff. lia.
Qed.

Lemma GoodCmp_Z : GoodCmp Z.compare.
Proof.
  split.
  - apply Z.compare_eq_iff.
  - intros a b. apply Z.compare_antisym.
  - intros a b d. rewrite !Z.compare_lt_iff. lia.
Qed.

Lemma GoodCmp_string : GoodCmp String.compare.
Proof.
  split.
  - apply OrderedTypeEx.String_as_OT.cmp_eq.
  - intros a b. apply OrderedTypeEx.String_as_OT.cmp_antisym.
  - intros a b d Hab Hbd.
    apply OrderedTypeEx.String_as_OT.cmp_lt.
    apply OrderedTypeEx.String_as_OT.cmp_lt in Hab, Hbd.
    by eapply OrderedTypeEx.String_as_OT.lt_trans.
Qed.

Lemma GoodCmp_refl {A} (c : A → A → comparison) a : GoodCmp c → c a a = Eq.
Proof. intros Hc. by apply (gc_eq _ Hc). Qed.

Lemma GoodCmp_lexPair {A B} (ca : A → A → comparison) (cb : B → B → comparison) :
  GoodCmp ca → GoodCmp cb → GoodCmp (lexPair ca cb).
Proof.
  intros Ha Hb. split.
  - intros [a1 b1] [a2 b2]. unfold lexPair, lex. simpl. split.
    + destruct (ca a1 a2) eqn:Hca; try done.
      intros Hcb. apply (gc_eq _ Ha) in Hca. apply (gc_eq _ Hb) in Hcb.
      by subst.
    + intros [= -> ->]. by rewrite !GoodCmp_refl.
  - intros [a1 b1] [a2 b2]. unfold lexPair, lex. simpl.
    rewrite (gc_antisym _ Ha a1 a2), (gc_antisym _ Hb b1 b2).
    by destruct (ca a1 a2).
  - intros [a1 b1] [a2 b2] [a3 b3]. unfold lexPair, lex. simpl.
    destruct (ca a1 a2) eqn:H12; try done.
    + apply (gc_eq _ Ha) in H12 as ->.
      destruct (ca a2 a3) eqn:H23; try done.
      by apply (gc_trans _ Hb).
    + intros _. destruct (ca a2 a3) eqn:H23; try done.
      * apply (gc_eq _ Ha) in H23 as <-. by rewrite H12.
      * by rewrite (gc_trans _ Ha _ _ _ H12 H23).
Qed.

Lemma GoodCmp_inj {A B} (f : A → B) (c : B → B → comparison) :
  Inj (=) (=) f → GoodCmp c → GoodCmp (λ x y, c (f x) (f y)).
Proof.
  intros Hf Hc. split.
  - intros a b. rewrite (gc_eq _ Hc). split; [apply Hf | by intros ->].
  - intros a b. apply (gc_antisym _ Hc).
  - intros a b d. apply (gc_trans _ Hc).
Qed.

Lemma addrKey_inj : Inj (=) (=) addrKey.
Proof. intros [] []; unfold addrKey; simpl; intros [=]; by subst. Qed.

Lemma GoodCmp_addrCmp : GoodCmp addrCmp.
Proof.
  apply (GoodCmp_inj addrKey); [apply addrKey_inj|].
  apply GoodCmp_lexPair; [apply GoodCmp_Z|].
  apply GoodCmp_lexPair; [apply GoodCmp_N | apply GoodCmp_string].
Qed.

Lemma GoodCmp_keyCmp : GoodCmp keyCmp.
Proof.
  apply GoodCmp_lexPair; [apply GoodCmp_N|].
  apply GoodCmp_lexPair; [apply GoodCmp_addrCmp | apply GoodCmp_Z].
Qed.

(** [netip.Addr.Compare] is the three-way comparison [addrCmp]. *)
Lemma Compare_addrCmp a b :
  netip.Compare a b = match addrCmp a b with Lt => -1 | Eq => 0 | Gt => 1 end.
Proof.
  destruct a as [|x|x zx], b as [|y|y zy]; try done;
    unfold netip.Compare, addrCmp, lexPair, lex; simpl;
    by destruct (N.compare x y).
Qed.

Lemma backendLess_keyCmp a b :
  backendLess a b = bool_decide (keyCmp (sortKey a) (sortKey b) = Lt).
Proof.
  unfold backendLess, keyCmp, sortKey, lexPair, lex. simpl.
  rewrite Compare_addrCmp. unfold N.ltb, Z.ltb.
  rewrite (N.compare_antisym (bwr_State a) (bwr_State b)).
  destruct (N.compare (bwr_State a) (bwr_State b)); simpl; try done.
  destruct (addrCmp _ _); simpl; try done.
  by destruct (Z.compare _ _).
Qed.

Lemma backendLess_false a b :
  backendLess b a = false ↔ keyCmp (sortKey a) (sortKey b) ≠ Gt.
Proof.
  rewrite backendLess_keyCmp, bool_decide_eq_false.
  rewrite (gc_antisym _ GoodCmp_keyCmp (sortKey a) (sortKey b)).
  by destruct (keyCmp (sortKey a) (sortKey b)).
Qed.

Lemma backendLess_swo : StrictWeakOrder backendLess.
Proof.
  pose proof GoodCmp_keyCmp as Hc.
  assert (Heq : ∀ a b, backendLess a b = false → backendLess b a = false →
                       sortKey a = sortKey b).
  { intros a b Hab Hba. apply backendLess_false in Hab, Hba.
    apply (gc_eq _ Hc).
    rewrite (gc_antisym _ Hc (sortKey b) (sortKey a)) in Hba |- *.
    destruct (keyCmp (sortKey b) (sortKey a)); done. }
  split.
  - intros a. rewrite backendLess_keyCmp, bool_decide_eq_false.
    by rewrite GoodCmp_refl.
  - intros a b c. rewrite !backendLess_keyCmp, !bool_decide_eq_true.
    apply (gc_trans _ Hc).
  - intros a b c H1 H2 H3 H4.
    pose proof (Heq _ _ H1 H2) as Hab. pose proof (Heq _ _ H3 H4) as Hbc.
    rewrite !backendLess_keyCmp, !bool_decide_eq_false, Hab, Hbc.
    by rewrite GoodCmp_refl.
Qed.

Lemma StronglySorted_lookup_lt {A} (R : relation A) (l : list A) i j a b :
  StronglySorted R l → (i < j)%nat →
  l !! i = Some a → l !! j = Some b → R a b.
Proof.
  intros Hs. revert i j. induction Hs as [|x l Hs IH Hx]; intros i j Hij Hi Hj.
  { by rewrite lookup_nil in Hi. }
  destruct j as [|j]; [lia|]. simpl in Hj.
  destruct i as [|i]; simpl in Hi.
  - injection Hi as ->. rewrite Forall_forall in Hx.
    apply Hx. by eapply list_elem_of_lookup_2.
  - apply (IH i j); [lia | done..].
Qed.

Lemma NoDup_fmap_inj_on {A B} (f : A → B) (l : list A) x y :
  NoDup (f <$> l) → x ∈ l → y ∈ l → f x = f y → x = y.
Proof.
  induction l as [|z l IH]; csimpl; intros Hnd Hx Hy Hf.
  { by apply elem_of_nil in Hx. }
  apply NoDup_cons in Hnd as [Hz Hnd].
  apply elem_of_cons in Hx as [->|Hx]; apply elem_of_cons in Hy as [->|Hy].
  - done.
  - exfalso. apply Hz. rewrite Hf. by apply list_elem_of_fmap_2.
  - exfalso. apply Hz. rewrite <- Hf. by apply list_elem_of_fmap_2.
  - by apply IH.
Qed.

Section SortedBackends.

Context {E : Env} {HE : EnvOK E}.

Lemma sortedBackends_perm bes : sortedBackends bes ≡ₚ bes.
Proof. apply sort_Slice_perm. Qed.

Lemma sortedBackends_sorted bes :
  StronglySorted (λ a b, backendLess b a = false) (sortedBackends bes).
Proof. apply sort_Slice_sorted, backendLess_swo. Qed.

Lemma backendAddrsOf_sorted bes :
  backendAddrsOf (sortedBackends bes) = backendAddrsOf bes.
Proof.
  unfold backendAddrsOf. apply set_eq. intros a.
  rewrite !elem_of_list_to_set. by rewrite sortedBackends_perm.
Qed.

(** C7 (amended): [sortedBackends] returns the same backends ordered by
    state (so every active backend precedes every other one), then by IP
    address, then by port.  The sequence of (state, IP address, port) keys
    is a function of the backend set, and so is the order itself when no
    two backends have the same key; backends with equal keys (they differ
    in protocol, cluster or scope only) may come out in either order. *)
Theorem sortedBackends_order (bes : list BackendWithRevision) :
  let ip b := ac_addr (AddrCluster_ (bwr_addr b)) in
  let out := sortedBackends bes in
  out ≡ₚ bes ∧
  (∀ i j a b, (i < j)%nat → out !! i = Some a → out !! j = Some b →
      (bwr_State a <= bwr_State b)%N ∧
      (bwr_State b = BackendStateActive → bwr_State a = BackendStateActive) ∧
      (bwr_State a = bwr_State b →
         netip.Compare (ip a) (ip b) <= 0 ∧
         (netip.Compare (ip a) (ip b) = 0 →
            Port (bwr_addr a) <= Port (bwr_addr b)))) ∧
  (∀ bes', bes' ≡ₚ bes →
      sortKey <$> sortedBackends bes' = sortKey <$> out) ∧
  (∀ bes', bes' ≡ₚ bes → NoDup (sortKey <$> bes) →
      sortedBackends bes' = out).
Proof.
  intros ip out. split_and!.
  - apply sortedBackends_perm.
  - intros i j a b Hij Hi Hj.
    pose proof (StronglySorted_lookup_lt _ _ _ _ _ _
                  (sortedBackends_sorted bes) Hij Hi Hj) as Hle.
    simpl in Hle. apply backendLess_false in Hle.
    unfold keyCmp, sortKey, lexPair, lex in Hle. simpl in Hle.
    fold (ip a) in Hle. fold (ip b) in Hle.
    assert (Hst : (bwr_State a <= bwr_State b)%N).
    { destruct (N.compare_spec (bwr_State a) (bwr_State b)); [lia | lia | done]. }
    split_and!; [done | unfold BackendStateActive; lia |].
    intros Heq. rewrite Heq, N.compare_refl in Hle.
    rewrite Compare_addrCmp.
    destruct (addrCmp (ip a) (ip b)); [|lia|done].
    split; [lia|]. intros _. by apply Z.compare_le_iff.
  - intros bes' Hperm.
    apply (StronglySorted_unique_strong (λ k1 k2, keyCmp k1 k2 ≠ Gt)).
    + intros k1 k2 _ _ H12 H21. apply (gc_eq _ GoodCmp_keyCmp).
      rewrite (gc_antisym _ GoodCmp_keyCmp k1 k2) in H21.
      by destruct (keyCmp k1 k2).
    + eapply StronglySorted_fmap; [|apply sortedBackends_sorted].
      intros x y. apply backendLess_false.
    + eapply StronglySorted_fmap; [|apply sortedBackends_sorted].
      intros x y. apply backendLess_false.
    + unfold out. by rewrite !sortedBackends_perm, Hperm.
  - intros bes' Hperm Hnd.
    apply (StronglySorted_unique_strong (λ a b, backendLess b a = false)).
    + intros x1 x2 Hx1 Hx2 H12 H21.
      apply (NoDup_fmap_inj_on sortKey bes); [done | | |].
      * rewrite sortedBackends_perm, Hperm in Hx1. done.
      * unfold out in Hx2. by rewrite sortedBackends_perm in Hx2.
      * apply backendLess_false in H12, H21.
        apply (gc_eq _ GoodCmp_keyCmp).
        rewrite (gc_antisym _ GoodCmp_keyCmp (sortKey x1) (sortKey x2)) in H21.
        by destruct (keyCmp (sortKey x1) (sortKey x2)).
    + apply sortedBackends_sorted.
    + apply sortedBackends_sorted.
    + unfold out. by rewrite !sortedBackends_perm, Hperm.
Qed.

End SortedBackends.

Lemma sortedBackends_order_witness :
  let bes := Backends demoFrontend in
  @sortedBackends demoE bes ≡ₚ bes ∧
  (∀ bes', bes' ≡ₚ bes → @sortedBackends demoE bes' = @sortedBackends demoE bes).
Proof.
  intros bes.
  destruct (@sortedBackends_order demoE (demoEnv_ok false acceptAll) bes)
    as (Hperm & _ & _ & Hfun).
  split; [exact Hperm|].
  intros bes' Hbes'. apply Hfun; [exact Hbes'|].
  vm_compute. repeat constructor; set_solver.
Defined.

(** C7, as stated, fails when two backends agree on state, IP address and
    port: the same two backends, given in either order, come back in the
    order given. *)
Lemma sortedBackends_not_a_function_of_the_set :
  let tcp := activeBackend (v4 1 53 "TCP") 1 in
  let udp := activeBackend (v4 1 53 "UDP") 1 in
  [tcp; udp] ≡ₚ [udp; tcp] ∧
  @sortedBackends demoE [tcp; udp] = [tcp; udp] ∧
  @sortedBackends demoE [udp; tcp] = [udp; tcp] ∧
  @sortedBackends demoE [tcp; udp] ≠ @sortedBackends demoE [udp; tcp].
Proof.
  split_and!.
  - apply Permutation_swap.
  - vm_compute. reflexivity.
  - vm_compute. reflexivity.
  - vm_compute. discriminate.
Qed.

(** ** Reasoning about the state and error monad *)

Section MonadFacts.

Context {E : Env}.

Lemma wlp_conseq {A} (m : M A) (Q Q' : bpfOps → outcome A → Prop) s :
  wlp m Q s → (∀ s' r, Q s' r → Q' s' r) → wlp m Q' s.
Proof. intros Hm HQ s' r Hrun. by apply HQ, Hm. Qed.

Lemma wlp_ret {A} (a : A) (Q : bpfOps → outcome A → Prop) s :
  Q s (Ok a) → wlp (ret a) Q s.
Proof. intros HQ s' r [= <- <-]. done. Qed.

Lemma wlp_fail {A} e (Q : bpfOps → outcome A → Prop) s :
  Q s (Fail e) → wlp (fail e) Q s.
Proof. intros HQ s' r [= <- <-]. done. Qed.

Lemma wlp_gets {A} (f : bpfOps → A) (Q : bpfOps → outcome A → Prop) s :
  Q s (Ok (f s)) → wlp (gets f) Q s.
Proof. intros HQ s' r [= <- <-]. done. Qed.

Lemma wlp_modify f (Q : bpfOps → outcome unit → Prop) s :
  Q (f s) (Ok tt) → wlp (modify f) Q s.
Proof. intros HQ s' r [= <- <-]. done. Qed.

Lemma wlp_call op (Q : bpfOps → outcome (option error) → Prop) s :
  (∀ d r, Q (set_dp s d (trace s ++ [(op, r)])) (Ok r)) → wlp (call op) Q s.
Proof.
  intros HQ s' r. unfold call. destruct (exec op (dp s)) as [d r0].
  intros [= <- <-]. apply HQ.
Qed.

Lemma wlp_bind {A B} (m : M A) (k : A → M B) (Q : bpfOps → outcome B → Prop) s :
  wlp m (λ s1 r1, match r1 with
                  | Ok a => wlp (k a) Q s1
                  | Fail e => Q s1 (Fail e)
                  end) s →
  wlp (bind m k) Q s.
Proof.
  intros Hm s' r. unfold bind.
  destruct (m s) as [[s1 [a|e]]|] eqn:Hrun; [| |done].
  - intros Hk. by apply (Hm _ _ Hrun).
  - intros [= <- <-]. by apply (Hm _ _ Hrun).
Qed.

Lemma wlp_wrapping {A} w (m : M A) (Q : bpfOps → outcome A → Prop) s :
  wlp m (λ s1 r1, match r1 with
                  | Ok a => Q s1 (Ok a)
                  | Fail e => Q s1 (Fail (w e))
                  end) s →
  wlp (wrapping w m) Q s.
Proof.
  intros Hm s' r. unfold wrapping.
  destruct (m s) as [[s1 [a|e]]|] eqn:Hrun; [| |done].
  - intros [= <- <-]. by apply (Hm _ _ Hrun).
  - intros [= <- <-]. by apply (Hm _ _ Hrun).
Qed.

Lemma wlp_check w err (Q : bpfOps → outcome unit → Prop) s :
  match err with None => Q s (Ok tt) | Some e => Q s (Fail (w e)) end →
  wlp (check w err) Q s.
Proof. destruct err; [apply wlp_fail | apply wlp_ret]. Qed.

(** A loop with an invariant; an iteration that fails ends the loop. *)
Lemma wlp_forM {A} (I : bpfOps → Prop) (l : list A) (body : A → M unit)
    (Q : bpfOps → outcome unit → Prop) s :
  I s →
  (∀ x s1, x ∈ l → I s1 →
     wlp (body x) (λ s2 r, match r with
                           | Ok _ => I s2
                           | Fail e => Q s2 (Fail e)
                           end) s1) →
  (∀ s1, I s1 → Q s1 (Ok tt)) →
  wlp (forM l body) Q s.
Proof.
  intros HI Hbody Hend. revert s HI.
  induction l as [|x l IH]; intros s HI; simpl.
  { apply wlp_ret. by apply Hend. }
  apply wlp_bind. eapply wlp_conseq; [apply (Hbody x s); [by left | done]|].
  intros s1 [[]|e] H1; [|done]. simpl in H1.
  apply IH; [|done]. intros y s2 Hy. apply Hbody. by right.
Qed.

(** *** Relations kept by every step *)

Section Keeps.

Context (P : relation bpfOps) {HP : Stable P}.

Lemma keeps_ret {A} (a : A) : keeps P (ret a).
Proof. intros s. apply wlp_ret, stable_refl. Qed.

Lemma keeps_fail {A} e : keeps P (@fail _ A e).
Proof. intros s. apply wlp_fail, stable_refl. Qed.

Lemma keeps_gets {A} (f : bpfOps → A) : keeps P (gets f).
Proof. intros s. apply wlp_gets, stable_refl. Qed.

Lemma keeps_modify f : (∀ s, P s (f s)) → keeps P (modify f).
Proof. intros Hf s. apply wlp_modify, Hf. Qed.

Lemma keeps_call op : keeps P (call op).
Proof. intros s. apply wlp_call. intros d r. apply stable_dp. Qed.

Lemma keeps_check w err : keeps P (check w err).
Proof. intros s. apply wlp_check. destruct err; apply stable_refl. Qed.

Lemma keeps_bind {A B} (m : M A) (k : A → M B) :
  keeps P m → (∀ a, keeps P (k a)) → keeps P (bind m k).
Proof.
  intros Hm Hk s. apply wlp_bind.
  eapply wlp_conseq; [apply Hm|]. intros s1 [a|e] H1; [|done].
  eapply wlp_conseq; [apply Hk|]. intros s2 r H2. simpl in *.
  by eapply stable_trans.
Qed.

Lemma keeps_wrapping {A} w (m : M A) : keeps P m → keeps P (wrapping w m).
Proof.
  intros Hm s. apply wlp_wrapping.
  eapply wlp_conseq; [apply Hm|]. by intros s1 [a|e] H1.
Qed.

Lemma keeps_forM {A} (l : list A) (body : A → M unit) :
  (∀ x, keeps P (body x)) → keeps P (forM l body).
Proof.
  intros Hbody. induction l as [|x l IH]; simpl.
  - apply keeps_ret.
  - apply keeps_bind; [apply Hbody | by intros _].
Qed.

Lemma keeps_foldM {A B} (body : B → A → M B) (l : list A) (b : B) :
  (∀ b x, keeps P (body b x)) → keeps P (foldM body l b).
Proof.
  intros Hbody. revert b. induction l as [|x l IH]; intros b; simpl.
  - apply keeps_ret.
  - apply keeps_bind; [apply Hbody | done].
Qed.

Lemma keeps_upsertService k v : keeps P (upsertService k v).
Proof.
  apply keeps_bind; [apply keeps_call|].
  intros [e|]; [|apply keeps_ret]. destruct (is_E2BIG e); apply keeps_fail.
Qed.

Lemma keeps_upsertMaster k v fe n : keeps P (upsertMaster k v fe n).
Proof. apply keeps_upsertService. Qed.

Lemma keeps_cleanupSlots k old new : keeps P (cleanupSlots k old new).
Proof.
  apply keeps_forM. intros i.
  apply keeps_bind; [apply keeps_call | intros; apply keeps_check].
Qed.

Lemma keeps_upsertBackend i be : keeps P (upsertBackend i be).
Proof.
  unfold upsertBackend. destruct (NewBackendV3 _ _ _) as [[k v]|e].
  - apply keeps_bind; [apply keeps_call | intros; apply keeps_check].
  - apply keeps_fail.
Qed.

Lemma keeps_deleteBackend v6 i : keeps P (deleteBackend v6 i).
Proof. apply keeps_bind; [apply keeps_call | intros; apply keeps_check]. Qed.

Lemma keeps_upsertAffinityMatch i b : keeps P (upsertAffinityMatch i b).
Proof.
  unfold upsertAffinityMatch. destruct (negb _); [apply keeps_ret|].
  apply keeps_bind; [apply keeps_call | intros; apply keeps_check].
Qed.

Lemma keeps_deleteAffinityMatch i b : keeps P (deleteAffinityMatch i b).
Proof.
  unfold deleteAffinityMatch. destruct (negb _); [apply keeps_ret|].
  apply keeps_bind; [apply keeps_call | intros; apply keeps_check].
Qed.

Lemma keeps_upsertRevNat i k v : keeps P (upsertRevNat i k v).
Proof.
  unfold upsertRevNat. case_bool_decide; [apply keeps_fail|].
  apply keeps_bind; [apply keeps_call | intros; apply keeps_check].
Qed.

End Keeps.

End MonadFacts.

(** ** The membership is committed last *)

Section CommitLast.

Context {E : Env}.

#[local] Instance same_refs_stable : Stable same_refs.
Proof.
  split; unfold same_refs.
  - done.
  - intros s1 s2 s3 H12 H23. congruence.
  - done.
Qed.

Lemma same_refs_acquireServiceID fuel a : keeps same_refs (acquireServiceID fuel a).
Proof.
  intros s s' r. unfold acquireServiceID.
  destruct (acquireLocalID _ _ _ _ _) as [[al r']|]; [|done].
  by intros [= <- <-].
Qed.

Lemma same_refs_acquireBackendID fuel a : keeps same_refs (acquireBackendID fuel a).
Proof.
  intros s s' r. unfold acquireBackendID.
  destruct (acquireLocalID _ _ _ _ _) as [[al r']|]; [|done].
  by intros [= <- <-].
Qed.

Lemma same_refs_deleteOrphan feID o : keeps same_refs (deleteOrphan feID o).
Proof.
  apply (keeps_bind same_refs); [by apply (keeps_wrapping same_refs), (keeps_deleteBackend same_refs)|]. intros _.
  apply (keeps_bind same_refs); [by apply (keeps_wrapping same_refs), (keeps_deleteAffinityMatch same_refs)|]. intros _.
  by apply (keeps_modify same_refs).
Qed.

Lemma same_refs_updateBackend fuel feID k v svc i be :
  keeps same_refs (updateBackend fuel feID k v svc i be).
Proof.
  apply (keeps_bind same_refs); [by apply (keeps_gets same_refs)|]. intros known.
  apply (keeps_bind same_refs).
  { destruct known as [st|]; [case_bool_decide|];
      first [by apply (keeps_ret same_refs) | apply same_refs_acquireBackendID]. }
  intros beID. apply (keeps_bind same_refs); [by apply (keeps_gets same_refs)|]. intros stale.
  apply (keeps_bind same_refs).
  { destruct stale; [|by apply (keeps_ret same_refs)].
    apply (keeps_bind same_refs); [by apply (keeps_wrapping same_refs), (keeps_upsertBackend same_refs)|].
    intros _. by apply (keeps_modify same_refs). }
  intros _. apply (keeps_bind same_refs).
  { case_bool_decide; [|by apply (keeps_ret same_refs)].
    by apply (keeps_wrapping same_refs), (keeps_upsertService same_refs). }
  intros _. destruct (_ && _); apply (keeps_wrapping same_refs);
    [by apply (keeps_upsertAffinityMatch same_refs) | by apply (keeps_deleteAffinityMatch same_refs)].
Qed.

Lemma same_refs_updateBackends fuel feID k v svc i bes :
  keeps same_refs (updateBackends fuel feID k v svc i bes).
Proof.
  revert i. induction bes as [|be bes IH]; intros i; simpl.
  - by apply (keeps_ret same_refs).
  - apply (keeps_bind same_refs); [apply same_refs_updateBackend | by intros _].
Qed.

Lemma same_refs_reconcileFrontend fuel fe :
  keeps same_refs (reconcileFrontend fuel fe).
Proof.
  apply (keeps_bind same_refs).
  { apply (keeps_wrapping same_refs), same_refs_acquireServiceID. }
  intros feID. apply (keeps_bind same_refs); [apply (keeps_gets same_refs)|].
  intros orphans. apply (keeps_bind same_refs).
  { apply (keeps_forM same_refs). intros o. apply same_refs_deleteOrphan. }
  intros _. apply (keeps_bind same_refs); [apply same_refs_updateBackends|].
  intros _. apply (keeps_bind same_refs); [apply (keeps_gets same_refs)|].
  intros n. apply (keeps_bind same_refs).
  { apply (keeps_wrapping same_refs), (keeps_upsertRevNat same_refs). }
  intros _. apply (keeps_bind same_refs).
  { apply (keeps_wrapping same_refs), (keeps_upsertMaster same_refs). }
  intros _.
  apply (keeps_wrapping same_refs), (keeps_cleanupSlots same_refs).
Qed.

Lemma backendReferences_updateReferences f B s :
  backendReferences (updateReferences f B s) = <[f := B]> (backendReferences s).
Proof.
  unfold updateReferences, updateBackendRefCounts. simpl.
  by destruct (match backendReferences s !! f with
               | Some oldRefs => _ | None => _ end).
Qed.

(** C1: a run of [updateFrontend] that returns an error leaves the whole
    membership map, and so the entry of its frontend, as it was; a run
    that succeeds has stored the new backend set, and nothing else, in the
    entry of its frontend. *)
Theorem updateFrontend_commits_last (fuel : nat) (fe : Frontend)
    (s s' : bpfOps) (r : outcome unit) :
  updateFrontend fuel fe s = Some (s', r) →
  match r with
  | Fail _ => backendReferences s' = backendReferences s
  | Ok _ =>
      backendReferences s'
      = <[Address fe := backendAddrsOf (sortedBackends (Backends fe))]>
          (backendReferences s)
  end.
Proof.
  unfold updateFrontend, bind.
  destruct (reconcileFrontend fuel fe s) as [[s1 [[]|e]]|] eqn:Hrun; [| |done].
  - intros [= <- <-]. rewrite backendReferences_updateReferences.
    by rewrite (same_refs_reconcileFrontend fuel fe s s1 _ Hrun).
  - intros [= <- <-]. apply (same_refs_reconcileFrontend fuel fe s s1 _ Hrun).
Qed.

End CommitLast.

Lemma updateFrontend_commits_last_witness :
  backendReferences failState2 = backendReferences failState1.
Proof.
  apply (@updateFrontend_commits_last failE 4%nat twoBackends
           failState1 failState2 (Fail failError)).
  apply (run_eq failState1). vm_compute. reflexivity.
Defined.

(** ** Pruning *)

Section PruneFacts.

Context {E : Env}.

Lemma returns_ret {A} (a : A) : returns (ret a).
Proof. intros s. by eexists _, _. Qed.

Lemma returns_fail {A} e : returns (@fail _ A e).
Proof. intros s. by eexists _, _. Qed.

Lemma returns_gets {A} (f : bpfOps → A) : returns (gets f).
Proof. intros s. by eexists _, _. Qed.

Lemma returns_modify f : returns (modify f).
Proof. intros s. by eexists _, _. Qed.

Lemma returns_call op : returns (call op).
Proof.
  intros s. unfold call. destruct (exec op (dp s)). by eexists _, _.
Qed.

Lemma returns_check w err : returns (check w err).
Proof. destruct err; [apply returns_fail | apply returns_ret]. Qed.

Lemma returns_bind {A B} (m : M A) (k : A → M B) :
  returns m → (∀ a, returns (k a)) → returns (bind m k).
Proof.
  intros Hm Hk s. unfold bind.
  destruct (Hm s) as (s1 & [a|e] & ->); [apply Hk | by eexists _, _].
Qed.

Lemma returns_forM {A} (l : list A) (body : A → M unit) :
  (∀ x, returns (body x)) → returns (forM l body).
Proof.
  intros Hbody. induction l as [|x l IH]; simpl.
  - apply returns_ret.
  - apply returns_bind; [apply Hbody | by intros _].
Qed.

Lemma returns_pruneRestoredIDs : returns pruneRestoredIDs.
Proof. apply returns_modify. Qed.

Lemma returns_pruneServiceMaps : returns pruneServiceMaps.
Proof.
  repeat (apply returns_bind;
          [first [apply returns_gets | apply returns_call]|]; intros ?).
  apply returns_forM. intros key.
  apply returns_bind; [apply returns_call | intros; apply returns_ret].
Qed.

Lemma returns_pruneBackendMaps : returns pruneBackendMaps.
Proof.
  repeat (apply returns_bind;
          [first [apply returns_gets | apply returns_call]|]; intros ?).
  apply returns_forM. intros key.
  apply returns_bind; [apply returns_call | intros; apply returns_ret].
Qed.

Lemma returns_pruneRevNat : returns pruneRevNat.
Proof.
  repeat (apply returns_bind;
          [first [apply returns_gets | apply returns_call
                 | apply returns_check]|]; intros ?).
  apply returns_forM. intros key.
  apply returns_bind; [apply returns_call | intros; apply returns_ret].
Qed.

(** C8: [Prune] runs the four sweeps one after the other, each on the
    state its predecessor left, whatever the predecessors returned; it
    leaves the state of the last sweep, succeeds exactly when all four
    succeeded, and otherwise returns the join of their errors. *)
Theorem Prune_runs_all_sweeps (s : bpfOps) :
  ∃ s1 r1 s2 r2 s3 r3 s4 r4 r,
    pruneRestoredIDs s = Some (s1, r1) ∧
    pruneServiceMaps s1 = Some (s2, r2) ∧
    pruneBackendMaps s2 = Some (s3, r3) ∧
    pruneRevNat s3 = Some (s4, r4) ∧
    Prune s = Some (s4, r) ∧
    (r = Ok tt ↔ r1 = Ok tt ∧ r2 = Ok tt ∧ r3 = Ok tt ∧ r4 = Ok tt) ∧
    (∀ e, r = Fail e → e = Joined (errors_of [r1; r2; r3; r4])).
Proof.
  destruct (returns_pruneRestoredIDs s) as (s1 & r1 & H1).
  destruct (returns_pruneServiceMaps s1) as (s2 & r2 & H2).
  destruct (returns_pruneBackendMaps s2) as (s3 & r3 & H3).
  destruct (returns_pruneRevNat s3) as (s4 & r4 & H4).
  exists s1, r1, s2, r2, s3, r3, s4, r4.
  unfold Prune, bind, sweep. rewrite H1.
  destruct r1 as [[]|e1]; rewrite H2;
    destruct r2 as [[]|e2]; rewrite H3;
    destruct r3 as [[]|e3]; rewrite H4;
    destruct r4 as [[]|e4]; simpl;
    eexists; (split_and!; [done..| |]);
    try (split; [intros [=] | intros (? & ? & ? & ?); congruence]);
    try (by intros e [= <-]); try done.
Qed.

(** Only the reverse NAT sweep can fail: the other three log their
    failures and go on. *)
Lemma prune_sweeps_succeed (s : bpfOps) :
  (∃ s', pruneRestoredIDs s = Some (s', Ok tt)) ∧
  (∃ s', pruneServiceMaps s = Some (s', Ok tt)) ∧
  (∃ s', pruneBackendMaps s = Some (s', Ok tt)).
Proof.
  assert (Hloop : ∀ {A} (l : list A) (op : A → dpop) s0,
    ∃ s', forM l (λ key, bind (call (op key)) (λ _, ret tt)) s0 = Some (s', Ok tt)).
  { intros A l op. induction l as [|x l IH]; intros s0; simpl.
    - by eexists.
    - unfold bind at 1. unfold bind at 1. unfold call.
      destruct (exec (op x) (dp s0)) as [d r]. simpl. apply IH. }
  split_and!.
  - by eexists.
  - unfold pruneServiceMaps, bind, gets, call.
    destruct (exec _ (dp s)) as [d1 r1]. simpl.
    destruct (exec _ d1) as [d2 r2]. simpl. apply Hloop.
  - unfold pruneBackendMaps, bind, gets, call.
    destruct (exec _ (dp s)) as [d1 r1]. simpl.
    destruct (exec _ d1) as [d2 r2]. simpl. apply Hloop.
Qed.

End PruneFacts.

(** ** Registrations survive acquisitions *)

Section AllocatorRegistration.

Variable key : L3n4Addr → string.

Lemma lookup_registered_set_nextID al n a :
  lookup_registered key (set_nextID al n) a = lookup_registered key al a.
Proof. done. Qed.

Lemma lookup_registered_addID_other al a n b :
  entitiesID al !! n = None →
  is_Some (lookup_registered key al b) →
  is_Some (lookup_registered key (addID key al a n).1 b).
Proof.
  intros Hfree [rec Hreg]. unfold lookup_registered in *. simpl.
  destruct (entities al !! key b) as [j|] eqn:Hb; [|done].
  rewrite lookup_insert. case_decide as Hk; [simpl | rewrite Hb].
  - rewrite lookup_insert_eq. by eexists.
  - rewrite lookup_insert_ne; [by eexists|]. intros <-. congruence.
Qed.

Lemma acquire_scan_registered n svc start roll al al' i :
  acquire_scan key n svc start roll al = Some (al', Ok i) →
  ∃ rec, lookup_registered key al' svc = Some rec ∧ id_ID rec = i.
Proof.
  revert roll al. induction n as [|n IH]; intros roll al; [done|].
  simpl. destruct (bool_decide (nextID al = start) && roll); [done|].
  destruct (bool_decide (nextID al = maxID al)); simpl.
  - destruct (entitiesID al !! initNextID al); [apply IH|].
    intros [= <- <-]. eexists. split;
      [apply (lookup_registered_addID key (set_nextID al (initNextID al)))
      |reflexivity].
  - destruct (entitiesID al !! nextID al); [apply IH|].
    intros [= <- <-]. eexists. split;
      [apply (lookup_registered_addID key al) | reflexivity].
Qed.

Lemma acquire_scan_keeps_registered n svc start roll al al' r b :
  acquire_scan key n svc start roll al = Some (al', r) →
  is_Some (lookup_registered key al b) →
  is_Some (lookup_registered key al' b).
Proof.
  revert roll al. induction n as [|n IH]; intros roll al; [done|].
  simpl. destruct (bool_decide (nextID al = start) && roll).
  { by intros [= <- <-]. }
  destruct (bool_decide (nextID al = maxID al)); simpl.
  - destruct (entitiesID al !! initNextID al) eqn:Hl.
    + intros Hrun Hb. by apply (IH _ _ Hrun).
    + intros [= <- <-] Hb. rewrite lookup_registered_set_nextID.
      by apply (lookup_registered_addID_other (set_nextID al (initNextID al))).
  - destruct (entitiesID al !! nextID al) eqn:Hl.
    + intros Hrun Hb. by apply (IH _ _ Hrun).
    + intros [= <- <-] Hb. rewrite lookup_registered_set_nextID.
      by apply lookup_registered_addID_other.
Qed.

(** A successful acquisition leaves the address registered under the ID
    it returned. *)
Lemma acquireLocalID_registered n al svc d al' i :
  acquireLocalID key n al svc d = Some (al', Ok i) →
  ∃ rec, lookup_registered key al' svc = Some rec ∧ id_ID rec = i.
Proof.
  unfold acquireLocalID.
  destruct (lookup_registered key al svc) as [rec|] eqn:Hreg.
  { intros [= <- <-]. by exists rec. }
  case_bool_decide.
  - destruct (entitiesID al !! d); [done|]. simpl. intros [= <- <-].
    case_bool_decide; eexists; (split;
      [first [apply (lookup_registered_addID key (set_nextID al d))
             |apply (lookup_registered_addID key al)]
      |reflexivity]).
  - apply acquire_scan_registered.
Qed.

(** No acquisition, successful or not, removes a registration. *)
Lemma acquireLocalID_keeps_registered n al svc d al' r b :
  acquireLocalID key n al svc d = Some (al', r) →
  is_Some (lookup_registered key al b) →
  is_Some (lookup_registered key al' b).
Proof.
  unfold acquireLocalID.
  destruct (lookup_registered key al svc) as [rec|] eqn:Hreg.
  { by intros [= <- <-]. }
  case_bool_decide.
  - destruct (entitiesID al !! d) eqn:Hl; [by intros [= <- <-]|].
    simpl. intros [= <- <-] Hb. case_bool_decide.
    + by apply (lookup_registered_addID_other (set_nextID al d)).
    + by apply lookup_registered_addID_other.
  - apply acquire_scan_keeps_registered.
Qed.

(** A registered address gets its ID back without a scan. *)
Lemma acquireLocalID_early n al svc d rec :
  lookup_registered key al svc = Some rec →
  acquireLocalID key n al svc d = Some (al, Ok (id_ID rec)).
Proof. unfold acquireLocalID. by intros ->. Qed.

(** An acquisition leaves every other registration with its record. *)
Lemma lookup_registered_addID_exact al a n b rec :
  entitiesID al !! n = None →
  lookup_registered key al a = None →
  lookup_registered key al b = Some rec →
  lookup_registered key (addID key al a n).1 b = Some rec.
Proof.
  intros Hfree Hnone Hreg. unfold lookup_registered in *. simpl.
  destruct (entities al !! key b) as [j|] eqn:Hb; [|done].
  rewrite lookup_insert_ne.
  - rewrite Hb. rewrite lookup_insert_ne; [done|]. intros <-. congruence.
  - intros Heq. rewrite Heq, Hb, Hreg in Hnone. done.
Qed.

Lemma acquire_scan_keeps_record n svc start roll al al' r b rec :
  acquire_scan key n svc start roll al = Some (al', r) →
  lookup_registered key al svc = None →
  lookup_registered key al b = Some rec →
  lookup_registered key al' b = Some rec.
Proof.
  revert roll al. induction n as [|n IH]; intros roll al; [done|].
  simpl. destruct (bool_decide (nextID al = start) && roll).
  { by intros [= <- <-]. }
  destruct (bool_decide (nextID al = maxID al)); simpl.
  - destruct (entitiesID al !! initNextID al) eqn:Hl.
    + intros Hrun Hn Hb. by apply (IH _ _ Hrun).
    + intros [= <- <-] Hn Hb. rewrite lookup_registered_set_nextID.
      by apply (lookup_registered_addID_exact (set_nextID al (initNextID al))).
  - destruct (entitiesID al !! nextID al) eqn:Hl.
    + intros Hrun Hn Hb. by apply (IH _ _ Hrun).
    + intros [= <- <-] Hn Hb. rewrite lookup_registered_set_nextID.
      by apply lookup_registered_addID_exact.
Qed.

Lemma acquireLocalID_keeps_record n al svc d al' r b rec :
  acquireLocalID key n al svc d = Some (al', r) →
  lookup_registered key al b = Some rec →
  lookup_registered key al' b = Some rec.
Proof.
  unfold acquireLocalID.
  destruct (lookup_registered key al svc) as [rec'|] eqn:Hreg.
  { by intros [= <- <-]. }
  case_bool_decide.
  - destruct (entitiesID al !! d) eqn:Hl; [by intros [= <- <-]|].
    simpl. intros [= <- <-] Hb. case_bool_decide.
    + by apply (lookup_registered_addID_exact (set_nextID al d)).
    + by apply lookup_registered_addID_exact.
  - intros Hrun. by apply (acquire_scan_keeps_record _ _ _ _ _ _ _ _ _ Hrun).
Qed.

End AllocatorRegistration.

(** ** What a successful [updateFrontend] establishes *)

Section Settling.

Context {E : Env} {HE : EnvOK E}.

#[local] Instance same_book_stable : Stable same_book.
Proof.
  split; unfold same_book.
  - done.
  - intros s1 s2 s3 H12 H23. congruence.
  - done.
Qed.

#[local] Instance svc_kept_stable : Stable svc_kept.
Proof.
  split; unfold svc_kept.
  - done.
  - intros s1 s2 s3 H12 H23. congruence.
  - done.
Qed.

#[local] Instance grows_stable : Stable grows.
Proof.
  split; unfold grows.
  - done.
  - intros s1 s2 s3 [H12 K12] [H23 K23]. split; [congruence | auto].
  - done.
Qed.

Lemma same_book_fields s s' :
  same_book s s' →
  serviceIDAlloc s' = serviceIDAlloc s ∧
  backendIDAlloc s' = backendIDAlloc s ∧
  backendStates s' = backendStates s ∧
  backendReferences s' = backendReferences s.
Proof. unfold same_book, bookkeeping. intros [=]. done. Qed.

Lemma backend_settled_book s s' be :
  same_book s s' → backend_settled s be → backend_settled s' be.
Proof.
  intros Hb. apply same_book_fields in Hb as (_ & Hal & Hst & _).
  unfold backend_settled. by rewrite Hal, Hst.
Qed.

Lemma same_book_grows s s' : same_book s s' → grows s s'.
Proof.
  intros Hb. split.
  - by apply same_book_fields in Hb as (? & _).
  - intros be. by apply backend_settled_book.
Qed.

Lemma id_known_book s s' a i :
  same_book s s' → id_known s a i → id_known s' a i.
Proof.
  intros Hb. apply same_book_fields in Hb as (_ & Hal & Hst & _).
  unfold id_known. by rewrite Hal, Hst.
Qed.

Lemma acquireServiceID_spec fuel a s :
  wlp (acquireServiceID fuel a)
      (λ s1 r, ∀ i, r = Ok i →
         ∃ rec, lookup_registered StringID (serviceIDAlloc s1) a = Some rec ∧
                id_ID rec = i) s.
Proof.
  intros s1 r. unfold acquireServiceID.
  destruct (acquireLocalID _ _ _ _ _) as [[al r']|] eqn:Hacq; [|done].
  intros [= <- <-] i ->. simpl. by eapply acquireLocalID_registered.
Qed.

Lemma acquireBackendID_spec fuel a s :
  wlp (acquireBackendID fuel a)
      (λ s1 r, grows s s1 ∧ backendStates s1 = backendStates s ∧
               ∀ i, r = Ok i → registered (backendIDAlloc s1) a) s.
Proof.
  intros s1 r. unfold acquireBackendID.
  destruct (acquireLocalID _ _ _ _ _) as [[al r']|] eqn:Hacq; [|done].
  intros [= <- <-]. split_and!.
  - split; [done|]. intros be [Hrev Hid]. split; [done|].
    destruct Hid as [Hid|Hreg]; [by left|]. right. simpl.
    by eapply acquireLocalID_keeps_registered.
  - done.
  - intros i ->. simpl. unfold registered.
    destruct (acquireLocalID_registered _ _ _ _ _ _ _ Hacq) as (rec & -> & _).
    by eexists.
Qed.

(** The ID step of the backend loop. *)
Lemma backendID_step fuel a s :
  wlp (match backendStates s !! a with
       | Some st =>
           if bool_decide (id st ≠ 0) then ret (id st)
           else acquireBackendID fuel a
       | None => acquireBackendID fuel a
       end)
      (λ s1 r, grows s s1 ∧ backendStates s1 = backendStates s ∧
               ∀ i, r = Ok i → id_known s1 a i) s.
Proof.
  destruct (backendStates s !! a) as [st|] eqn:Hst.
  - case_bool_decide as Hid.
    + apply wlp_ret. split_and!; [apply stable_refl | done |].
      intros i [= <-]. left. by exists st.
    + eapply wlp_conseq; [apply acquireBackendID_spec|].
      intros s1 r (Hg & Hs & Hreg). split_and!; [done..|].
      intros i Hi. right. split; [|by eapply Hreg].
      rewrite Hs, Hst. intros st' [= <-].
      destruct (decide (id st = 0)); [done | by destruct Hid].
  - eapply wlp_conseq; [apply acquireBackendID_spec|].
    intros s1 r (Hg & Hs & Hreg). split_and!; [done..|].
    intros i Hi. right. split; [|by eapply Hreg].
    rewrite Hs, Hst. by intros st' [=].
Qed.

(** Recording the revision of a backend that was just written. *)
Lemma updateBackendRevision_settles s be beID :
  id_known s (bwr_addr be) beID →
  revision (stateOf (backendStates s) (bwr_addr be)) < Revision be →
  grows s (updateBackendRevision beID (bwr_addr be) (Revision be) s) ∧
  backend_settled
    (updateBackendRevision beID (bwr_addr be) (Revision be) s) be.
Proof.
  intros Hid Hstale. split.
  - split; [done|]. intros be' [Hrev' Hid'].
    unfold backend_settled, updateBackendRevision, stateOf in *. simpl.
    destruct (decide (bwr_addr be' = bwr_addr be)) as [Heq|Hne].
    + rewrite Heq in *. rewrite lookup_insert_eq. simpl. split; [lia|].
      destruct Hid' as [(st & Hst & Hnz)|Hreg]; [|by right].
      left. eexists. split; [done|]. simpl.
      destruct Hid as [(st' & Hst' & Hnz' & ->)|[Hz _]].
      * congruence.
      * by apply Hz in Hst.
    + rewrite lookup_insert_ne by done. done.
  - unfold backend_settled, updateBackendRevision, stateOf. simpl.
    rewrite lookup_insert_eq. simpl. split; [lia|].
    destruct Hid as [(st' & Hst' & Hnz' & ->)|[_ Hreg]].
    + left. eexists. split; [done|]. done.
    + by right.
Qed.

Lemma not_stale_settled s be beID :
  id_known s (bwr_addr be) beID →
  ¬ revision (stateOf (backendStates s) (bwr_addr be)) < Revision be →
  backend_settled s be.
Proof.
  intros Hid Hrev. split; [lia|].
  destruct Hid as [(st & Hst & Hnz & _)|[_ Hreg]]; [left; by exists st | by right].
Qed.

Lemma updateBackend_settles fuel feID k v svc i be s :
  wlp (updateBackend fuel feID k v svc i be)
      (λ s' r, grows s s' ∧ (r = Ok tt → backend_settled s' be)) s.
Proof.
  unfold updateBackend. apply wlp_bind, wlp_gets. apply wlp_bind.
  eapply wlp_conseq; [apply backendID_step|].
  intros s1 [beID|e] (Hg1 & Hst1 & Hid); [|done].
  specialize (Hid beID eq_refl).
  apply wlp_bind, wlp_gets. apply wlp_bind.
  (* the backend row and its revision *)
  assert (Hrow : wlp
    (if needsUpdate (bwr_addr be) (Revision be) s1
     then bind (wrapping (Wrap "upsert backend")
                  (upsertBackend beID (bwr_Backend be)))
               (λ _, modify (updateBackendRevision beID (bwr_addr be)
                               (Revision be)))
     else ret tt)
    (λ s2 r, grows s1 s2 ∧ (r = Ok tt → backend_settled s2 be)) s1).
  { unfold needsUpdate. case_bool_decide as Hstale.
    - apply wlp_bind, wlp_wrapping.
      eapply wlp_conseq;
        [apply (keeps_upsertBackend same_book beID (bwr_Backend be) s1)|].
      intros s1' [[]|e] Hb; [|split; [by apply same_book_grows | done]].
      apply wlp_modify.
      pose proof (same_book_fields _ _ Hb) as (_ & _ & Hst' & _).
      destruct (updateBackendRevision_settles s1' be beID) as [Hg Hs].
      { by eapply id_known_book. }
      { by rewrite Hst'. }
      split; [|done].
      eapply stable_trans; [by apply same_book_grows | done].
    - apply wlp_ret. split; [apply stable_refl|]. intros _.
      by eapply not_stale_settled. }
  eapply wlp_conseq; [apply Hrow|]. clear Hrow.
  intros s2 [[]|e] [Hg2 Hs2];
    [|split; [by eapply stable_trans | done]].
  specialize (Hs2 eq_refl).
  (* the rest only talks to the driver *)
  assert (Hrest : keeps same_book
    (bind (if bool_decide (bwr_State be = BackendStateActive)
           then wrapping (Wrap "upsert service")
                  (upsertService (SetBackendSlot k (i + 1))
                                 (SetRevNat (SetBackendID v beID) feID))
           else ret tt)
          (λ _, if SessionAffinity svc &&
                   bool_decide (bwr_State be = BackendStateActive)
                then wrapping (Wrap "upsert affinity match")
                       (upsertAffinityMatch feID beID)
                else wrapping (Wrap "delete affinity match")
                       (deleteAffinityMatch feID beID)))).
  { apply (keeps_bind same_book).
    - case_bool_decide; [|apply (keeps_ret same_book)].
      apply (keeps_wrapping same_book), (keeps_upsertService same_book).
    - intros _. destruct (_ && _); apply (keeps_wrapping same_book);
        [apply (keeps_upsertAffinityMatch same_book)
        |apply (keeps_deleteAffinityMatch same_book)]. }
  eapply wlp_conseq; [apply Hrest|]. simpl. intros s3 r Hb.
  split.
  - eapply stable_trans; [exact Hg1|].
    eapply stable_trans; [exact Hg2 | by apply same_book_grows].
  - intros _. by eapply backend_settled_book.
Qed.

Lemma updateBackends_settles fuel feID k v svc i bes s :
  wlp (updateBackends fuel feID k v svc i bes)
      (λ s' r, grows s s' ∧ (r = Ok tt → Forall (backend_settled s') bes)) s.
Proof.
  revert i s. induction bes as [|be bes IH]; intros i s; simpl.
  { apply wlp_ret. split; [apply stable_refl | done]. }
  apply wlp_bind. eapply wlp_conseq; [apply updateBackend_settles|].
  intros s1 [[]|e] [Hg1 Hs1]; [|done].
  eapply wlp_conseq; [apply IH|]. simpl. intros s2 r [Hg2 Hs2]. split.
  - by eapply stable_trans.
  - intros Hr. constructor; [|by apply Hs2].
    destruct Hg2 as [_ Hkeep]. by apply Hkeep, Hs1.
Qed.

Lemma svc_kept_reconcile_orphans feID orphans :
  keeps svc_kept (forM orphans (deleteOrphan feID)).
Proof.
  apply (keeps_forM svc_kept). intros o.
  apply (keeps_bind svc_kept).
  { apply (keeps_wrapping svc_kept), (keeps_deleteBackend svc_kept). }
  intros _. apply (keeps_bind svc_kept).
  { apply (keeps_wrapping svc_kept), (keeps_deleteAffinityMatch svc_kept). }
  intros _. by apply (keeps_modify svc_kept).
Qed.

Lemma upsertRevNat_spec feID k v s :
  wlp (upsertRevNat feID k v)
      (λ s' r, same_book s s' ∧ (r = Ok tt → uint16 feID ≠ 0)) s.
Proof.
  unfold upsertRevNat. simpl. case_bool_decide as Hz.
  - apply wlp_fail. split; [apply stable_refl | done].
  - apply wlp_bind, wlp_call. intros d r. apply wlp_check.
    destruct r; (split; [apply stable_dp | done]).
Qed.

(** What [reconcileFrontend] has established when it succeeds. *)
Lemma reconcileFrontend_settles fuel fe s :
  wlp (reconcileFrontend fuel fe)
      (λ s' r, r = Ok tt →
         (∃ rec, lookup_registered StringID (serviceIDAlloc s') (Address fe)
                 = Some rec ∧ uint16 (id_ID rec) ≠ 0) ∧
         Forall (backend_settled s') (sortedBackends (Backends fe))) s.
Proof.
  unfold reconcileFrontend. apply wlp_bind, wlp_wrapping.
  eapply wlp_conseq; [apply acquireServiceID_spec|].
  intros s1 [feID|e] Hreg; [|done].
  destruct (Hreg feID eq_refl) as (rec & Hrec & Hid). clear Hreg.
  apply wlp_bind, wlp_gets. apply wlp_bind.
  eapply wlp_conseq; [apply svc_kept_reconcile_orphans|].
  intros s2 [[]|e] Hk2; [|done]. simpl in Hk2.
  apply wlp_bind. eapply wlp_conseq; [apply updateBackends_settles|].
  intros s3 [[]|e] [[Hk3 _] Hall]; [|done]. specialize (Hall eq_refl).
  apply wlp_bind, wlp_gets. apply wlp_bind, wlp_wrapping.
  eapply wlp_conseq; [apply upsertRevNat_spec|].
  intros s4 [[]|e] [Hb4 Hnz]; [|done]. specialize (Hnz eq_refl).
  apply wlp_bind, wlp_wrapping.
  eapply wlp_conseq;
    [apply (keeps_upsertMaster same_book _ _ fe _ s4)|].
  intros s5 [[]|e] Hb5; [|done]. simpl in Hb5.
  apply wlp_wrapping.
  eapply wlp_conseq; [apply (keeps_cleanupSlots same_book _ _ _ s5)|].
  intros s6 [[]|e] Hb6; [|done]. simpl in Hb6. intros _.
  assert (Hb : same_book s3 s6).
  { eapply stable_trans; [exact Hb4|]. by eapply stable_trans. }
  split.
  - exists rec. split; [|by rewrite Hid].
    apply same_book_fields in Hb as (-> & _). unfold svc_kept in Hk2.
    by rewrite Hk3, Hk2.
  - eapply Forall_impl; [exact Hall|]. intros be.
    by apply backend_settled_book.
Qed.

End Settling.

(** ** Reconciling a settled frontend again *)

Section Replay.

Context {E : Env}.


Lemma set_backendIDAlloc_same s : set_backendIDAlloc s (backendIDAlloc s) = s.
Proof. by destruct s. Qed.


Lemma acquireBackendID_registered fuel a s :
  registered (backendIDAlloc s) a →
  ∃ i, acquireBackendID fuel a s = Some (s, Ok i).
Proof.
  intros [rec Hreg]. exists (id_ID rec). unfold acquireBackendID.
  rewrite (acquireLocalID_early _ _ _ _ _ _ Hreg).
  by rewrite set_backendIDAlloc_same.
Qed.

Lemma replays_eq {A} W W' (m : M A) s : W = W' → replays W m s → replays W' m s.
Proof. by intros ->. Qed.

Lemma replays_ret {A} (a : A) s : replays [] (ret a) s.
Proof.
  exists s, (Ok a), []. rewrite app_nil_r. split_and!; [done..|].
  left. split; [by eexists | done].
Qed.


Lemma replays_bind {A B} W1 W2 (m : M A) (k : A → M B) s :
  replays W1 m s →
  (∀ s1 a, m s = Some (s1, Ok a) → same_book s s1 → replays W2 (k a) s1) →
  replays (W1 ++ W2) (bind m k) s.
Proof.
  intros (s1 & r1 & t1 & Hrun & Hb1 & Ht1 & Hr1) Hk.
  unfold replays, bind. rewrite Hrun.
  destruct Hr1 as [[[a ->] ->]|(W11 & op & e & W12 & e' & -> & -> & ->)].
  - destruct (Hk s1 a Hrun Hb1) as (s2 & r2 & t2 & Hrun2 & Hb2 & Ht2 & Hr2).
    exists s2, r2, ((succeeded <$> W1) ++ t2). split; [done|].
    split; [congruence|]. split; [by rewrite Ht2, Ht1, app_assoc|].
    destruct Hr2 as [[Hok ->]|(W21 & op & e & W22 & e' & -> & -> & ->)].
    + left. split; [done|]. by rewrite fmap_app.
    + right. exists (W1 ++ W21), op, e, W22, e'.
      split_and!; [by rewrite app_assoc | by rewrite fmap_app, app_assoc | done].
  - exists s1, (Fail e'), ((succeeded <$> W11) ++ [(op, Some e)]).
    split_and!; [done..|].
    right. exists W11, op, e, (W12 ++ W2), e'.
    split_and!; [by rewrite <- app_assoc | done..].
Qed.


Lemma replays_call {A} op (k : option error → M A) s :
  (∀ s1, ∃ a, k None s1 = Some (s1, Ok a)) →
  (∀ e s1, ∃ e', k (Some e) s1 = Some (s1, Fail e')) →
  replays [op] (bind (call op) k) s.
Proof.
  intros Hnone Hsome. unfold replays, bind, call.
  destruct (exec op (dp s)) as [d [e|]].
  - destruct (Hsome e (set_dp s d (trace s ++ [(op, Some e)]))) as [e' ->].
    eexists _, _, _. split_and!; [done..|].
    right. by exists [], op, e, [], e'.
  - destruct (Hnone (set_dp s d (trace s ++ [(op, None)]))) as [a ->].
    eexists _, _, _. split_and!; [done..|].
    left. split; [by eexists | done].
Qed.

Lemma replays_call_check op w s :
  replays [op] (bind (call op) (λ err, check w err)) s.
Proof. apply replays_call; intros; by eexists. Qed.

Lemma replays_forM {A} (f : A → list dpop) (l : list A) (body : A → M unit) s :
  (∀ x s1, x ∈ l → same_book s s1 → replays (f x) (body x) s1) →
  replays (concat (f <$> l)) (forM l body) s.
Proof.
  revert s. induction l as [|x l IH]; intros s Hbody; simpl.
  - apply replays_ret.
  - apply replays_bind; [apply Hbody; [by left | done]|].
    intros s1 _ _ Hb1. apply IH. intros y s2 Hy Hb2.
    apply Hbody; [by right|]. unfold same_book in *. congruence.
Qed.

Lemma replays_forM_calls {A} (f : A → dpop) w (l : list A) s :
  replays (f <$> l)
          (forM l (λ x, bind (call (f x)) (λ err, check w err))) s.
Proof.
  apply (replays_eq (concat ((λ x, [f x]) <$> l))).
  { induction l; simpl; [done | by f_equal]. }
  apply replays_forM. intros. apply replays_call_check.
Qed.




Lemma replays_cleanupSlots k old new s :
  replays ((λ i, SilentDeleteService (SetBackendSlot k (i + 1)))
             <$> seqZ new (old - new))
          (cleanupSlots k old new) s.
Proof. apply replays_forM_calls. Qed.











End Replay.

Section Idempotence.

Context {E : Env} {HE : EnvOK E}.

Lemma updateReferences_fields f B s :
  dp (updateReferences f B s) = dp s ∧
  trace (updateReferences f B s) = trace s ∧
  serviceIDAlloc (updateReferences f B s) = serviceIDAlloc s ∧
  restoredServiceIDs (updateReferences f B s) = restoredServiceIDs s ∧
  backendIDAlloc (updateReferences f B s) = backendIDAlloc s ∧
  restoredBackendIDs (updateReferences f B s) = restoredBackendIDs s ∧
  nodePortAddrs (updateReferences f B s) = nodePortAddrs s ∧
  backendStates (updateReferences f B s)
  = backendStates (updateBackendRefCounts f B s).
Proof.
  unfold updateReferences, updateBackendRefCounts. simpl.
  by destruct (match backendReferences s !! f with
               | Some oldRefs => _ | None => _ end).
Qed.

Lemma updateReferences_settled f B s be :
  backend_settled s be → backend_settled (updateReferences f B s) be.
Proof.
  intros [Hrev Hid].
  destruct (updateReferences_fields f B s)
    as (_ & _ & _ & _ & Hal & _ & _ & Hst).
  unfold backend_settled, stateOf in *. rewrite Hal, Hst.
  rewrite updateBackendRefCounts_lookup.
  case_bool_decide; [|case_bool_decide].
  - unfold enter_one. simpl. split; [done|].
    destruct Hid as [(st & Hs & Hnz)|Hreg]; [|by right].
    left. eexists. split; [done|]. simpl. by rewrite Hs.
  - destruct (backendStates s !! bwr_addr be) as [st|] eqn:Hs; simpl.
    + split; [by case_bool_decide|].
      destruct Hid as [(st' & [= <-] & Hnz)|Hreg]; [|by right].
      left. eexists. split; [done|]. by case_bool_decide.
    + split; [done|]. destruct Hid as [(st' & [=] & _)|Hreg]. by right.
  - done.
Qed.

(** A successful [updateFrontend] leaves its frontend settled. *)
Lemma updateFrontend_settles fuel fe s s' :
  updateFrontend fuel fe s = Some (s', Ok tt) → settled fe s'.
Proof.
  unfold updateFrontend, bind.
  destruct (reconcileFrontend fuel fe s) as [[s4 [[]|e]]|] eqn:Hrun; [|done..].
  intros [= <-].
  destruct (reconcileFrontend_settles fuel fe s s4 _ Hrun eq_refl)
    as [(rec & Hrec & Hnz) Hall].
  destruct (updateReferences_fields (Address fe)
              (backendAddrsOf (sortedBackends (Backends fe))) s4)
    as (_ & _ & Hsvc & _).
  split_and!.
  - exists rec. by rewrite Hsvc.
  - rewrite backendReferences_updateReferences, lookup_insert_eq.
    by rewrite backendAddrsOf_sorted.
  - apply Forall_forall. intros be Hbe. apply updateReferences_settled.
    rewrite Forall_forall in Hall. apply Hall.
    by rewrite sortedBackends_perm.
Qed.

Lemma orphanBackends_unchanged_set f B s :
  backendReferences s !! f = Some B → orphanBackends f B s = [].
Proof.
  intros Hrefs. unfold orphanBackends. rewrite Hrefs.
  apply elem_of_nil_inv. intros st Hin.
  apply orphan_fold_spec in Hin as [Hnil|(a & Ha & Hna & _)].
  - by apply elem_of_nil in Hnil.
  - by apply elem_of_rangeSet in Ha.
Qed.

Lemma updateReferences_unchanged_set f B s :
  backendReferences s !! f = Some B →
  bookkeeping (updateReferences f B s) = bookkeeping s.
Proof.
  intros Hrefs.
  destruct (updateReferences_fields f B s)
    as (_ & _ & H1 & H2 & H3 & H4 & H5 & Hst).
  unfold bookkeeping. rewrite H1, H2, H3, H4, H5, Hst.
  rewrite backendReferences_updateReferences, (insert_id _ _ _ Hrefs).
  assert (backendStates (updateBackendRefCounts f B s) = backendStates s)
    as ->; [|done].
  apply map_eq. intros a.
  rewrite updateBackendRefCounts_lookup.
  rewrite (membership_lookup _ _ _ Hrefs).
  rewrite !bool_decide_false; [done | by intros [? ?]..].
Qed.



End Idempotence.


(** ** The per-node expansion *)

Section NodePortExpansion.

Context {E : Env}.

(** [Update] skips a node address of the other family in both of its
    loops. *)
Lemma updateNodeAddr_other_family fuel fe old a s :
  IsIPv6 (Address fe) ≠ netip.Is6 a →
  updateNodeAddr fuel (fe, old) a s = Some (s, Ok (fe, old)).
Proof. intros Hne. unfold updateNodeAddr. by rewrite bool_decide_true. Qed.


(** The frontend variable keeps its family through the loops of
    [Update]. *)
Lemma updateNodeAddr_family fuel fe old a s s' fe' old' :
  updateNodeAddr fuel (fe, old) a s = Some (s', Ok (fe', old')) →
  IsIPv6 (Address fe') = IsIPv6 (Address fe).
Proof.
  unfold updateNodeAddr. case_bool_decide as Hfam.
  - by intros [= _ <- _].
  - unfold bind. destruct (updateFrontend _ _ _) as [[s1 [[]|e]]|]; [|done..].
    intros [= _ <- _].
    destruct (decide (IsIPv6 (Address fe) = netip.Is6 a)) as [Heq|Hne];
      [|by destruct Hfam].
    by rewrite Heq.
Qed.

(** [Delete] has no such test: it deletes the frontend of every recorded
    node address. *)
Lemma deleteRecordedAddr_any_family fe a s :
  deleteRecordedAddr fe a s
  = bind (deleteFrontend (with_AddrCluster fe (AddrClusterFrom a 0)))
         (λ _, ret (with_AddrCluster fe (AddrClusterFrom a 0))) s.
Proof. done. Qed.

End NodePortExpansion.

(** ** Relations kept by [reconcileFrontend] *)

Section KeepsReconcile.

Context {E : Env} (P : relation bpfOps) {HP : Stable P}.

Hypothesis P_acquireServiceID : ∀ fuel a, keeps P (acquireServiceID fuel a).
Hypothesis P_acquireBackendID : ∀ fuel a, keeps P (acquireBackendID fuel a).
Hypothesis P_releaseBackend : ∀ i a s, P s (releaseBackend i a s).
Hypothesis P_updateBackendRevision :
  ∀ i a r s, P s (updateBackendRevision i a r s).

Lemma keeps_deleteOrphan feID o : keeps P (deleteOrphan feID o).
Proof.
  apply (keeps_bind P); [by apply (keeps_wrapping P), (keeps_deleteBackend P)|].
  intros _.
  apply (keeps_bind P);
    [by apply (keeps_wrapping P), (keeps_deleteAffinityMatch P)|].
  intros _. by apply (keeps_modify P).
Qed.

Lemma keeps_updateBackend fuel feID k v svc i be :
  keeps P (updateBackend fuel feID k v svc i be).
Proof.
  apply (keeps_bind P); [by apply (keeps_gets P)|]. intros known.
  apply (keeps_bind P).
  { destruct known as [st|]; [case_bool_decide|];
      first [by apply (keeps_ret P) | apply P_acquireBackendID]. }
  intros beID. apply (keeps_bind P); [by apply (keeps_gets P)|]. intros stale.
  apply (keeps_bind P).
  { destruct stale; [|by apply (keeps_ret P)].
    apply (keeps_bind P);
      [by apply (keeps_wrapping P), (keeps_upsertBackend P)|].
    intros _. by apply (keeps_modify P). }
  intros _. apply (keeps_bind P).
  { case_bool_decide; [|by apply (keeps_ret P)].
    by apply (keeps_wrapping P), (keeps_upsertService P). }
  intros _. destruct (_ && _); apply (keeps_wrapping P);
    [by apply (keeps_upsertAffinityMatch P)
    |by apply (keeps_deleteAffinityMatch P)].
Qed.

Lemma keeps_updateBackends fuel feID k v svc i bes :
  keeps P (updateBackends fuel feID k v svc i bes).
Proof.
  revert i. induction bes as [|be bes IH]; intros i; simpl.
  - by apply (keeps_ret P).
  - apply (keeps_bind P); [apply keeps_updateBackend | by intros _].
Qed.

Lemma keeps_reconcileFrontend fuel fe : keeps P (reconcileFrontend fuel fe).
Proof.
  apply (keeps_bind P).
  { apply (keeps_wrapping P), P_acquireServiceID. }
  intros feID. apply (keeps_bind P); [apply (keeps_gets P)|].
  intros orphans. apply (keeps_bind P).
  { apply (keeps_forM P). intros o. apply keeps_deleteOrphan. }
  intros _. apply (keeps_bind P); [apply keeps_updateBackends|].
  intros _. apply (keeps_bind P); [apply (keeps_gets P)|].
  intros n. apply (keeps_bind P).
  { apply (keeps_wrapping P), (keeps_upsertRevNat P). }
  intros _. apply (keeps_bind P).
  { apply (keeps_wrapping P), (keeps_upsertMaster P). }
  intros _.
  apply (keeps_wrapping P), (keeps_cleanupSlots P).
Qed.

End KeepsReconcile.

(** ** [Update] after a successful [Update] *)

Section UpdateAgain.

Context {E : Env} {HE : EnvOK E}.

#[local] Instance carried_stable : Stable carried.
Proof.
  split; unfold carried.
  - done.
  - intros s1 s2 s3 [H12 R12] [H23 R23]. split; [congruence|].
    intros a rec Ha. by apply R23, R12.
  - done.
Qed.

Lemma carried_updateFrontend fuel fe : keeps carried (updateFrontend fuel fe).
Proof.
  apply (keeps_bind carried).
  - apply (keeps_reconcileFrontend carried).
    + intros fuel' a s s' r. unfold acquireServiceID.
      destruct (acquireLocalID _ _ _ _ _) as [[al r']|] eqn:Hacq; [|done].
      intros [= <- <-]. split; [done|]. intros b rec. simpl.
      by apply (acquireLocalID_keeps_record _ _ _ _ _ _ _ _ _ Hacq).
    + intros fuel' a s s' r. unfold acquireBackendID.
      destruct (acquireLocalID _ _ _ _ _) as [[al r']|]; [|done].
      by intros [= <- <-].
    + done.
    + done.
  - intros _. apply (keeps_modify carried). intros s.
    destruct (updateReferences_fields (Address fe)
                (backendAddrsOf (sortedBackends (Backends fe))) s)
      as (_ & _ & Hsvc & _ & _ & _ & Hnp & _).
    split; [done|]. by rewrite Hsvc.
Qed.





















End UpdateAgain.


(** The condition on the node addresses is needed: when the first
    [Update] deletes the frontend of a stale node address that is the
    address of the frontend itself, the second [Update] creates the
    frontend again and writes its backend. *)
Lemma Update_after_stale_node_address :
  @Update demoE 4 ownNodeAddrGone staleState0 = Some (staleState1, Ok tt) ∧
  @staleNodeAddrs demoE ownNodeAddrGone staleState0 = [netip.V4 10] ∧
  @Update demoE 4 ownNodeAddrGone staleState1 = Some (staleState2, Ok tt) ∧
  take (length (trace staleState1)) (trace staleState2) = trace staleState1 ∧
  op_name <$> calls_since staleState1 staleState2
  = ["UpdateBackend"; "UpdateService"; "UpdateRevNat"; "UpdateService"].
Proof.
  split_and!.
  - apply (run_eq staleState0). vm_compute. reflexivity.
  - vm_compute. reflexivity.
  - apply (run_eq staleState1). vm_compute. reflexivity.
  - vm_compute. reflexivity.
  - vm_compute. reflexivity.
Qed.

(** C10 on a dual-stack NodePort service: both frontends were reconciled,
    then the IPv4 one is deleted.  [Delete] also issues deletes for the
    service and reverse NAT entries of the IPv6 node address and drops its
    membership and its service ID, although the IPv6 frontend is still
    there. *)
Theorem Delete_crosses_families :
  let node6 := v6 11 30000 "TCP" in
  IsIPv6 (Address nodePort4) = false ∧
  is_Some (backendReferences dualStackState !! Address nodePort6) ∧
  is_Some (backendReferences dualStackState !! node6) ∧
  @Delete demoE nodePort4 dualStackState = Some (afterDelete4, Ok tt) ∧
  take (length (trace dualStackState)) (trace afterDelete4)
  = trace dualStackState ∧
  existsb (deletes_service node6 0) (calls_since dualStackState afterDelete4)
  = true ∧
  existsb (λ op, bool_decide (entry_family op = Some true))
          (calls_since dualStackState afterDelete4) = true ∧
  is_Some (backendReferences afterDelete4 !! Address nodePort6) ∧
  backendReferences afterDelete4 !! node6 = None ∧
  lookup_registered demoStringID (serviceIDAlloc afterDelete4) node6 = None.
Proof.
  split_and!.
  - reflexivity.
  - apply (bool_decide_eq_true_1 _). vm_compute. reflexivity.
  - apply (bool_decide_eq_true_1 _). vm_compute. reflexivity.
  - apply (run_eq dualStackState). vm_compute. reflexivity.
  - vm_compute. reflexivity.
  - vm_compute. reflexivity.
  - vm_compute. reflexivity.
  - apply (bool_decide_eq_true_1 _). vm_compute. reflexivity.
  - vm_compute. reflexivity.
  - vm_compute. reflexivity.
Qed.

(** ** The outcomes of the scan of the allocator *)

Section AllocatorScan.

Variable key : L3n4Addr → string.

Lemma acquire_scan_full_at_init n svc roll al :
  bounds_ok al → alloc_full al →
  (nextID al = initNextID al ∧ roll = false) ∨
  (initNextID al < nextID al <= maxID al) →
  acquire_scan key n svc (initNextID al) roll al = None.
Proof.
  intros (Hi & Him & Hm) Hfull. revert roll al Hi Him Hm Hfull.
  induction n as [|n IH]; intros roll al Hi Him Hm Hfull Hcur; [done|].
  simpl.
  assert (bool_decide (nextID al = initNextID al) && roll = false) as ->.
  { destruct Hcur as [[_ ->]|Hcur]; [by rewrite andb_false_r|].
    rewrite bool_decide_false by lia. done. }
  case_bool_decide as Hmax; simpl.
  - destruct (Hfull (initNextID al)) as [rec ->]; [lia|].
    apply (IH true (set_nextID (set_nextID al (initNextID al))
                      (wrap32 (initNextID al + 1)))); simpl; try done.
    right. rewrite wrap32_small by lia. lia.
  - destruct (Hfull (nextID al)) as [rec ->]; [lia|].
    apply (IH roll (set_nextID al (wrap32 (nextID al + 1)))); simpl; try done.
    right. rewrite wrap32_small by lia. lia.
Qed.

(** A full allocator whose cursor is past [initNextID]: the scan comes
    back to where it started and gives up. *)
Lemma acquire_scan_full n k svc start roll al :
  bounds_ok al → alloc_full al →
  initNextID al < start <= maxID al →
  (roll = false ∧ start <= nextID al <= maxID al ∧
   Z.of_nat k = (maxID al - nextID al) + (start - initNextID al)) ∨
  (roll = true ∧ initNextID al < nextID al <= start ∧
   Z.of_nat k = start - nextID al) →
  (k < n)%nat →
  acquire_scan key n svc start roll al
  = Some (set_nextID al start, Fail (Errorf "no service ID available" [])).
Proof.
  intros (Hi & Him & Hm) Hfull. revert n roll al Hi Him Hm Hfull.
  induction k as [k IH] using lt_wf_ind.
  intros n roll al Hi Him Hm Hfull Hstart Hcur Hk.
  destruct n as [|n]; [lia|]. simpl.
  destruct Hcur as [(-> & Hn & Hkz)|(-> & Hn & Hkz)].
  - rewrite andb_false_r. case_bool_decide as Hmax; simpl.
    + destruct (Hfull (initNextID al)) as [rec ->]; [lia|].
      rewrite (IH (Z.to_nat (start - (initNextID al + 1)))); simpl.
      * done.
      * lia.
      * done.
      * done.
      * done.
      * done.
      * done.
      * right. rewrite wrap32_small by lia. split_and!; [done|lia|lia|lia].
      * lia.
    + destruct (Hfull (nextID al)) as [rec ->]; [lia|].
      rewrite (IH (k - 1)%nat); simpl; [done|lia|done..| |lia].
      left. rewrite wrap32_small by lia. split_and!; [done|lia|lia|lia].
  - rewrite andb_true_r. case_bool_decide as Hs.
    + rewrite <- Hs. by destruct al.
    + rewrite bool_decide_false by lia.
      destruct (Hfull (nextID al)) as [rec ->]; [lia|].
      rewrite (IH (k - 1)%nat); simpl; [done|lia|done..| |lia].
      right. rewrite wrap32_small by lia. split_and!; [done|lia|lia|lia].
Qed.


Lemma acquire_scan_finds k : ∀ n svc start roll al p g,
  bounds_ok al → initNextID al <= nextID al <= maxID al →
  p = (if bool_decide (nextID al = maxID al) then initNextID al
       else nextID al) →
  p <= g < maxID al → entitiesID al !! g = None →
  Z.of_nat k = g - p →
  ¬ (nextID al = start ∧ roll = true) →
  (∀ q, p < q <= g → q ≠ start) →
  (k < n)%nat →
  ∃ al' i, acquire_scan key n svc start roll al = Some (al', Ok i) ∧
           p <= i <= g ∧ entitiesID al !! i = None.
Proof.
  induction k as [|k IH];
    intros n svc start roll al p g (Hi & Him & Hm) Hn Hp Hg Hfree Hk Hhead Hq Hfuel;
    (destruct n as [|n]; [lia|]); simpl.
  - assert (bool_decide (nextID al = start) && roll = false) as ->.
    { apply andb_false_iff. destruct roll; [left|by right].
      apply bool_decide_false. intros Heq. by apply Hhead. }
    assert (g = p) as -> by lia.
    destruct (bool_decide (nextID al = maxID al)); subst p; simpl;
      rewrite Hfree; simpl; eexists _, _; (split; [done|]); split; [lia|done|lia|done].
  - assert (bool_decide (nextID al = start) && roll = false) as ->.
    { apply andb_false_iff. destruct roll; [left|by right].
      apply bool_decide_false. intros Heq. by apply Hhead. }
    case_bool_decide as Hmax; simpl.
    + destruct (entitiesID al !! initNextID al) as [rec|] eqn:Hslot.
      * destruct (IH n svc start true
                    (set_nextID (set_nextID al (initNextID al))
                       (wrap32 (initNextID al + 1))) (p + 1) g)
          as (al' & i & Hrun & Hi' & Hfi); simpl;
          rewrite ?wrap32_small by lia; try done; try lia.
        -- rewrite bool_decide_false by lia. lia.
        -- intros [Heq _]. apply (Hq (p + 1)); lia.
        -- intros q Hq'. apply Hq. lia.
        -- rewrite wrap32_small in Hrun by lia.
           exists al', i. split; [done|]. split; [lia|done].
      * simpl. eexists _, _. split; [done|]. split; [lia|done].
    + destruct (entitiesID al !! nextID al) as [rec|] eqn:Hslot.
      * destruct (IH n svc start roll
                    (set_nextID al (wrap32 (nextID al + 1))) (p + 1) g)
          as (al' & i & Hrun & Hi' & Hfi); simpl;
          rewrite ?wrap32_small by lia; try done; try lia.
        -- rewrite bool_decide_false by lia. lia.
        -- intros [Heq _]. apply (Hq (p + 1)); lia.
        -- intros q Hq'. apply Hq. lia.
        -- rewrite wrap32_small in Hrun by lia.
           exists al', i. split; [done|]. split; [lia|done].
      * simpl. eexists _, _. split; [done|]. split; [lia|done].
Qed.

Lemma set_nextID_same al : set_nextID al (nextID al) = al.
Proof. by destruct al. Qed.

Lemma acquire_scan_to_max k : ∀ m svc start al,
  bounds_ok al → initNextID al <= nextID al <= maxID al →
  Z.of_nat k = maxID al - nextID al →
  (∃ al' i, acquire_scan key (k + m) svc start false al = Some (al', Ok i) ∧
            nextID al <= i < maxID al ∧ entitiesID al !! i = None) ∨
  acquire_scan key (k + m) svc start false al
  = acquire_scan key m svc start false (set_nextID al (maxID al)).
Proof.
  induction k as [|k IH]; intros m svc start al (Hi & Him & Hm) Hn Hk.
  { right. assert (maxID al = nextID al) as -> by lia.
    by rewrite set_nextID_same. }
  simpl. rewrite andb_false_r. rewrite bool_decide_false by lia.
  destruct (entitiesID al !! nextID al) as [rec|] eqn:Hslot.
  - destruct (IH m svc start (set_nextID al (wrap32 (nextID al + 1))))
      as [(al' & i & Hrun & Hi' & Hfi)|Hrun]; simpl;
      rewrite ?wrap32_small by lia; try done; try lia.
    + left. simpl in Hi'. rewrite wrap32_small in Hrun, Hi' by lia.
      exists al', i. split; [done|]. split; [lia|done].
    + right. rewrite wrap32_small in Hrun by lia. done.
  - left. simpl. eexists _, _. split; [done|]. split; [lia|done].
Qed.


(** X1: when the cursor lies within its bounds and some ID from
    [initNextID] up to [maxID - 1] is free, [acquireLocalID] of an
    unregistered address with no desired ID returns within
    [maxID - initNextID] iterations of its loop; the ID it returns lies in
    that range, was free, and is now registered to the address. *)
Theorem acquireLocalID_succeeds_when_free (fuel : nat) (al : idAllocator)
    (svc : L3n4Addr) (f : Z) :
  cursor_ok al →
  lookup_registered key al svc = None →
  initNextID al <= f < maxID al → entitiesID al !! f = None →
  (Z.to_nat (maxID al - initNextID al) <= fuel)%nat →
  ∃ al' i,
    acquireLocalID key fuel al svc 0 = Some (al', Ok i) ∧
    initNextID al <= i < maxID al ∧
    entitiesID al !! i = None ∧
    ∃ rec, lookup_registered key al' svc = Some rec ∧ id_ID rec = i.
Proof.
  intros (Hi & Him & Hm & Hn) Hreg Hf Hfree Hfuel.
  assert (Hb : bounds_ok al) by done.
  assert (Hscan : ∃ al' i,
    acquire_scan key fuel svc (nextID al) false al = Some (al', Ok i) ∧
    initNextID al <= i < maxID al ∧ entitiesID al !! i = None).
  { set (p := if bool_decide (nextID al = maxID al) then initNextID al
              else nextID al).
    assert (Hp : initNextID al <= p < maxID al).
    { unfold p. case_bool_decide; lia. }
    destruct (decide (p <= f)) as [Hle|Hgt].
    - destruct (acquire_scan_finds (Z.to_nat (f - p)) fuel svc (nextID al)
                  false al p f) as (al' & i & Hrun & Hi' & Hfi);
        try done; try lia.
      + intros q Hq. unfold p in Hq. case_bool_decide; lia.
      + exists al', i. split; [done|]. split; [lia|done].
    - assert (Hnm : nextID al ≠ maxID al).
      { intros Heq. unfold p in Hgt. rewrite bool_decide_true in Hgt by done.
        lia. }
      assert (Hpn : p = nextID al).
      { unfold p. by rewrite bool_decide_false. }
      set (k := Z.to_nat (maxID al - nextID al)).
      assert (Hsplit : fuel = (k + (fuel - k))%nat) by lia.
      rewrite Hsplit.
      destruct (acquire_scan_to_max k (fuel - k) svc (nextID al) al)
        as [(al' & i & Hrun & Hi' & Hfi)|Hrun]; try done; try lia.
      + exists al', i. split; [done|]. split; [lia|done].
      + rewrite Hrun.
        destruct (acquire_scan_finds (Z.to_nat (f - initNextID al))
                    (fuel - k) svc (nextID al) false
                    (set_nextID al (maxID al)) (initNextID al) f)
          as (al' & i & Hrun' & Hi' & Hfi); simpl; try done; try lia.
        * by rewrite bool_decide_true.
        * exists al', i. split; [done|]. split; [lia|done]. }
  destruct Hscan as (al' & i & Hrun & Hrange & Hfi).
  exists al', i. unfold acquireLocalID. rewrite Hreg.
  rewrite bool_decide_false by (intros H; by apply H).
  split; [done|]. split; [done|]. split; [done|].
  apply (acquire_scan_registered key _ _ _ _ _ _ _ Hrun).
Qed.

(** X2: when every ID from [initNextID] up to [maxID - 1] is taken and the
    cursor is past [initNextID], [acquireLocalID] of an unregistered
    address with no desired ID gives up with the error "no service ID
    available" once the scan is back where it started, and leaves the
    allocator as it was. *)
Theorem acquireLocalID_full_fails (fuel : nat) (al : idAllocator)
    (svc : L3n4Addr) :
  cursor_ok al → alloc_full al →
  nextID al ≠ initNextID al →
  lookup_registered key al svc = None →
  (Z.to_nat (maxID al - initNextID al) < fuel)%nat →
  acquireLocalID key fuel al svc 0
  = Some (al, Fail (Errorf "no service ID available" [])).
Proof.
  intros (Hi & Him & Hm & Hn) Hfull Hne Hreg Hfuel.
  unfold acquireLocalID. rewrite Hreg.
  rewrite bool_decide_false by (intros H; by apply H).
  rewrite (acquire_scan_full fuel (Z.to_nat (maxID al - initNextID al)));
    [by rewrite set_nextID_same|done|done|lia| |done].
  left. split_and!; [done|lia|lia|lia].
Qed.

(** X3: when every ID from [initNextID] up to [maxID - 1] is taken and the
    cursor is at [initNextID], as in an allocator that [start] has filled
    with [addID], [acquireLocalID] of an unregistered address with no
    desired ID never returns: after the rollover the cursor is moved past
    [initNextID] before it is compared with the ID the scan started from,
    so the scan goes round for ever. *)
Theorem acquireLocalID_full_at_init_never_returns (fuel : nat)
    (al : idAllocator) (svc : L3n4Addr) :
  cursor_ok al → alloc_full al →
  nextID al = initNextID al →
  lookup_registered key al svc = None →
  acquireLocalID key fuel al svc 0 = None.
Proof.
  intros (Hi & Him & Hm & _) Hfull Hn Hreg. unfold acquireLocalID. rewrite Hreg.
  rewrite bool_decide_false by (intros H; by apply H).
  rewrite Hn at 1. apply acquire_scan_full_at_init; [done..|]. by left.
Qed.

(** X5: an address that has acquired an ID gets the same ID from every
    later [acquireLocalID], whatever ID is desired then, and the allocator
    does not change. *)
Theorem acquireLocalID_again (n n' : nat) (al al' : idAllocator)
    (svc : L3n4Addr) (d d' i : Z) :
  acquireLocalID key n al svc d = Some (al', Ok i) →
  acquireLocalID key n' al' svc d' = Some (al', Ok i).
Proof.
  intros Hacq.
  destruct (acquireLocalID_registered key _ _ _ _ _ _ Hacq) as (rec & Hrec & <-).
  by apply acquireLocalID_early.
Qed.

(** X6: no [acquireLocalID], successful or not, disturbs the registration
    of another address: that address keeps its record, and a later
    [acquireLocalID] of it returns its ID. *)
Theorem acquireLocalID_keeps_others (n m : nat) (al al' : idAllocator)
    (svc b : L3n4Addr) (d d' : Z) (r : outcome Z) (rec : L3n4AddrID) :
  lookup_registered key al b = Some rec →
  acquireLocalID key n al svc d = Some (al', r) →
  lookup_registered key al' b = Some rec ∧
  acquireLocalID key m al' b d' = Some (al', Ok (id_ID rec)).
Proof.
  intros Hb Hacq.
  pose proof (acquireLocalID_keeps_record key _ _ _ _ _ _ _ _ Hacq Hb) as Hb'.
  split; [done|]. by apply acquireLocalID_early.
Qed.

Lemma lookupLocalID_deleteLocalID al a i :
  alloc_inv key al →
  lookupLocalID key al a = Ok i →
  lookupLocalID key (deleteLocalID key al i) a = Fail (Errorf "ID not found" []).
Proof.
  intros Hinv. unfold lookupLocalID at 1.
  destruct (entities al !! key a) as [j|] eqn:Ha; [|done]. intros [= ->].
  destruct (inv_by_key _ _ Hinv _ _ Ha) as (rec & Hrec & Hk).
  unfold deleteLocalID. rewrite Hrec. unfold lookupLocalID. simpl.
  by rewrite Hk, lookup_delete_eq.
Qed.

(** X7: in an allocator whose two maps agree, [deleteLocalID] of the ID
    that [lookupLocalID] returns for an address removes exactly that
    registration: the address is not found afterwards, the ID is free, and
    an address with another key is looked up as before. *)
Theorem deleteLocalID_forgets (al : idAllocator) (a : L3n4Addr) (i : Z) :
  alloc_inv key al →
  lookupLocalID key al a = Ok i →
  lookupLocalID key (deleteLocalID key al i) a = Fail (Errorf "ID not found" []) ∧
  lookup_registered key (deleteLocalID key al i) a = None ∧
  entitiesID (deleteLocalID key al i) !! i = None ∧
  ∀ b, key b ≠ key a →
       lookupLocalID key (deleteLocalID key al i) b = lookupLocalID key al b ∧
       lookup_registered key (deleteLocalID key al i) b = lookup_registered key al b.
Proof.
  intros Hinv. unfold lookupLocalID at 1.
  destruct (entities al !! key a) as [j|] eqn:Ha; [|done]. intros [= ->].
  destruct (inv_by_key _ _ Hinv _ _ Ha) as (rec & Hrec & Hk).
  unfold deleteLocalID. rewrite Hrec. unfold lookupLocalID, lookup_registered.
  simpl. rewrite Hk. rewrite !lookup_delete_eq. split_and!; [done..|].
  intros b Hb. rewrite !lookup_delete_ne by done. split; [done|].
  destruct (entities al !! key b) as [j|] eqn:Hbj; [|done].
  rewrite lookup_delete_ne; [done|]. intros <-.
  apply Hb. symmetry. by apply (inv_unique _ _ Hinv _ _ _ Ha Hbj).
Qed.

End AllocatorScan.

Lemma alloc13_two_full : alloc_full alloc13_two.
Proof.
  intros i Hi.
  assert (Hinit : initNextID alloc13_two = 1) by (vm_compute; reflexivity).
  assert (Hmax : maxID alloc13_two = 3) by (vm_compute; reflexivity).
  rewrite Hinit, Hmax in Hi.
  assert (i = 1 ∨ i = 2) as [-> | ->] by lia; vm_compute; by eexists.
Qed.

Lemma alloc13_adopted_full : alloc_full alloc13_adopted.
Proof.
  intros i Hi. simpl in Hi.
  assert (i = 1 ∨ i = 2) as [-> | ->] by lia; vm_compute; by eexists.
Qed.

Lemma alloc13_one_inv : alloc_inv demoStringID alloc13_one.
Proof.
  apply (alloc_ok_acquireLocalID demoStringID 4 (newIDAllocator 1 3)
           (v4 1 80 "TCP") 0 alloc13_one (Ok 1)).
  - apply alloc_ok_new; lia.
  - simpl. lia.
  - apply (run_eq (newIDAllocator 1 3)). vm_compute. reflexivity.
Qed.

Lemma acquireLocalID_succeeds_when_free_witness :
  ∃ al' i,
    acquireLocalID demoStringID 2 alloc13_released (v4 3 80 "TCP") 0
    = Some (al', Ok i) ∧
    initNextID alloc13_released <= i < maxID alloc13_released ∧
    entitiesID alloc13_released !! i = None ∧
    ∃ rec, lookup_registered demoStringID al' (v4 3 80 "TCP") = Some rec ∧
           id_ID rec = i.
Proof.
  apply (acquireLocalID_succeeds_when_free demoStringID 2 alloc13_released
           (v4 3 80 "TCP") 1).
  - vm_compute. intuition discriminate.
  - vm_compute. reflexivity.
  - vm_compute. intuition discriminate.
  - vm_compute. reflexivity.
  - vm_compute. lia.
Defined.

Lemma acquireLocalID_full_fails_witness :
  acquireLocalID demoStringID 3 alloc13_two (v4 3 80 "TCP") 0
  = Some (alloc13_two, Fail (Errorf "no service ID available" [])).
Proof.
  apply (acquireLocalID_full_fails demoStringID 3 alloc13_two (v4 3 80 "TCP")).
  - vm_compute. intuition discriminate.
  - apply alloc13_two_full.
  - vm_compute. discriminate.
  - vm_compute. reflexivity.
  - vm_compute. lia.
Defined.

Lemma acquireLocalID_full_at_init_never_returns_witness :
  acquireLocalID demoStringID 1000 alloc13_adopted (v4 3 80 "TCP") 0 = None.
Proof.
  apply (acquireLocalID_full_at_init_never_returns demoStringID 1000
           alloc13_adopted (v4 3 80 "TCP")).
  - vm_compute. intuition discriminate.
  - apply alloc13_adopted_full.
  - reflexivity.
  - vm_compute. reflexivity.
Defined.

Lemma acquireLocalID_fresh_not_max_witness : 2 ≠ maxID alloc13_one.
Proof.
  apply (acquireLocalID_fresh_not_max demoStringID 4 alloc13_one
           (v4 2 80 "TCP") alloc13_two 2).
  - vm_compute. reflexivity.
  - vm_compute. discriminate.
  - apply (run_eq alloc13_one). vm_compute. reflexivity.
Defined.

Lemma acquireLocalID_again_witness :
  acquireLocalID demoStringID 0 alloc13_one (v4 1 80 "TCP") 7
  = Some (alloc13_one, Ok 1).
Proof.
  apply (acquireLocalID_again demoStringID 4 0 (newIDAllocator 1 3) alloc13_one
           (v4 1 80 "TCP") 0 7 1).
  apply (run_eq (newIDAllocator 1 3)). vm_compute. reflexivity.
Defined.

Lemma acquireLocalID_keeps_others_witness :
  lookup_registered demoStringID alloc13_two (v4 1 80 "TCP")
  = Some (newID (v4 1 80 "TCP") 1) ∧
  acquireLocalID demoStringID 0 alloc13_two (v4 1 80 "TCP") 0
  = Some (alloc13_two, Ok (id_ID (newID (v4 1 80 "TCP") 1))).
Proof.
  apply (acquireLocalID_keeps_others demoStringID 4 0 alloc13_one alloc13_two
           (v4 2 80 "TCP") (v4 1 80 "TCP") 0 0 (Ok 2)).
  - vm_compute. reflexivity.
  - apply (run_eq alloc13_one). vm_compute. reflexivity.
Defined.

Lemma deleteLocalID_forgets_witness :
  lookupLocalID demoStringID (deleteLocalID demoStringID alloc13_one 1)
    (v4 1 80 "TCP")
  = Fail (Errorf "ID not found" []).
Proof.
  apply (deleteLocalID_forgets demoStringID alloc13_one (v4 1 80 "TCP") 1).
  - apply alloc13_one_inv.
  - vm_compute. reflexivity.
Defined.

(** ** Sorting, counting and committing the backends *)

Section BackendFacts.

Context {E : Env} {HE : EnvOK E}.

Lemma numActive_from_sorted i bes :
  StronglySorted (λ a b, backendLess b a = false) bes →
  numActive_from i bes = i + Z.of_nat (length (activeBackends bes)).
Proof.
  intros Hs. revert i. unfold activeBackends.
  induction Hs as [|be bes Hs IH Hall]; intros i; simpl.
  { lia. }
  case_bool_decide as Hact.
  - rewrite filter_cons_False by done.
    assert (filter (λ be, bwr_State be = BackendStateActive) bes = []) as ->;
      [|simpl; lia].
    apply elem_of_nil_inv. intros b [Hb Hin]%list_elem_of_filter.
    rewrite Forall_forall in Hall. specialize (Hall b Hin).
    unfold backendLess in Hall. rewrite Hb in Hall.
    unfold BackendStateActive in *.
    destruct (bwr_State be) eqn:Hst; [done|].
    done.
  - assert (Heq : bwr_State be = BackendStateActive).
    { destruct (decide (bwr_State be = BackendStateActive)); [done|].
      by destruct Hact. }
    rewrite filter_cons_True by done. rewrite IH. simpl. lia.
Qed.

(** X8: the number of active backends that [updateFrontend] takes from
    [numActive] of the sorted backends, writes as the count of the master
    entry and uses as the first slot to clean up, is the number of
    backends of the frontend in state Active: sorting puts all of them
    first. *)
Theorem numActive_sortedBackends (bes : list BackendWithRevision) :
  numActive (sortedBackends bes) = Z.of_nat (length (activeBackends bes)).
Proof.
  unfold numActive. rewrite numActive_from_sorted by apply sortedBackends_sorted.
  unfold activeBackends. by rewrite sortedBackends_perm.
Qed.

(** X9: the comparison function of [sortedBackends] is a strict weak
    ordering, which is what [sort.Slice] requires of it: it is
    irreflexive and transitive, and being unordered by it is transitive. *)
Theorem backendLess_strict_weak_order : StrictWeakOrder backendLess.
Proof. apply backendLess_swo. Qed.

(** X10: committing the same backend set for a frontend a second time
    changes nothing, no reference count either, and right after a commit
    the committed set has no orphans. *)
Theorem updateReferences_twice (f : L3n4Addr) (B : gset L3n4Addr) (s : bpfOps) :
  updateReferences f B (updateReferences f B s) = updateReferences f B s ∧
  orphanBackends f B (updateReferences f B s) = [].
Proof.
  assert (Hrefs : backendReferences (updateReferences f B s) !! f = Some B).
  { by rewrite backendReferences_updateReferences, lookup_insert_eq. }
  split; [|by apply orphanBackends_unchanged_set].
  pose proof (updateReferences_unchanged_set f B _ Hrefs) as Hb.
  destruct (updateReferences_fields f B (updateReferences f B s))
    as (Hdp & Htr & _).
  unfold bookkeeping in Hb.
  destruct (updateReferences f B (updateReferences f B s)),
           (updateReferences f B s). simpl in *. congruence.
Qed.

(** X11: [cleanupSlots] issues a silent delete for each slot from
    [newCount + 1] up to [oldCount], in increasing order, up to the first
    delete that fails; it succeeds if none fails and touches nothing but
    the driver.  When [oldCount] is not above [newCount] it does
    nothing. *)
Theorem cleanupSlots_calls (k : ServiceKey) (old new : Z) (s : bpfOps) :
  (∃ s' r t,
     cleanupSlots k old new s = Some (s', r) ∧
     bookkeeping s' = bookkeeping s ∧
     trace s' = trace s ++ t ∧
     replayed ((λ i, SilentDeleteService (SetBackendSlot k (i + 1)))
                 <$> seqZ new (old - new)) t r) ∧
  (old <= new → cleanupSlots k old new s = Some (s, Ok tt)).
Proof.
  split; [apply replays_cleanupSlots|].
  intros Hle. unfold cleanupSlots. by rewrite seqZ_nil by lia.
Qed.

(** X12: after a successful [updateFrontend] the address of the frontend
    holds a service ID whose 16-bit reverse NAT index is not 0, its
    membership is the set of the addresses of its backends, and every
    backend has a recorded revision that is not older than the desired
    one and an ID that is recorded or registered. *)
Theorem updateFrontend_success (fuel : nat) (fe : Frontend) (s s' : bpfOps) :
  updateFrontend fuel fe s = Some (s', Ok tt) →
  (∃ rec, lookup_registered StringID (serviceIDAlloc s') (Address fe) = Some rec ∧
          uint16 (id_ID rec) ≠ 0) ∧
  backendReferences s' !! Address fe = Some (backendAddrsOf (Backends fe)) ∧
  ∀ be, be ∈ Backends fe →
        Revision be <= revision (stateOf (backendStates s') (bwr_addr be)) ∧
        ((∃ st, backendStates s' !! bwr_addr be = Some st ∧ id st ≠ 0) ∨
         registered (backendIDAlloc s') (bwr_addr be)).
Proof.
  intros Hrun. destruct (updateFrontend_settles _ _ _ _ Hrun) as (H1 & H2 & H3).
  split; [done|]. split; [done|]. intros be Hbe.
  rewrite Forall_forall in H3. apply (H3 be Hbe).
Qed.

End BackendFacts.

Lemma cleanupSlots_calls_witness :
  @cleanupSlots demoE (NewServiceKey (v4 100 80 "TCP")) 1 2 demoState0
  = Some (demoState0, Ok tt).
Proof.
  apply (@cleanupSlots_calls demoE (NewServiceKey (v4 100 80 "TCP")) 1 2
           demoState0).
  lia.
Defined.

Lemma updateFrontend_success_witness :
  backendReferences
    (state_of demoState0 (@updateFrontend demoE 4 demoFrontend demoState0))
  !! Address demoFrontend
  = Some (backendAddrsOf (Backends demoFrontend)).
Proof.
  apply (@updateFrontend_success demoE (demoEnv_ok false acceptAll) 4
           demoFrontend demoState0).
  apply (run_eq demoState0). vm_compute. reflexivity.
Defined.

Lemma numActive_sortedBackends_witness :
  numActive (@sortedBackends demoE (Backends demoFrontend))
  = Z.of_nat (length (activeBackends (Backends demoFrontend))).
Proof.
  apply (@numActive_sortedBackends demoE (demoEnv_ok false acceptAll)).
Defined.

Lemma updateReferences_twice_witness :
  let s := @updateReferences demoE (Address demoFrontend) {[demoBackend1]}
             demoState0 in
  @updateReferences demoE (Address demoFrontend) {[demoBackend1]} s = s ∧
  @orphanBackends demoE (Address demoFrontend) {[demoBackend1]} s = [].
Proof.
  apply (@updateReferences_twice demoE (demoEnv_ok false acceptAll)).
Defined.

(** ** The recorded node addresses, deletion and pruning *)

Section FrontendFacts.

Context {E : Env} {HE : EnvOK E}.

#[local] Instance np_kept_stable : Stable np_kept.
Proof. split; unfold np_kept; [done | congruence | done]. Qed.

Lemma np_kept_updateFrontend fuel fe : keeps np_kept (updateFrontend fuel fe).
Proof.
  intros s s' r Hrun. by destruct (carried_updateFrontend fuel fe s s' r Hrun).
Qed.

Lemma np_kept_deleteFrontend fe : keeps np_kept (deleteFrontend fe).
Proof.
  apply (keeps_bind np_kept); [apply (keeps_gets np_kept)|].
  intros [feID|e]; [|apply (keeps_ret np_kept)].
  apply (keeps_bind np_kept); [apply (keeps_gets np_kept)|]. intros refs.
  apply (keeps_bind np_kept).
  { apply (keeps_forM np_kept). intros a.
    apply (keeps_bind np_kept); [apply (keeps_gets np_kept)|]. intros beID.
    apply (keeps_wrapping np_kept), (keeps_deleteAffinityMatch np_kept). }
  intros _. apply (keeps_bind np_kept); [apply (keeps_gets np_kept)|].
  intros orphans. apply (keeps_bind np_kept).
  { apply (keeps_forM np_kept). intros o.
    apply (keeps_bind np_kept);
      [apply (keeps_wrapping np_kept), (keeps_deleteBackend np_kept)|].
    intros _. by apply (keeps_modify np_kept). }
  intros _. apply (keeps_bind np_kept); [apply (keeps_gets np_kept)|].
  intros n. apply (keeps_bind np_kept).
  { apply (keeps_forM np_kept). intros i.
    apply (keeps_bind np_kept); [apply (keeps_call np_kept)|]. intros err.
    apply (keeps_check np_kept). }
  intros _. apply (keeps_bind np_kept); [apply (keeps_call np_kept)|].
  intros err. apply (keeps_bind np_kept); [apply (keeps_check np_kept)|].
  intros _. apply (keeps_modify np_kept). intros s. unfold np_kept. simpl.
  unfold updateBackendRefCounts.
  by destruct (match backendReferences s !! Address fe with
               | Some oldRefs => _ | None => _ end).
Qed.

Lemma updateNodeAddrs_recorded fuel addrs cur old s s' r :
  foldM (updateNodeAddr fuel) addrs (cur, old) s = Some (s', r) →
  np_kept s s' ∧
  ∀ cur' old', r = Ok (cur', old') → same_port cur cur'.
Proof.
  revert cur old s. induction addrs as [|a addrs IH]; intros cur old s; simpl.
  { intros [= <- <-]. split; [done|]. by intros ? ? [= <- _]. }
  unfold bind at 1, updateNodeAddr at 1. case_bool_decide; simpl.
  - apply IH.
  - unfold bind at 1.
    destruct (updateFrontend fuel _ s) as [[s1 [[]|e]]|] eqn:Hrun; [| |done].
    + simpl. intros Hrest. apply IH in Hrest as [Hnp Hres].
      pose proof (np_kept_updateFrontend _ _ _ _ _ Hrun) as Hnp1.
      split; [unfold np_kept in *; congruence|].
      intros cur' old' Hr. destruct (Hres _ _ Hr) as [Hp Ha]. by split.
    + intros [= <- <-]. split; [|done].
      apply (np_kept_updateFrontend _ _ _ _ _ Hrun).
Qed.

Lemma deleteNodeAddrs_recorded addrs cur s s' r :
  foldM deleteNodeAddr addrs cur s = Some (s', r) →
  np_kept s s' ∧ ∀ cur', r = Ok cur' → same_port cur cur'.
Proof.
  revert cur s. induction addrs as [|a addrs IH]; intros cur s; simpl.
  { intros [= <- <-]. split; [done|]. by intros ? [= <-]. }
  unfold bind at 1, deleteNodeAddr at 1. case_bool_decide; simpl.
  - apply IH.
  - unfold bind at 1.
    destruct (deleteFrontend _ s) as [[s1 [[]|e]]|] eqn:Hrun; [| |done].
    + simpl. intros Hrest. apply IH in Hrest as [Hnp Hres].
      pose proof (np_kept_deleteFrontend _ _ _ _ Hrun) as Hnp1.
      split; [unfold np_kept in *; congruence|].
      intros cur' Hr. destruct (Hres _ Hr) as [Hp Ha]. by split.
    + intros [= <- <-]. split; [|done].
      apply (np_kept_deleteFrontend _ _ _ _ Hrun).
Qed.

(** X13: [Update] records the node addresses last: a successful [Update]
    of a frontend that is expanded per node address leaves the node
    addresses of the frontend recorded for its port, and changes no other
    record; an [Update] of any other frontend, and an [Update] that
    returns an error, leave the recorded node addresses as they were. *)
Theorem Update_records_node_addresses (fuel : nat) (fe : Frontend)
    (s s' : bpfOps) (r : outcome unit) :
  Update fuel fe s = Some (s', r) →
  nodePortAddrs s'
  = match r with
    | Ok _ =>
        if expandsPerNode fe
        then <[Port (Address fe) := fe_nodePortAddrs fe]> (nodePortAddrs s)
        else nodePortAddrs s
    | Fail _ => nodePortAddrs s
    end.
Proof.
  unfold Update, bind at 1.
  destruct (updateFrontend fuel fe s) as [[s1 [[]|e]]|] eqn:H1; [| |done].
  2:{ intros [= <- <-]. apply (np_kept_updateFrontend _ _ _ _ _ H1). }
  pose proof (np_kept_updateFrontend _ _ _ _ _ H1) as K1.
  destruct (expandsPerNode fe).
  2:{ by intros [= <- <-]. }
  unfold bind at 1, gets at 1. unfold bind at 1.
  destruct (foldM (updateNodeAddr fuel) _ _ s1)
    as [[s2 [[cur1 old1]|e]]|] eqn:H2; [| |done].
  2:{ intros [= <- <-]. apply updateNodeAddrs_recorded in H2 as [K2 _].
      unfold np_kept in *. congruence. }
  apply updateNodeAddrs_recorded in H2 as [K2 R2].
  destruct (R2 _ _ eq_refl) as [Hp2 Ha2].
  unfold bind at 1.
  destruct (foldM deleteNodeAddr _ cur1 s2) as [[s3 [cur2|e]]|] eqn:H3;
    [| |done].
  2:{ intros [= <- <-]. apply deleteNodeAddrs_recorded in H3 as [K3 _].
      unfold np_kept in *. congruence. }
  apply deleteNodeAddrs_recorded in H3 as [K3 R3].
  destruct (R3 _ eq_refl) as [Hp3 Ha3].
  unfold modify. intros [= <- <-]. simpl.
  unfold np_kept in *. rewrite K3, K2, K1. congruence.
Qed.


Lemma bind_Ok_inv {A B} (m : M A) (k : A → M B) s s' b :
  bind m k s = Some (s', Ok b) →
  ∃ s1 a, m s = Some (s1, Ok a) ∧ k a s1 = Some (s', Ok b).
Proof.
  unfold bind. destruct (m s) as [[s1 [a|e]]|]; [|done..].
  intros Hk. by exists s1, a.
Qed.

#[local] Instance svc_kept_is_stable : Stable svc_kept.
Proof. split; unfold svc_kept; [done | congruence | done]. Qed.

Lemma deleteFrontend_released fe s s' feID :
  lookupLocalID StringID (serviceIDAlloc s) (Address fe) = Ok feID →
  deleteFrontend fe s = Some (s', Ok tt) →
  serviceIDAlloc s' = deleteLocalID StringID (serviceIDAlloc s) feID ∧
  backendReferences s' !! Address fe = None.
Proof.
  intros Hfound. unfold deleteFrontend, bind at 1, gets at 1. rewrite Hfound.
  intros Hrun.
  apply bind_Ok_inv in Hrun as (s1 & refs & [= <- <-] & Hrun).
  apply bind_Ok_inv in Hrun as (s2 & [] & H2 & Hrun).
  assert (K2 : svc_kept s s2).
  { revert H2. apply (keeps_forM svc_kept). intros a.
    apply (keeps_bind svc_kept); [apply (keeps_gets svc_kept)|]. intros beID.
    apply (keeps_wrapping svc_kept), (keeps_deleteAffinityMatch svc_kept). }
  apply bind_Ok_inv in Hrun as (s3 & orphans & [= <- <-] & Hrun).
  apply bind_Ok_inv in Hrun as (s4 & [] & H4 & Hrun).
  assert (K4 : svc_kept s2 s4).
  { revert H4. apply (keeps_forM svc_kept). intros o.
    apply (keeps_bind svc_kept);
      [apply (keeps_wrapping svc_kept), (keeps_deleteBackend svc_kept)|].
    intros _. by apply (keeps_modify svc_kept). }
  apply bind_Ok_inv in Hrun as (s5 & n & [= <- <-] & Hrun).
  apply bind_Ok_inv in Hrun as (s6 & [] & H6 & Hrun).
  assert (K6 : svc_kept s4 s6).
  { revert H6. apply (keeps_forM svc_kept). intros i.
    apply (keeps_bind svc_kept); [apply (keeps_call svc_kept)|]. intros err.
    apply (keeps_check svc_kept). }
  apply bind_Ok_inv in Hrun as (s7 & err & H7 & Hrun).
  assert (K7 : svc_kept s6 s7) by (revert H7; apply (keeps_call svc_kept)).
  apply bind_Ok_inv in Hrun as (s8 & [] & H8 & Hrun).
  assert (K8 : svc_kept s7 s8) by (revert H8; apply (keeps_check svc_kept)).
  unfold modify in Hrun. injection Hrun as <-.
  unfold svc_kept in *. simpl. split.
  - unfold updateBackendRefCounts.
    destruct (match backendReferences s8 !! Address fe with
              | Some oldRefs => _ | None => _ end). simpl. congruence.
  - unfold updateBackendRefCounts.
    destruct (match backendReferences s8 !! Address fe with
              | Some oldRefs => _ | None => _ end). simpl.
    by rewrite lookup_delete_eq.
Qed.

(** X14: deleting a frontend twice: from a state whose service allocator
    has agreeing maps, a successful [deleteFrontend] leaves the address of
    the frontend without an ID (and, if it had one, without a membership
    entry), so that a second [deleteFrontend] succeeds without a driver
    call and without changing anything. *)
Theorem deleteFrontend_twice (fe : Frontend) (s s' : bpfOps) :
  alloc_inv StringID (serviceIDAlloc s) →
  deleteFrontend fe s = Some (s', Ok tt) →
  deleteFrontend fe s' = Some (s', Ok tt) ∧
  lookupLocalID StringID (serviceIDAlloc s') (Address fe)
  = Fail (Errorf "ID not found" []) ∧
  (is_Some (entities (serviceIDAlloc s) !! StringID (Address fe)) →
   backendReferences s' !! Address fe = None).
Proof.
  intros Hinv Hrun.
  assert (Hgone : lookupLocalID StringID (serviceIDAlloc s') (Address fe)
                  = Fail (Errorf "ID not found" []) ∧
                  (is_Some (entities (serviceIDAlloc s) !! StringID (Address fe)) →
                   backendReferences s' !! Address fe = None)).
  { destruct (lookupLocalID StringID (serviceIDAlloc s) (Address fe))
      as [feID|e] eqn:Hfound.
    - destruct (deleteFrontend_released _ _ _ _ Hfound Hrun) as [-> Hrefs].
      split; [|done].
      by apply lookupLocalID_deleteLocalID.
    - revert Hrun. unfold deleteFrontend, bind at 1, gets at 1.
      rewrite Hfound. intros [= <-]. split.
      + revert Hfound. unfold lookupLocalID.
        by destruct (entities _ !! _).
      + intros [i Hi]. unfold lookupLocalID in Hfound. by rewrite Hi in Hfound. }
  destruct Hgone as [Hgone Hrefs]. split; [|done].
  unfold deleteFrontend, bind at 1, gets at 1. by rewrite Hgone.
Qed.


#[local] Instance fe_kept_stable : Stable fe_kept.
Proof.
  split; unfold fe_kept; [done | | done].
  intros s1 s2 s3 [? ?] [? ?]. split; congruence.
Qed.

Lemma fails_keeping_bind {A B} (R : relation bpfOps) `{!Stable R}
    (m : M A) (k : A → M B) :
  keeps R m → (∀ a, fails_keeping R (k a)) → fails_keeping R (bind m k).
Proof.
  intros Hm Hk s s' e. unfold bind.
  destruct (m s) as [[s1 [a|e1]]|] eqn:Hrun; [| |done].
  - intros Hrun'. eapply stable_trans; [by eapply Hm|by eapply Hk].
  - intros [= <- <-]. by eapply Hm.
Qed.

(** X15: a [deleteFrontend] that returns an error has neither removed the
    membership entry of the frontend nor released its service ID: both are
    touched only after the last driver call has succeeded, so the deletion
    can be retried. *)
Theorem deleteFrontend_error_keeps_frontend (fe : Frontend) (s s' : bpfOps)
    (e : error) :
  deleteFrontend fe s = Some (s', Fail e) →
  backendReferences s' = backendReferences s ∧
  serviceIDAlloc s' = serviceIDAlloc s.
Proof.
  revert s s' e. change (fails_keeping fe_kept (deleteFrontend fe)).
  apply fails_keeping_bind; [apply _|apply (keeps_gets fe_kept)|].
  intros [feID|e0]; [|by intros s s' e].
  apply fails_keeping_bind; [apply _|apply (keeps_gets fe_kept)|]. intros refs.
  apply fails_keeping_bind; [apply _| |].
  { apply (keeps_forM fe_kept). intros a.
    apply (keeps_bind fe_kept); [apply (keeps_gets fe_kept)|]. intros beID.
    apply (keeps_wrapping fe_kept), (keeps_deleteAffinityMatch fe_kept). }
  intros _. apply fails_keeping_bind; [apply _|apply (keeps_gets fe_kept)|].
  intros orphans. apply fails_keeping_bind; [apply _| |].
  { apply (keeps_forM fe_kept). intros o.
    apply (keeps_bind fe_kept);
      [apply (keeps_wrapping fe_kept), (keeps_deleteBackend fe_kept)|].
    intros _. by apply (keeps_modify fe_kept). }
  intros _. apply fails_keeping_bind; [apply _|apply (keeps_gets fe_kept)|].
  intros n. apply fails_keeping_bind; [apply _| |].
  { apply (keeps_forM fe_kept). intros i.
    apply (keeps_bind fe_kept); [apply (keeps_call fe_kept)|]. intros err.
    apply (keeps_check fe_kept). }
  intros _. apply fails_keeping_bind; [apply _|apply (keeps_call fe_kept)|].
  intros err. apply fails_keeping_bind; [apply _|apply (keeps_check fe_kept)|].
  intros _. by intros s s' e.
Qed.

Lemma pruneRevNat_result s :
  ∃ s', pruneRevNat s = Some (s', Ok tt) ∨
        ∃ e, pruneRevNat s = Some (s', Fail e) ∧
             last (trace s') = Some (DumpRevNat, Some e).
Proof.
  assert (Hloop : ∀ (l : list RevNatKey) s0,
    ∃ s', forM l (λ key, bind (call (DeleteRevNat key)) (λ _, ret tt)) s0
          = Some (s', Ok tt)).
  { induction l as [|x l IH]; intros s0; simpl.
    - by eexists.
    - unfold bind at 1. unfold bind at 1. unfold call.
      destruct (exec (DeleteRevNat x) (dp s0)) as [d r]. simpl. apply IH. }
  unfold pruneRevNat, bind, gets, call.
  destruct (exec DumpRevNat (dp s)) as [d [e|]]; simpl.
  - eexists. right. exists e. split; [done|]. simpl. by rewrite last_snoc.
  - match goal with
    | |- context [forM ?l ?body ?s0] => destruct (Hloop l s0) as [s4 Hs4]
    end.
    exists s4. left. exact Hs4.
Qed.

(** X16: [Prune] returns an error only when the dump of the reverse NAT
    table fails, and the error is then the join of that one error: the
    first three sweeps always succeed and the failures of the deletes are
    not reported. *)
Theorem Prune_fails_only_on_dump (s : bpfOps) :
  ∃ s', Prune s = Some (s', Ok tt) ∨
        ∃ e, Prune s = Some (s', Fail (Joined [e])) ∧
             last (trace s') = Some (DumpRevNat, Some e).
Proof.
  destruct (prune_sweeps_succeed s) as [[s1 H1] _].
  destruct (prune_sweeps_succeed s1) as (_ & [s2 H2] & _).
  destruct (prune_sweeps_succeed s2) as (_ & _ & [s3 H3]).
  destruct (pruneRevNat_result s3) as [s4 [H4|(e & H4 & Hlast)]];
    exists s4; [left|right; exists e; split; [|done]];
    unfold Prune, bind, sweep; by rewrite H1, H2, H3, H4.
Qed.

End FrontendFacts.

Lemma Update_records_node_addresses_witness :
  nodePortAddrs dualStackState
  = <[Port (Address nodePort4) := fe_nodePortAddrs nodePort4]>
      (nodePortAddrs
         (state_of demoState0 (@Update demoE 4 nodePort6 demoState0))).
Proof.
  apply (@Update_records_node_addresses demoE 4 nodePort4
           (state_of demoState0 (@Update demoE 4 nodePort6 demoState0))
           dualStackState (Ok tt)).
  apply (run_eq demoState0). vm_compute. reflexivity.
Defined.

Lemma registeredState_inv :
  alloc_inv demoStringID (serviceIDAlloc registeredState).
Proof.
  apply (alloc_ok_acquireLocalID demoStringID 4
           (newIDAllocator firstFreeServiceID maxSetOfServiceID)
           (Address demoFrontend) 0 _ (Ok 1)).
  - apply alloc_ok_new; vm_compute; reflexivity.
  - vm_compute. discriminate.
  - apply (run_eq (newIDAllocator firstFreeServiceID maxSetOfServiceID)).
    vm_compute. reflexivity.
Qed.

Lemma deleteFrontend_twice_witness :
  @deleteFrontend demoE demoFrontend unregisteredState
  = Some (unregisteredState, Ok tt).
Proof.
  apply (@deleteFrontend_twice demoE demoFrontend registeredState
           unregisteredState).
  - apply registeredState_inv.
  - apply (run_eq registeredState). vm_compute. reflexivity.
Defined.

Lemma deleteFrontend_error_keeps_frontend_witness :
  backendReferences delFailState2 = backendReferences delFailState1 ∧
  serviceIDAlloc delFailState2 = serviceIDAlloc delFailState1.
Proof.
  apply (@deleteFrontend_error_keeps_frontend delFailE oneBackend
           delFailState1 delFailState2
           (Wrap "delete reverse nat %d" (Errno 1))).
  apply (run_eq delFailState1). vm_compute. reflexivity.
Defined.
